(** * YouTube caption fetcher: a shallow embedding of [content_script.js]

    The content script locates the player metadata of a watch page, lists
    its caption tracks, fetches every track in up to four transport
    formats, parses WebVTT, timed-text XML and JSON3 bodies into cue
    lines and joins everything into one labelled transcript.

    Conventions of the embedding.
    - A JavaScript string is a [string]: a sequence of 8-bit code units.
      White space (for [trim] and the regular expression class [\s]) is
      the part of the ECMAScript set that lies below 256.
    - A JavaScript number is a binary64 [float] of the kernel, read by
      [parseFloat] and printed by [Number_toString] as ECMAScript does.
    - A JavaScript value that comes out of [JSON.parse] or of the page is
      a [value]; [VUndefined] is the result of reading a missing property.
      Such a value holds no function: converting an object that has a
      property [toString] of its own throws.
    - A call that may throw returns a [completion]; the asynchronous
      functions that fetch are written in the state-and-exception monad
      [M], whose state is the network and the list of requested URLs.
    - The functions of the browser (HTML and XML parsing, JSON parsing,
      the network) are the fields of a [host]; the state of the page is a
      [page]. Logging to the console is left out, but not the conversions
      to a string that the arguments of a call of [log] perform.

    The definitions come first, then sample inputs, then the properties. *)

From Stdlib Require Import List String Ascii Bool Arith ZArith Lia DecimalString.
From Stdlib Require Import Floats.PrimFloat Floats.SpecFloat Floats.FloatOps.
From Stdlib Require Import Floats.FloatAxioms.
Import ListNotations.

Open Scope string_scope.

(** ** Strings as the script uses them *)

Module JsString.

(** The double quote, which string literals of this file never contain. *)
Definition dquote : ascii := "034"%char.
Definition backslash : ascii := "092"%char.
Definition LF : ascii := "010"%char.
Definition CR : ascii := "013"%char.

Definition isEmpty (s : string) : bool :=
  match s with EmptyString => true | String _ _ => false end.

(** [WhiteSpace] and [LineTerminator] code units below 256:
    TAB, LF, VT, FF, CR, SP and NBSP. *)
Definition isWhiteSpace (c : ascii) : bool :=
  let n := nat_of_ascii c in
  (Nat.leb 9 n && Nat.leb n 13) || Nat.eqb n 32 || Nat.eqb n 160.

Fixpoint drop (n : nat) (s : string) : string :=
  match n, s with
  | O, _ => s
  | S _, EmptyString => EmptyString
  | S k, String _ s' => drop k s'
  end.

Fixpoint take (n : nat) (s : string) : string :=
  match n, s with
  | O, _ => EmptyString
  | S _, EmptyString => EmptyString
  | S k, String c s' => String c (take k s')
  end.

(** [s.slice(a, b)] for [0 <= a] and [0 <= b]. *)
Definition slice (s : string) (a b : nat) : string := take (b - a) (drop a s).

Definition startsWith (s p : string) : bool := prefix p s.

(** Search of [sub] in [s], the first character of [s] having index [i]. *)
Fixpoint indexOfAux (sub s : string) (i : nat) : option nat :=
  if prefix sub s then Some i
  else match s with
       | EmptyString => None
       | String _ s' => indexOfAux sub s' (S i)
       end.

(** [s.indexOf(sub, from)]; [None] stands for [-1]. *)
Definition indexOf (sub s : string) (from : nat) : option nat :=
  let from := Nat.min from (length s) in
  indexOfAux sub (drop from s) from.

Definition includes (s sub : string) : bool :=
  match indexOf sub s 0 with Some _ => true | None => false end.

Fixpoint trimStart (s : string) : string :=
  match s with
  | EmptyString => EmptyString
  | String c s' => if isWhiteSpace c then trimStart s' else s
  end.

Fixpoint trimEnd (s : string) : string :=
  match s with
  | EmptyString => EmptyString
  | String c s' =>
      let r := trimEnd s' in
      if isWhiteSpace c && isEmpty r then EmptyString else String c r
  end.

Definition trim (s : string) : string := trimEnd (trimStart s).

(** [s.split(sep)] for a non-empty separator: the current piece and the
    pieces after it; [skip] counts the characters of a separator
    occurrence that are still to be passed over. *)
Fixpoint splitAux (sep s : string) (skip : nat) : string * list string :=
  match s with
  | EmptyString => (EmptyString, [])
  | String c s' =>
      match skip with
      | S k => splitAux sep s' k
      | O =>
          if prefix sep s
          then let (p, ps) := splitAux sep s' (length sep - 1) in
               (EmptyString, p :: ps)
          else let (p, ps) := splitAux sep s' 0 in (String c p, ps)
      end
  end.

Definition split (s sep : string) : list string :=
  let (p, ps) := splitAux sep s 0 in p :: ps.

(** [s.replace(pat, rep)] with a string pattern: the first occurrence. *)
Definition replaceFirst (s pat rep : string) : string :=
  match indexOf pat s 0 with
  | None => s
  | Some i => take i s ++ rep ++ drop (i + length pat) s
  end.

(** [s.replace(/c/g, '')]. *)
Fixpoint removeAll (c : ascii) (s : string) : string :=
  match s with
  | EmptyString => EmptyString
  | String d s' =>
      if Ascii.eqb c d then removeAll c s' else String d (removeAll c s')
  end.

(** [s.replace(/[class]+/g, ' ')]: every maximal run of characters of
    the class becomes one space; [inRun] says the previous character
    was in the class. *)
Fixpoint collapseAux (cls : ascii -> bool) (inRun : bool) (s : string) : string :=
  match s with
  | EmptyString => EmptyString
  | String c s' =>
      if cls c
      then if inRun then collapseAux cls true s'
           else String " "%char (collapseAux cls true s')
      else String c (collapseAux cls false s')
  end.

Definition collapse (cls : ascii -> bool) (s : string) : string :=
  collapseAux cls false s.

Definition collapseWhiteSpace : string -> string := collapse isWhiteSpace.
Definition collapseNewlines : string -> string := collapse (Ascii.eqb LF).

(** [arr.join(sep)] on an array of strings. *)
Definition join (sep : string) (l : list string) : string := concat sep l.

(** A string is blank when trimming leaves nothing. *)
Definition isBlank (s : string) : bool := isEmpty (trim s).

Definition quoted (s : string) : string :=
  String dquote s ++ String dquote EmptyString.

End JsString.
Import JsString.

(** ** Numbers: binary64, [parseFloat] and [Number::toString] *)

Module JsNumber.

Definition digitsOfZ (n : Z) : string :=
  DecimalString.NilZero.string_of_uint (N.to_uint (Z.to_N n)).

Definition NaN : float := nan.

(** The binary64 nearest to an integer (ties to even). *)
Definition ofZ (n : Z) : float := SF2Prim (binary_normalize prec emax n 0 false).

(** The binary64 nearest to [m * 10 ^ e] for [0 <= m]. For a negative
    exponent the quotient is taken with 64 bits to spare and a sticky
    last bit, so rounding it once rounds the exact value. *)
Definition ofDecimal (m e : Z) : float :=
  if (m <=? 0)%Z then zero
  else if (0 <=? e)%Z then ofZ (m * 10 ^ e)
  else
    let d := (10 ^ (- e))%Z in
    let s := (Z.log2 d + 64)%Z in
    let n := (m * 2 ^ s)%Z in
    let sticky := if (n mod d =? 0)%Z then 0%Z else 1%Z in
    SF2Prim (binary_normalize prec emax (2 * (n / d) + sticky) (- (s + 1)) false).

Definition isDigit (c : ascii) : bool :=
  let n := nat_of_ascii c in Nat.leb 48 n && Nat.leb n 57.

Definition digitValue (c : ascii) : Z := Z.of_nat (nat_of_ascii c - 48).

(** Reads the longest run of decimal digits: the value accumulated on
    [acc], the number of digits read, and the rest of the string. *)
Fixpoint readDigits (s : string) (acc : Z) (count : nat) : Z * nat * string :=
  match s with
  | String c s' =>
      if isDigit c then readDigits s' (10 * acc + digitValue c) (S count)
      else (acc, count, s)
  | EmptyString => (acc, count, s)
  end.

(** An optional sign: whether it is a minus, and the rest. *)
Definition readSign (s : string) : bool * string :=
  match s with
  | String "-"%char s' => (true, s')
  | String "+"%char s' => (false, s')
  | _ => (false, s)
  end.

(** An optional exponent part [e[+-]digits]; zero when it is missing or
    has no digit. *)
Definition readExponent (s : string) : Z * string :=
  match s with
  | String c s' =>
      if Ascii.eqb c "e" || Ascii.eqb c "E" then
        let (neg, r) := readSign s' in
        let '(v, n, rest) := readDigits r 0 0 in
        match n with
        | O => (0%Z, s)
        | S _ => ((if neg then - v else v)%Z, rest)
        end
      else (0%Z, s)
  | EmptyString => (0%Z, s)
  end.

(** The longest prefix that is a [StrDecimalLiteral], as a number, and
    what follows it; [None] when no prefix is one. *)
Definition readDecimalLiteral (s : string) : option (float * string) :=
  let (neg, s0) := readSign s in
  let signed (x : float) := if neg then (- x)%float else x in
  if prefix "Infinity" s0 then Some (signed infinity, drop 8 s0)
  else
    let '(ip, ni, s1) := readDigits s0 0 0 in
    let '(m, nf, s2) :=
      match s1 with
      | String "."%char r => readDigits r ip 0
      | _ => (ip, O, s1)
      end in
    match ni, nf with
    | O, O => None
    | _, _ =>
        let (ex, s3) := readExponent s2 in
        Some (signed (ofDecimal m (ex - Z.of_nat nf)), s3)
    end.

(** The global [parseFloat] on a string. *)
Definition parseFloat (s : string) : float :=
  match readDecimalLiteral (trimStart s) with
  | Some (x, _) => x
  | None => NaN
  end.

Fixpoint readRadix (radix : Z) (s : string) (acc : Z) (count : nat)
  : Z * nat * string :=
  match s with
  | String c s' =>
      let n := nat_of_ascii c in
      let d := if Nat.leb 48 n && Nat.leb n 57 then Z.of_nat (n - 48)
               else if Nat.leb 97 n && Nat.leb n 102 then Z.of_nat (n - 87)
               else if Nat.leb 65 n && Nat.leb n 70 then Z.of_nat (n - 55)
               else radix in
      if (d <? radix)%Z then readRadix radix s' (radix * acc + d)%Z (S count)
      else (acc, count, s)
  | EmptyString => (acc, count, s)
  end.

(** [StringToNumber]: the whole trimmed string must be a numeric literal;
    the empty string is zero. *)
Definition StringToNumber (s : string) : float :=
  let t := trim s in
  let radixLiteral (radix : Z) (r : string) :=
    match readRadix radix r 0 0 with
    | (v, S _, EmptyString) => ofZ v
    | _ => NaN
    end in
  match t with
  | EmptyString => zero
  | String "0"%char (String c r) =>
      if Ascii.eqb c "x" || Ascii.eqb c "X" then radixLiteral 16%Z r
      else if Ascii.eqb c "o" || Ascii.eqb c "O" then radixLiteral 8%Z r
      else if Ascii.eqb c "b" || Ascii.eqb c "B" then radixLiteral 2%Z r
      else match readDecimalLiteral t with
           | Some (x, EmptyString) => x
           | _ => NaN
           end
  | _ => match readDecimalLiteral t with
         | Some (x, EmptyString) => x
         | _ => NaN
         end
  end.

(** *** Printing

    A positive finite number is [m * 2 ^ e]; [scaled m e p] is the
    fraction [num / den] equal to [m * 2 ^ e / 10 ^ p]. *)
Definition scaled (m e p : Z) : Z * Z :=
  ((m * 2 ^ (Z.max e 0) * 10 ^ (Z.max (- p) 0))%Z,
   (2 ^ (Z.max (- e) 0) * 10 ^ (Z.max p 0))%Z).

(** [10 ^ p <= m * 2 ^ e]. *)
Definition atLeastPow10 (m e p : Z) : bool :=
  let (num, den) := scaled m e p in (den <=? num)%Z.

(** The [n] with [10 ^ (n - 1) <= m * 2 ^ e < 10 ^ n]: an estimate from
    the binary logarithm, corrected by at most three steps. *)
Definition decimalExponent (m e : Z) : Z :=
  let fix adjust (fuel : nat) (n : Z) : Z :=
    match fuel with
    | O => n
    | S f =>
        if atLeastPow10 m e n then adjust f (n + 1)%Z
        else if atLeastPow10 m e (n - 1) then n
        else adjust f (n - 1)%Z
    end in
  adjust 4%nat (((Z.log2 m + e) * 30103) / 100000 + 1)%Z.

(** The [k]-digit candidates for [x = m * 2 ^ e] at decimal exponent [n]:
    the integer below [x / 10 ^ (n - k)] and the one above, kept when
    they read back as [x]; of two that do, the nearer (the even one on a
    tie). The result is the digit string and the exponent [n] to use. *)
Definition candidate (x : float) (m e n : Z) (k : Z) : option (Z * Z) :=
  let p := (n - k)%Z in
  let (num, den) := scaled m e p in
  let lo := (num / den)%Z in
  let r := (num mod den)%Z in
  let hi := (lo + 1)%Z in
  let back (c : Z) := (ofDecimal c p =? x)%float in
  let norm (c : Z) := if (c =? 10 ^ k)%Z then (10 ^ (k - 1), n + 1)%Z else (c, n) in
  if (r =? 0)%Z then (if back lo then Some (lo, n) else None)
  else
    match back lo, back hi with
    | true, true =>
        if (2 * r <? den)%Z then Some (lo, n)
        else if (den <? 2 * r)%Z then Some (norm hi)
        else if Z.even lo then Some (lo, n) else Some (norm hi)
    | true, false => Some (lo, n)
    | false, true => Some (norm hi)
    | false, false => None
    end.

Fixpoint shortest (fuel : nat) (x : float) (m e n : Z) (k : Z) : Z * Z * Z :=
  match fuel with
  | O => let (num, den) := scaled m e (n - k) in ((num / den)%Z, k, n)
  | S f =>
      match candidate x m e n k with
      | Some (s, n') => (s, k, n')
      | None => shortest f x m e n (k + 1)%Z
      end
  end.

Fixpoint zeros (n : nat) : string :=
  match n with O => EmptyString | S k => String "0"%char (zeros k) end.

(** The layout of [Number::toString] from the digits [ds] ([k] of them)
    and the exponent [n]. *)
Definition layout (ds : string) (k n : Z) : string :=
  if ((k <=? n) && (n <=? 21))%Z then ds ++ zeros (Z.to_nat (n - k))
  else if ((0 <? n) && (n <=? 21))%Z then
    take (Z.to_nat n) ds ++ "." ++ drop (Z.to_nat n) ds
  else if ((-6 <? n) && (n <=? 0))%Z then "0." ++ zeros (Z.to_nat (- n)) ++ ds
  else
    let ex := (n - 1)%Z in
    let sign := if (ex <? 0)%Z then "-" else "+" in
    let mant := if (k =? 1)%Z then ds else take 1 ds ++ "." ++ drop 1 ds in
    mant ++ "e" ++ sign ++ digitsOfZ (Z.abs ex).

(** [Number::toString(x)] in radix ten, which template literals and
    string concatenation apply to a number. *)
Definition Number_toString (x : float) : string :=
  match Prim2SF x with
  | S754_nan => "NaN"
  | S754_zero _ => "0"
  | S754_infinity false => "Infinity"
  | S754_infinity true => "-Infinity"
  | S754_finite neg m e =>
      let ax := abs x in
      let n := decimalExponent (Zpos m) e in
      let '(s, k, n') := shortest 17 ax (Zpos m) e n 1 in
      (if neg then "-" else "") ++ layout (digitsOfZ s) k n'
  end.

(** [x || 0] on a number: zero and NaN are falsy. *)
Definition orZero (x : float) : float :=
  if is_zero x || is_nan x then zero else x.

End JsNumber.
Import JsNumber.

(** ** Values, exceptions and completions *)

#[local] Set Warnings "-register-all".

(** What [JSON.parse] produces and what the page hands over; an object is
    the list of its own properties. *)
Inductive value : Type :=
| VUndefined
| VNull
| VBool (b : bool)
| VNum (x : float)
| VStr (s : string)
| VArr (elems : list value)
| VObj (props : list (string * value)).

(** Thrown values are error objects: [Error] is what the script throws
    itself, the other two come from the engine. *)
Inductive exn : Type :=
| Error (message : string)
| TypeError (message : string)
| SyntaxError (message : string).

Definition message (e : exn) : string :=
  match e with Error m | TypeError m | SyntaxError m => m end.

Definition errorName (e : exn) : string :=
  match e with
  | Error _ => "Error"
  | TypeError _ => "TypeError"
  | SyntaxError _ => "SyntaxError"
  end.

(** [err && err.message ? err.message : String(err)]: an error object is
    truthy, and [String] of an error without message is its name. *)
Definition errorText (e : exn) : string :=
  if isEmpty (message e) then errorName e else message e.

(** The result of a host call: it returns or it throws. *)
Inductive hostResult (A : Type) : Type :=
| Returns (a : A)
| Throws (e : exn).
Arguments Returns {A} a.
Arguments Throws {A} e.

(** The result of running a function of the script. [Unfinished] is not
    an outcome of JavaScript: it marks a loop of the model that used up
    its fuel, passes through every [catch], and is shown never to arise. *)
Inductive completion (A : Type) : Type :=
| Normal (a : A)
| Throw (e : exn)
| Unfinished.
Arguments Normal {A} a.
Arguments Throw {A} e.
Arguments Unfinished {A}.

Definition bindC {A B} (c : completion A) (k : A -> completion B) : completion B :=
  match c with
  | Normal a => k a
  | Throw e => Throw e
  | Unfinished => Unfinished
  end.

Declare Scope completion_scope.
Delimit Scope completion_scope with completion.
Notation "x <- c ;; k" := (bindC c (fun x => k))
  (at level 61, c at next level, right associativity) : completion_scope.
Notation "' p <- c ;; k" := (bindC c (fun x => let 'p := x in k))
  (at level 61, p pattern, c at next level, right associativity) : completion_scope.

(** [try { body } catch (e) { handler }]. *)
Definition tryCatch {A} (body : completion A) (handler : exn -> completion A)
  : completion A :=
  match body with
  | Throw e => handler e
  | other => other
  end.

Definition ofHost {A} (r : hostResult A) : completion A :=
  match r with Returns a => Normal a | Throws e => Throw e end.

(** [arr.map(f)] when [f] may throw: the first exception ends the map. *)
Fixpoint mapC {A B} (f : A -> completion B) (l : list A) : completion (list B) :=
  match l with
  | [] => Normal []
  | a :: l' =>
      bindC (f a) (fun b => bindC (mapC f l') (fun bs => Normal (b :: bs)))
  end.

Module JsValue.

(** [ToBoolean]. *)
Definition truthy (v : value) : bool :=
  match v with
  | VUndefined | VNull => false
  | VBool b => b
  | VNum x => negb (is_zero x || is_nan x)
  | VStr s => negb (isEmpty s)
  | VArr _ | VObj _ => true
  end.

(** [a || b]. *)
Definition orElse (a b : value) : value := if truthy a then a else b.

Definition isArray (v : value) : bool :=
  match v with VArr _ => true | _ => false end.

Definition isUndefined (v : value) : bool :=
  match v with VUndefined => true | _ => false end.

(** [v === 'literal']. *)
Definition strictEqualsString (v : value) (s : string) : bool :=
  match v with VStr t => String.eqb t s | _ => false end.

(** [v === true]. *)
Definition strictEqualsTrue (v : value) : bool :=
  match v with VBool true => true | _ => false end.

Fixpoint lookup (key : string) (props : list (string * value)) : value :=
  match props with
  | [] => VUndefined
  | (k, v) :: rest => if String.eqb k key then v else lookup key rest
  end.

(** [v.key] for the property names the script reads: own properties of
    objects and [length]; none of the names is an array index or a
    property of a built-in prototype. Reading from [null] or [undefined]
    throws. *)
Definition getProp (v : value) (key : string) : completion value :=
  match v with
  | VUndefined =>
      Throw (TypeError ("Cannot read properties of undefined (reading '" ++ key ++ "')"))
  | VNull =>
      Throw (TypeError ("Cannot read properties of null (reading '" ++ key ++ "')"))
  | VObj props => Normal (lookup key props)
  | VStr s =>
      Normal (if String.eqb key "length" then VNum (ofZ (Z.of_nat (length s)))
              else VUndefined)
  | VArr l =>
      Normal (if String.eqb key "length" then VNum (ofZ (Z.of_nat (List.length l)))
              else VUndefined)
  | VBool _ | VNum _ => Normal VUndefined
  end.

(** [v?.key]. *)
Definition optProp (v : value) (key : string) : completion value :=
  match v with
  | VUndefined | VNull => Normal VUndefined
  | _ => getProp v key
  end.

(** An own property of that name, whatever its value. *)
Definition hasOwn (key : string) (props : list (string * value)) : bool :=
  existsb (fun p => String.eqb (fst p) key) props.

(** Whether the conversion of a value to a primitive returns. A value of
    this type holds no function, so an object with an own [toString] has
    none to call, while the [valueOf] it inherits gives back the object:
    the conversion throws a [TypeError]. The conversion of an array joins
    the conversions of its elements. *)
Fixpoint convertible (v : value) : bool :=
  match v with
  | VObj props => negb (hasOwn "toString" props)
  | VArr l =>
      forallb (fun e => match e with
                        | VUndefined | VNull => true
                        | _ => convertible e
                        end) l
  | _ => true
  end.

Definition ConversionError : exn :=
  TypeError "Cannot convert object to primitive value".

(** What [ToString] returns when it returns: see [convertible] and
    [asString]. *)
Fixpoint ToString (v : value) : string :=
  match v with
  | VUndefined => "undefined"
  | VNull => "null"
  | VBool true => "true"
  | VBool false => "false"
  | VNum x => Number_toString x
  | VStr s => s
  | VArr l =>
      join "," (map (fun e => match e with
                              | VUndefined | VNull => EmptyString
                              | _ => ToString e
                              end) l)
  | VObj _ => "[object Object]"
  end.

(** What [ToNumber] returns when it returns. *)
Definition ToNumber (v : value) : float :=
  match v with
  | VUndefined => NaN
  | VNull => zero
  | VBool true => one
  | VBool false => zero
  | VNum x => x
  | VStr s => StringToNumber s
  | VArr _ | VObj _ => StringToNumber (ToString v)
  end.

(** The conversion to a string, as template literals, [+] with a string
    and [String] apply it. *)
Definition asString (v : value) : completion string :=
  if convertible v then Normal (ToString v) else Throw ConversionError.

(** The conversion to a number, as [/] applies it. *)
Definition asNumber (v : value) : completion float :=
  if convertible v then Normal (ToNumber v) else Throw ConversionError.

(** An element as [Array.prototype.join] prints it. *)
Definition pieceText (v : value) : completion string :=
  match v with
  | VUndefined | VNull => Normal EmptyString
  | _ => asString v
  end.

End JsValue.
Import JsValue.

(** ** Brace balancing: [extractJSONFromScriptText] *)

Definition openBrace : ascii := "{"%char.
Definition closeBrace : ascii := "}"%char.

(** The [for] loop of the extractor over the text from index [i] on:
    the index of the closing brace at which [depth] returns to zero. *)
Fixpoint scanBraces (s : string) (i : nat) (depth : Z) : option nat :=
  match s with
  | EmptyString => None
  | String ch s' =>
      if Ascii.eqb ch openBrace then scanBraces s' (S i) (depth + 1)
      else if Ascii.eqb ch closeBrace then
        let depth := (depth - 1)%Z in
        if (depth =? 0)%Z then Some i else scanBraces s' (S i) depth
      else scanBraces s' (S i) depth
  end.

Definition extractJSONFromScriptText (text varName : string) : option string :=
  match indexOf varName text 0 with
  | None => None
  | Some idx =>
      match indexOf "{" text idx with
      | None => None
      | Some braceStart =>
          match scanBraces (drop braceStart text) braceStart 0 with
          | None => None
          | Some i => Some (slice text braceStart (i + 1))
          end
      end
  end.

(** *** The reference the specification has in mind

    A scanner that knows JSON string literals: inside a literal (between
    two unescaped double quotes) braces do not count. *)
Fixpoint closeAware (s : string) (i : nat) (depth : Z) (inStr esc : bool)
  : option nat :=
  match s with
  | EmptyString => None
  | String ch s' =>
      if inStr then
        if esc then closeAware s' (S i) depth true false
        else if Ascii.eqb ch backslash then closeAware s' (S i) depth true true
        else if Ascii.eqb ch dquote then closeAware s' (S i) depth false false
        else closeAware s' (S i) depth true false
      else if Ascii.eqb ch dquote then closeAware s' (S i) depth true false
      else if Ascii.eqb ch openBrace then closeAware s' (S i) (depth + 1) false false
      else if Ascii.eqb ch closeBrace then
        let depth := (depth - 1)%Z in
        if (depth =? 0)%Z then Some i else closeAware s' (S i) depth false false
      else closeAware s' (S i) depth false false
  end.

(** The object literal that follows the variable name, closed at the
    brace that matches its opening brace under JSON's lexical rules. *)
Definition objectLiteralAfter (text varName : string) : option string :=
  match indexOf varName text 0 with
  | None => None
  | Some idx =>
      match indexOf "{" text idx with
      | None => None
      | Some braceStart =>
          match closeAware (drop braceStart text) braceStart 0 false false with
          | None => None
          | Some i => Some (slice text braceStart (i + 1))
          end
      end
  end.

(** No brace character stands inside a string literal, up to the brace
    that closes the outermost object. *)
Fixpoint stringsBraceFree (s : string) (depth : Z) (inStr esc : bool) : bool :=
  match s with
  | EmptyString => true
  | String ch s' =>
      if inStr then
        if Ascii.eqb ch openBrace || Ascii.eqb ch closeBrace then false
        else if esc then stringsBraceFree s' depth true false
        else if Ascii.eqb ch backslash then stringsBraceFree s' depth true true
        else if Ascii.eqb ch dquote then stringsBraceFree s' depth false false
        else stringsBraceFree s' depth true false
      else if Ascii.eqb ch dquote then stringsBraceFree s' depth true false
      else if Ascii.eqb ch openBrace then stringsBraceFree s' (depth + 1) false false
      else if Ascii.eqb ch closeBrace then
        let depth := (depth - 1)%Z in
        if (depth =? 0)%Z then true else stringsBraceFree s' depth false false
      else stringsBraceFree s' depth false false
  end.

Definition literalStringsBraceFree (text varName : string) : bool :=
  match indexOf varName text 0 with
  | None => true
  | Some idx =>
      match indexOf "{" text idx with
      | None => true
      | Some braceStart => stringsBraceFree (drop braceStart text) 0 false false
      end
  end.

(** ** Cue times: [vttTimeToSeconds] *)

(** [ts.replace(',', '.').trim()], split at the colons, every part read
    by [parseFloat]. The last line of the function applies [parseFloat]
    to a number, which first prints it. *)
Definition vttTimeToSeconds (ts : string) : float :=
  let ts := trim (replaceFirst ts "," ".") in
  let parts := map parseFloat (split ts ":") in
  match parts with
  | [h; m; s] => (h * 3600 + m * 60 + s)%float
  | [m; s] => (m * 60 + s)%float
  | p0 :: _ => orZero (parseFloat (Number_toString p0))
  | [] => zero
  end.

(** Every parser prints a cue as [[{start}s] {text}]. *)
Definition cueLine (start : float) (text : string) : string :=
  "[" ++ Number_toString start ++ "s] " ++ text.

(** ** The host: documents, the page and the network *)

(** An XML document as [DOMParser] builds it; a document is given by its
    root element. *)
Inductive xmlNode : Type :=
| XElement (tag : string) (attributes : list (string * string))
           (children : list xmlNode)
| XText (data : string).

(** [doc.querySelectorAll(tag)] with a type selector: the elements of
    that name, in document order. *)
Fixpoint querySelectorAll (tag : string) (n : xmlNode) : list xmlNode :=
  match n with
  | XElement t _ cs =>
      (if String.eqb t tag then [n] else []) ++ flat_map (querySelectorAll tag) cs
  | XText _ => []
  end.

Fixpoint textContent (n : xmlNode) : string :=
  match n with
  | XElement _ _ cs => concat EmptyString (map textContent cs)
  | XText d => d
  end.

(** [n.getAttribute(name)]; [None] stands for [null]. *)
Definition getAttribute (n : xmlNode) (name : string) : option string :=
  match n with
  | XElement _ attrs _ =>
      match find (fun a => String.eqb (fst a) name) attrs with
      | Some a => Some (snd a)
      | None => None
      end
  | XText _ => None
  end.

(** [a || b] when [a] is a string or [null] and [b] a string. *)
Definition orString (a : option string) (b : string) : string :=
  match a with
  | Some s => if isEmpty s then b else s
  | None => b
  end.

(** What [fetch(url, { credentials: 'same-origin' })] settles to: the
    promise rejects, or there is a response with its [ok] flag and the
    outcome of [res.text()]. *)
Inductive fetchOutcome : Type :=
| NetworkError (e : exn)
| Response (ok : bool) (body : hostResult string).

(** The functions of the browser the script calls. [htmlTextContent str]
    is the text content of a detached [div] whose [innerHTML] was set to
    [str]; the HTML and XML parsers never throw. The network is a state
    machine: a request changes it and yields an outcome. *)
Record host : Type := Host {
  netState : Type;
  fetch : netState -> string -> fetchOutcome * netState;
  htmlTextContent : string -> string;
  parseFromString : string -> xmlNode;
  JSON_parse : string -> hostResult value
}.

(** A message event on the window: whether [e.source === window], and
    [e.data]. *)
Record messageEvent : Type := MessageEvent {
  fromWindow : bool;
  data : value
}.

(** The page at the time the script runs: the [v] parameter of
    [location.search] ([None] for [null]), the global
    [ytInitialPlayerResponse] as the content script sees it, the message
    events dispatched after the relay script ran, each with its delay in
    milliseconds, in dispatch order, and the [textContent] of every
    [script] element in document order. *)
Record page : Type := Page {
  searchParamV : option string;
  ytInitialPlayerResponse : value;
  messageEvents : list (N * messageEvent);
  scripts : list string
}.

(** One caption stream, as [fetchCaptionList] builds it. *)
Record captionTrack : Type := CaptionTrack {
  lang : value;
  name : value;
  url : value;
  kind : value;
  isTranslatable : bool
}.

Record parsedTranscript : Type := ParsedTranscript {
  track : captionTrack;
  text : string
}.

Record aggregateResult : Type := AggregateResult {
  videoId : string;
  tracks : list captionTrack;
  combined : string
}.

(** What the listener hands to [sendResponse]. *)
Inductive response : Type :=
| ResponseSuccess (result : aggregateResult)
| ResponseFailure (error : string).

(** The thrown errors, by the names the specification gives them. *)
Definition MetadataNotFound : exn :=
  Error "getPlayerResponse error: ytInitialPlayerResponse not found".
Definition NoCaptionTracks : exn :=
  Error "No caption tracks found in player response".
Definition NoVideoId : exn := Error "No video id found on this page".
Definition NoCaptionsFound : exn := Error "No captions found for this video.".
Definition NoCaptionsFetched : exn :=
  Error "No captions could be fetched or parsed. See console logs for details.".

(** What [throw new Error(msg + l)] throws: the error with the message,
    or the engine's error when [l] cannot be converted to a string. *)
Definition errorAbout (msg : string) (l : value) : exn :=
  if convertible l then Error (msg ++ ToString l) else ConversionError.

Definition NoTrackUrl (l : value) : exn :=
  errorAbout "No track URL available for " l.
Definition TrackFetchFailed (l : value) : exn :=
  errorAbout "Failed to fetch/parse caption for lang=" l.

(** ** The script *)

Section Script.

Context (h : host).

Local Open Scope completion_scope.

(** [d.textContent || d.innerText || ''] on a detached [div], whose
    [innerText] is its [textContent]. *)
Definition decodeHtmlEntities (str : string) : string :=
  orString (Some (htmlTextContent h str))
           (orString (Some (htmlTextContent h str)) EmptyString).

Definition parseXml (text : string) : xmlNode := parseFromString h text.

(** *** [parseVTT] *)

(** [lines[i]] followed by a method call: reading past the end yields
    [undefined], on which the call throws. *)
Definition lineAt (lines : list string) (i : nat) : completion string :=
  match nth_error lines i with
  | Some l => Normal l
  | None => Throw (TypeError "Cannot read properties of undefined (reading 'trim')")
  end.

(** The inner [while]: collects the lines of one cue from index [i] up to
    a blank line or the end; returns the index reached and the text. *)
Fixpoint cueTextLoop (fuel : nat) (lines : list string) (i : nat) (cueText : string)
  : completion (nat * string) :=
  match fuel with
  | O => Unfinished
  | S fuel' =>
      if Nat.ltb i (List.length lines) then
        l <- lineAt lines i ;;
        if isEmpty (trim l) then Normal (i, cueText)
        else
          l' <- lineAt lines i ;;
          cueTextLoop fuel' lines (S i)
            (cueText ++ (if isEmpty cueText then EmptyString else String LF EmptyString) ++ l')
      else Normal (i, cueText)
  end.

(** The outer [while], from index [i] with the cues pushed so far. *)
Fixpoint parseVTTLoop (fuel : nat) (lines : list string) (i : nat) (cues : list string)
  : completion (list string) :=
  match fuel with
  | O => Unfinished
  | S fuel' =>
      if Nat.ltb i (List.length lines) then
        l <- lineAt lines i ;;
        let line := trim l in
        if includes line "-->" then
          let times := split line "-->" in
          t0 <- match nth_error times 0 with
                | Some t => Normal t
                | None => Throw (TypeError "Cannot read properties of undefined (reading 'replace')")
                end ;;
          let start := vttTimeToSeconds t0 in
          ' (i', cueText) <- cueTextLoop fuel' lines (S i) EmptyString ;;
          let cueText := trim (collapseNewlines (decodeHtmlEntities cueText)) in
          parseVTTLoop fuel' lines i' (cues ++ [cueLine start cueText])
        else parseVTTLoop fuel' lines (S i) cues
      else Normal cues
  end.

Definition vttLines (text : string) : list string :=
  split (removeAll CR text) (String LF EmptyString).

(** Each turn of either loop advances [i], so one more unit of fuel than
    there are lines is enough. *)
Definition parseVTT (text : string) : completion (list string) :=
  let lines := vttLines text in
  parseVTTLoop (S (List.length lines)) lines 0 [].

(** *** [parseJSON3] *)

(** [arr.map(f)] on a value: only an array has [map]. *)
Definition arrayMap {B} (v : value) (f : value -> completion B)
  : completion (list B) :=
  match v with
  | VArr l => mapC f l
  | VUndefined | VNull =>
      Throw (TypeError "Cannot read properties of undefined (reading 'map')")
  | _ => Throw (TypeError "segs.map is not a function")
  end.

(** [s.utf8 || s.t || s.w || '']. *)
Definition segmentText (s : value) : completion value :=
  utf8 <- getProp s "utf8" ;;
  if truthy utf8 then Normal utf8
  else
    t <- getProp s "t" ;;
    if truthy t then Normal t
    else
      w <- getProp s "w" ;;
      Normal (orElse w (VStr EmptyString)).

(** The start of an event, in seconds. *)
Definition eventStart (ev : value) : completion float :=
  tStartMs <- getProp ev "tStartMs" ;;
  if negb (isUndefined tStartMs) then
    x <- asNumber tStartMs ;; Normal (x / 1000)%float
  else
    tOffsetMs <- getProp ev "tOffsetMs" ;;
    if truthy tOffsetMs then x <- asNumber tOffsetMs ;; Normal (x / 1000)%float
    else Normal zero.

(** [ev.segs || ev.a || []]. *)
Definition eventSegments (ev : value) : completion value :=
  segs <- getProp ev "segs" ;;
  if truthy segs then Normal segs
  else
    a <- getProp ev "a" ;;
    Normal (orElse a (VArr [])).

(** The callback of [obj.events.map]. *)
Definition eventCue (ev : value) : completion string :=
  start <- eventStart ev ;;
  segs <- eventSegments ev ;;
  pieces <- arrayMap segs segmentText ;;
  texts <- mapC pieceText pieces ;;
  let txt := trim (collapseWhiteSpace (join EmptyString texts)) in
  Normal (cueLine start (decodeHtmlEntities txt)).

Definition parseJSON3Body (text : string) : completion (list string) :=
  obj <- ofHost (JSON_parse h text) ;;
  events <- getProp obj "events" ;;
  if negb (truthy events) || negb (isArray events) then Normal []
  else arrayMap events eventCue.

Definition parseJSON3 (text : string) : completion (list string) :=
  tryCatch (parseJSON3Body text) (fun _ => Normal []).

(** *** [parseXMLTextNodes] *)

(** The callback of [nodes.map]. *)
Definition nodeCue (n : xmlNode) : string :=
  let start :=
    parseFloat (orString (getAttribute n "start") (orString (getAttribute n "t") "0")) in
  let raw := orString (Some (textContent n)) EmptyString in
  cueLine start (trim (collapseWhiteSpace (decodeHtmlEntities raw))).

Definition parseXMLTextNodesBody (text : string) : completion (list string) :=
  let xml := parseXml text in
  let nodes := querySelectorAll "text" xml in
  let nodes := match nodes with
               | [] => querySelectorAll "p" xml
               | _ => nodes
               end in
  Normal (map nodeCue nodes).

Definition parseXMLTextNodes (text : string) : completion (list string) :=
  tryCatch (parseXMLTextNodesBody text) (fun _ => Normal []).

(** *** The network monad *)

(** The state threaded through the asynchronous functions: the network,
    and the URLs requested so far, oldest first. *)
Record world : Type := World {
  net : netState h;
  requests : list string
}.

Definition M (A : Type) : Type := world -> completion A * world.

Definition ret {A} (a : A) : M A := fun w => (Normal a, w).

Definition throw {A} (e : exn) : M A := fun w => (Throw e, w).

Definition bind {A B} (m : M A) (k : A -> M B) : M B :=
  fun w =>
    match m w with
    | (Normal a, w') => k a w'
    | (Throw e, w') => (Throw e, w')
    | (Unfinished, w') => (Unfinished, w')
    end.

Definition liftC {A} (c : completion A) : M A := fun w => (c, w).

Notation "x <~ m ;; k" := (bind m (fun x => k))
  (at level 61, m at next level, right associativity).

(** [try { body } catch (e) { handler }] around asynchronous code. *)
Definition tryM {A} (body : M A) (handler : exn -> M A) : M A :=
  fun w =>
    match body w with
    | (Throw e, w') => handler e w'
    | other => other
    end.

(** [await fetch(url, { credentials: 'same-origin' })]. *)
Definition fetchM (candidate : string) : M (bool * hostResult string) :=
  fun w =>
    let (o, n) := fetch h (net w) candidate in
    let w' := World n (requests w ++ [candidate]) in
    match o with
    | NetworkError e => (Throw e, w')
    | Response ok body => (Normal (ok, body), w')
    end.

(** *** [fetchCaptionText] *)

Definition sniffVTT (trimmed : string) : bool :=
  startsWith trimmed "WEBVTT" || includes trimmed "-->".

Definition sniffXML (trimmed : string) : bool :=
  startsWith trimmed "<" || includes trimmed "<transcript" || includes trimmed "<text".

Definition sniffJSON (trimmed : string) : bool :=
  startsWith trimmed "{" || startsWith trimmed "[" || includes trimmed (quoted "events").

(** The three detection steps in their order: the cues of the first
    detected format whose parser yields any, or none. *)
Fixpoint firstCues (steps : list (bool * (string -> completion (list string))))
  (text : string) : completion (list string) :=
  match steps with
  | [] => Normal []
  | (sniffed, parser) :: rest =>
      if sniffed then
        cues <- parser text ;;
        match cues with
        | [] => firstCues rest text
        | _ :: _ => Normal cues
        end
      else firstCues rest text
  end.

Definition sniffedCues (text : string) : completion (list string) :=
  let trimmed := trim text in
  firstCues [ (sniffVTT trimmed, parseVTT);
              (sniffXML trimmed, parseXMLTextNodes);
              (sniffJSON trimmed, parseJSON3) ] text.

Definition rawCap : Z := 200000.

(** The last resort: the decoded body with white space collapsed. *)
Definition rawText (text : string) : string :=
  trim (collapseWhiteSpace (decodeHtmlEntities text)).

(** What one turn of the candidate loop does with a non-blank body:
    [Some] of the returned text, or [None] to go on. *)
Definition candidateBody (text : string) : completion (option string) :=
  cues <- sniffedCues text ;;
  match cues with
  | _ :: _ => Normal (Some (join (String LF EmptyString) cues))
  | [] =>
      xmlFallback <- parseXMLTextNodes text ;;
      match xmlFallback with
      | _ :: _ => Normal (Some (join (String LF EmptyString) xmlFallback))
      | [] =>
          let raw := rawText text in
          if (0 <? Z.of_nat (length raw))%Z && (Z.of_nat (length raw) <? rawCap)%Z
          then Normal (Some raw)
          else Normal None
      end
  end.

(** One turn of the loop over the candidates, [try] and [catch]
    included. *)
Definition tryCandidate (candidate : string) : M (option string) :=
  tryM
    (res <~ fetchM candidate ;;
     let (ok, body) := res in
     if negb ok then ret None
     else
       text <~ liftC (ofHost body) ;;
       if isEmpty text || Nat.eqb (length (trim text)) 0 then ret None
       else liftC (candidateBody text))
    (fun _ => ret None).

(** [track.url.includes('?')]: strings and arrays have [includes]. *)
Definition urlIncludes (u : value) (needle : string) : completion bool :=
  match u with
  | VStr s => Normal (includes s needle)
  | VArr l => Normal (existsb (fun e => strictEqualsString e needle) l)
  | VUndefined | VNull =>
      Throw (TypeError "Cannot read properties of null (reading 'includes')")
  | _ => Throw (TypeError "track.url.includes is not a function")
  end.

(** The array [candidates]. *)
Definition candidates (t : captionTrack) : completion (list string) :=
  let withFmt (fmt : string) : completion string :=
    q <- urlIncludes (url t) "?" ;;
    u <- asString (url t) ;;
    Normal (u ++ (if q then "&" else "?") ++ fmt) in
  c1 <- withFmt "fmt=vtt" ;;
  c2 <- withFmt "fmt=json3" ;;
  c3 <- withFmt "fmt=srv3" ;;
  Normal [c1; c2; c3; ToString (url t)].

Fixpoint candidatesLoop (t : captionTrack) (cs : list string) : M string :=
  match cs with
  | [] => throw (TrackFetchFailed (lang t))
  | candidate :: rest =>
      r <~ tryCandidate candidate ;;
      match r with
      | Some txt => ret txt
      | None => candidatesLoop t rest
      end
  end.

Definition fetchCaptionText (t : captionTrack) : M string :=
  if negb (truthy (url t)) then throw (NoTrackUrl (lang t))
  else cs <~ liftC (candidates t) ;; candidatesLoop t cs.

(** *** [getPlayerResponse] *)

Definition relayTimeoutMs : N := 1000.

(** [onMessage] accepts an event of the window whose data carries the
    private marker. *)
Definition accepted (e : messageEvent) : bool :=
  fromWindow e && truthy (data e)
  && match getProp (data e) "__YT_TR__" with
     | Normal v => strictEqualsTrue v
     | _ => false
     end.

(** [d.payload || null]. *)
Definition relayedPayload (e : messageEvent) : value :=
  match getProp (data e) "payload" with
  | Normal v => orElse v VNull
  | _ => VNull
  end.

(** What the promise of the relay resolves to: the payload of the first
    accepted event that arrives before the timer, else [null]. *)
Fixpoint relay (events : list (N * messageEvent)) : value :=
  match events with
  | [] => VNull
  | (delay, e) :: rest =>
      if (relayTimeoutMs <=? delay)%N then VNull
      else if accepted e then relayedPayload e
      else relay rest
  end.

(** The loop over the [script] elements. *)
Fixpoint scanScripts (texts : list string) : option value :=
  match texts with
  | [] => None
  | s :: rest =>
      if isEmpty s then scanScripts rest
      else if includes s "ytInitialPlayerResponse" then
        match extractJSONFromScriptText s "ytInitialPlayerResponse" with
        | Some jsonStr =>
            if isEmpty jsonStr then scanScripts rest
            else match JSON_parse h jsonStr with
                 | Returns parsed => Some parsed
                 | Throws _ => scanScripts rest
                 end
        | None => scanScripts rest
        end
      else scanScripts rest
  end.

Definition getPlayerResponse (pg : page) : completion value :=
  tryCatch
    (if truthy (ytInitialPlayerResponse pg) then Normal (ytInitialPlayerResponse pg)
     else
       let injected := relay (messageEvents pg) in
       if truthy injected then Normal injected
       else match scanScripts (scripts pg) with
            | Some parsed => Normal parsed
            | None => Throw (Error "ytInitialPlayerResponse not found")
            end)
    (fun err => Throw (Error ("getPlayerResponse error: " ++ errorText err))).

(** *** [fetchCaptionList] *)

(** [captionTracks.length === 0]. *)
Definition lengthIsZero (v : value) : completion bool :=
  len <- getProp v "length" ;;
  Normal match len with
         | VNum x => is_zero x
         | _ => false
         end.

(** The callback of [captionTracks.map]. *)
Definition toTrack (t : value) : completion captionTrack :=
  languageCode <- getProp t "languageCode" ;;
  nm <- getProp t "name" ;;
  simpleText <- optProp nm "simpleText" ;;
  baseUrl <- getProp t "baseUrl" ;;
  u <- (if truthy baseUrl then Normal baseUrl
        else u <- getProp t "url" ;; Normal (orElse u VNull)) ;;
  k <- getProp t "kind" ;;
  tr <- getProp t "isTranslatable" ;;
  Normal (CaptionTrack languageCode (orElse simpleText (VStr EmptyString)) u
            (orElse k (VStr EmptyString)) (truthy tr)).

Definition tracksMap (v : value) : completion (list captionTrack) :=
  match v with
  | VArr l => mapC toTrack l
  | _ => Throw (TypeError "captionTracks.map is not a function")
  end.

(** The label of a track that the function logs: the template literal is
    evaluated, so its conversions take place. *)
Definition logLabel (t : captionTrack) : completion string :=
  l <- asString (lang t) ;;
  n <- (if truthy (name t) then asString (name t) else Normal EmptyString) ;;
  Normal (l ++ (if truthy (name t) then " (" ++ n ++ ")" else EmptyString)).

(** From [captionTracks.map] to [return tracks]. *)
Definition builtTracks (captionTracks : value) : completion (list captionTrack) :=
  tracks <- tracksMap captionTracks ;;
  _ <- mapC logLabel tracks ;;
  Normal tracks.

Definition fetchCaptionList (pg : page) : completion (list captionTrack) :=
  playerResponse <- getPlayerResponse pg ;;
  captions <- optProp playerResponse "captions" ;;
  renderer <- optProp captions "playerCaptionsTracklistRenderer" ;;
  listed <- optProp renderer "captionTracks" ;;
  let captionTracks := orElse listed (VArr []) in
  empty <- (if negb (truthy captionTracks) then Normal true
            else lengthIsZero captionTracks) ;;
  if empty then Throw NoCaptionTracks
  else builtTracks captionTracks.

(** *** [getBestTranscript] *)

(** [txt && txt.trim().length]. *)
Definition usable (txt : string) : bool :=
  negb (isEmpty txt) && negb (Nat.eqb (length (trim txt)) 0).

(** The loop over the tracks, with the array [fetched] so far. *)
Fixpoint fetchTracks (ts : list captionTrack) (fetched : list parsedTranscript)
  : M (list parsedTranscript) :=
  match ts with
  | [] => ret fetched
  | t :: rest =>
      fetched <~ tryM (txt <~ fetchCaptionText t ;;
                       if usable txt then ret (fetched ++ [ParsedTranscript t txt])%list
                       else ret fetched)
                      (fun _ => ret fetched) ;;
      fetchTracks rest fetched
  end.

(** One element of [combined], when its conversions return: the header
    line and the text. *)
Definition section_ (f : parsedTranscript) : string :=
  "--- Track: " ++ ToString (lang (track f)) ++ " "
    ++ (if truthy (name (track f)) then "(" ++ ToString (name (track f)) ++ ")"
        else EmptyString)
    ++ " ---" ++ String LF EmptyString ++ text f.

(** The callback of [fetched.map]: the template literal converts the
    language, and the name when it is truthy. *)
Definition sectionOf (f : parsedTranscript) : completion string :=
  _ <- asString (lang (track f)) ;;
  _ <- (if truthy (name (track f)) then asString (name (track f))
        else Normal EmptyString) ;;
  Normal (section_ f).

Definition blankLine : string := String LF (String LF EmptyString).

Definition getBestTranscript (pg : page) : M aggregateResult :=
  match searchParamV pg with
  | None => throw NoVideoId
  | Some vid =>
      if isEmpty vid then throw NoVideoId
      else
        ts <~ liftC (fetchCaptionList pg) ;;
        match ts with
        | [] => throw NoCaptionsFound
        | _ :: _ =>
            fetched <~ fetchTracks ts [] ;;
            match fetched with
            | [] => throw NoCaptionsFetched
            | _ :: _ =>
                sections <~ liftC (mapC sectionOf fetched) ;;
                ret (AggregateResult vid ts (join blankLine sections))
            end
        end
  end.

(** *** The message listener *)

(** What a call of the listener amounts to: the value it returns to the
    runtime, whether it started an aggregation, the argument of
    [sendResponse] if it is called, and the world afterwards. *)
Record listenerRun : Type := ListenerRun {
  returned : value;
  started : bool;
  sent : option response;
  after : world
}.

Definition messageListener (pg : page) (msg : value) (w : world) : listenerRun :=
  let isRequest :=
    truthy msg
    && match getProp msg "action" with
       | Normal a => strictEqualsString a "getTranscript"
       | _ => false
       end in
  if isRequest then
    match getBestTranscript pg w with
    | (Normal result, w') =>
        ListenerRun (VBool true) true (Some (ResponseSuccess result)) w'
    | (Throw err, w') =>
        ListenerRun (VBool true) true (Some (ResponseFailure (errorText err))) w'
    | (Unfinished, w') => ListenerRun (VBool true) true None w'
    end
  else ListenerRun VUndefined false None w.

(** *** Observations used to state the properties *)

(** The candidates [cs] were tried in turn from [w] and none returned:
    the world reached, if so. *)
Fixpoint allPass (cs : list string) (w : world) : option world :=
  match cs with
  | [] => Some w
  | c :: rest =>
      match tryCandidate c w with
      | (Normal None, w') => allPass rest w'
      | _ => None
      end
  end.

(** What [fetchCaptionText] gives on each track when the tracks are
    taken one after the other from [w], and the world at the end. *)
Fixpoint trackOutcomes (ts : list captionTrack) (w : world)
  : list (captionTrack * completion string) * world :=
  match ts with
  | [] => ([], w)
  | t :: rest =>
      let (r, w1) := fetchCaptionText t w in
      let (rs, w2) := trackOutcomes rest w1 in
      ((t, r) :: rs, w2)
  end.

(** The tracks whose fetch returned, with the text returned, in order. *)
Fixpoint successes (os : list (captionTrack * completion string))
  : list parsedTranscript :=
  match os with
  | [] => []
  | (t, Normal txt) :: rest => ParsedTranscript t txt :: successes rest
  | _ :: rest => successes rest
  end.

Definition failed (o : captionTrack * completion string) : bool :=
  match snd o with Throw _ => true | _ => false end.

(** The header line of a section. *)
Definition header (t : captionTrack) : string :=
  "--- Track: " ++ ToString (lang t) ++ " "
    ++ (if truthy (name t) then "(" ++ ToString (name t) ++ ")" else EmptyString)
    ++ " ---".

(** The value [captionTracks] of [fetchCaptionList]. *)
Definition listedTracks (playerResponse : value) : completion value :=
  (captions <- optProp playerResponse "captions" ;;
   renderer <- optProp captions "playerCaptionsTracklistRenderer" ;;
   listed <- optProp renderer "captionTracks" ;;
   Normal (orElse listed (VArr [])))%completion.

End Script.

Arguments World {h} net requests.
Arguments net {h} w.
Arguments requests {h} w.
Arguments ListenerRun {h} returned started sent after.
Arguments returned {h} l.
Arguments started {h} l.
Arguments sent {h} l.
Arguments after {h} l.




(** A string of decimal digits, and the characters of a class. *)
Fixpoint allChars (p : ascii -> bool) (s : string) : bool :=
  match s with
  | EmptyString => true
  | String c s' => p c && allChars p s'
  end.





(** A cue line begins with an opening bracket. *)
Definition bracketed (c : string) : Prop := exists r, c = String "["%char r.


Definition isTypeError (e : exn) : Prop := exists m, e = TypeError m.

(** *** Further observations *)

Fixpoint countChar (c : ascii) (s : string) : nat :=
  match s with
  | EmptyString => 0
  | String d s' => (if Ascii.eqb d c then 1 else 0) + countChar c s'
  end.

(** A line that does not start a cue. *)
Definition noArrow (l : string) : bool := negb (includes (trim l) "-->").

(** One cue of a WebVTT text, as lines: the line with the times, the
    lines of its text, and the lines up to the next cue. *)
Record vttBlock : Type := VttBlock {
  timeLine : string;
  textLines : list string;
  gap : list string
}.

Definition blockLines (b : vttBlock) : list string :=
  (timeLine b :: textLines b ++ gap b)%list.

(** The time line has the arrow, no line of the text is blank, and the
    gap, if any, begins with a blank line and has no arrow. *)
Definition wellFormedBlock (b : vttBlock) : bool :=
  includes (trim (timeLine b)) "-->"
  && forallb (fun l => negb (isBlank l)) (textLines b)
  && match gap b with
     | [] => true
     | g :: gs => isBlank g && forallb noArrow gs
     end.

(** Every block but the last has a gap. *)
Fixpoint separated (bs : list vttBlock) : bool :=
  match bs with
  | b :: (_ :: _) as rest => negb (match gap b with [] => true | _ => false end)
                             && separated rest
  | _ => true
  end.

(** The text a cue gets from its lines, as the inner loop builds it. *)
Definition gatherText (ls : list string) : string :=
  fold_left (fun acc l => acc ++ (if isEmpty acc then EmptyString else String LF EmptyString) ++ l)
            ls EmptyString.


(** The lines that have the arrow of a cue. *)
Definition arrowLines (lines : list string) : list string :=
  filter (fun l => includes (trim l) "-->") lines.

(** An event on which the callback of [parseJSON3] throws: it is [null]
    or [undefined], or its segments are not an array, or one of its
    segments is [null] or [undefined]. *)
Definition malformedEvent (ev : value) : bool :=
  match ev with
  | VUndefined | VNull => true
  | VObj props =>
      match orElse (lookup "segs" props) (orElse (lookup "a" props) (VArr [])) with
      | VArr segs =>
          existsb (fun s => match s with VUndefined | VNull => true | _ => false end) segs
      | _ => true
      end
  | _ => false
  end.

(** [v] is truthy or is the fallback [d]. *)
Definition truthyOr (d v : value) : Prop := truthy v = true \/ v = d.

(** A track as the list builder leaves it: the [url] is truthy or
    [null], [name] and [kind] are truthy or the empty string. *)
Definition normalisedTrack (t : captionTrack) : Prop :=
  truthyOr VNull (url t)
  /\ truthyOr (VStr EmptyString) (name t)
  /\ truthyOr (VStr EmptyString) (kind t).


(** A track whose label can be printed: its language converts to a
    string, and so does its name when it is truthy. *)
Definition labelled (t : captionTrack) : Prop :=
  convertible (lang t) = true
  /\ (truthy (name t) = true -> convertible (name t) = true).

(** *** The resolver, said without its loops

    A message that the listener of the relay takes: it comes from the
    window itself and its data has [__YT_TR__] equal to [true]. *)
Definition marked (e : messageEvent) : Prop :=
  fromWindow e = true /\ getProp (data e) "__YT_TR__" = Normal (VBool true).

(** A message that arrives before the timer fires and is not taken. *)
Definition passedOver (de : N * messageEvent) : Prop :=
  (fst de < 1000)%N /\ ~ marked (snd de).

(** The relay hands over [v]: the first marked message arrives before
    the timer fires, after messages that are passed over, and its
    [payload] is [v], which is truthy. *)
Definition relayed (events : list (N * messageEvent)) (v : value) : Prop :=
  truthy v = true
  /\ exists pre d e post,
       events = (pre ++ (d, e) :: post)%list
       /\ Forall passedOver pre /\ (d < 1000)%N /\ marked e
       /\ getProp (data e) "payload" = Normal v.

(** A script text that gives nothing: no literal is extracted from it,
    or the literal does not parse. *)
Definition unparsable (h : host) (s : string) : Prop :=
  forall j, extractJSONFromScriptText s "ytInitialPlayerResponse" = Some j ->
            exists e, JSON_parse h j = Throws e.

(** The scan finds [v]: it is the parse of the literal of the first
    script text that gives something. *)
Definition scanned (h : host) (texts : list string) (v : value) : Prop :=
  exists pre s post j,
    texts = (pre ++ s :: post)%list
    /\ Forall (unparsable h) pre
    /\ extractJSONFromScriptText s "ytInitialPlayerResponse" = Some j
    /\ JSON_parse h j = Returns v.

(** *** Checking a property on a range of integers *)

(** [p] holds of every integer from [0] to [n - 1]. *)
Definition allBelow (n : N) (p : Z -> bool) : bool :=
  N.peano_rect (fun _ => bool) true (fun k acc => acc && p (Z.of_N k)) n.

(** The one-part form reads back what it printed. *)
Definition bareExact (v : Z) : bool :=
  Leibniz.eqb (orZero (parseFloat (Number_toString (ofDecimal v 0)))) (ofZ v).




(** The cue the parser makes of a block: the start of its time line and
    its text lines on one line. *)
Definition blockCue (h : host) (b : vttBlock) : string :=
  cueLine (vttTimeToSeconds (hd EmptyString (split (trim (timeLine b)) "-->")))
          (trim (collapseNewlines
                   (decodeHtmlEntities h (join (String LF EmptyString) (textLines b))))).

(** ** Sample inputs and a sample host *)

Definition nl : string := String LF EmptyString.

(** [{"events":[{"tStartMs":1500,"segs":[{"utf8":"hi"}]}]}] *)
Definition helloJson3 : string :=
  "{" ++ quoted "events" ++ ":[{" ++ quoted "tStartMs" ++ ":1500," ++ quoted "segs"
    ++ ":[{" ++ quoted "utf8" ++ ":" ++ quoted "hi" ++ "}]}]}".

Definition helloJson3Value : value :=
  VObj [("events",
         VArr [VObj [("tStartMs", VNum 1500);
                     ("segs", VArr [VObj [("utf8", VStr "hi")]])]])].

(** [{"events":[{"tStartMs":0},{"tStartMs":2500,"segs":[{}]}]}] *)
Definition silentJson3 : string :=
  "{" ++ quoted "events" ++ ":[{" ++ quoted "tStartMs" ++ ":0},{" ++ quoted "tStartMs"
    ++ ":2500," ++ quoted "segs" ++ ":[{}]}]}".

Definition silentEvents : list value :=
  [VObj [("tStartMs", VNum 0)];
   VObj [("tStartMs", VNum 2500); ("segs", VArr [VObj []])]].

Definition silentJson3Value : value := VObj [("events", VArr silentEvents)].

Definition helloVtt : string :=
  "WEBVTT" ++ nl ++ nl
    ++ "00:00:01.500 --> 00:00:03.000" ++ nl ++ "Hello" ++ nl ++ "world" ++ nl ++ nl
    ++ "01:02:03.500 --> 01:02:05.000" ++ nl ++ "Bye".

Definition enUrl : string := "https://video.example/api/timedtext?v=abc&lang=en".
Definition frUrl : string := "https://video.example/api/timedtext?v=abc&lang=fr".
Definition xxUrl : string := "https://video.example/api/timedtext".

(** A network without state: the [en] track is missing as VTT and served
    as JSON3, the [xx] track serves events without text, and everything
    else fails to connect. *)
Definition sampleFetch (n : unit) (u : string) : fetchOutcome * unit :=
  if String.eqb u (enUrl ++ "&fmt=vtt") then (Response false (Returns "Not Found"), n)
  else if String.eqb u (enUrl ++ "&fmt=json3") then (Response true (Returns helloJson3), n)
  else if String.eqb u (xxUrl ++ "?fmt=vtt") then (Response true (Returns silentJson3), n)
  else (NetworkError (TypeError "Failed to fetch"), n).

Definition sampleJSONParse (s : string) : hostResult value :=
  if String.eqb s helloJson3 then Returns helloJson3Value
  else if String.eqb s silentJson3 then Returns silentJson3Value
  else if String.eqb s "{}" then Returns (VObj [])
  else Throws (SyntaxError "Unexpected token").

(** The text of a fragment without markup or entities is the fragment;
    the XML parser of this host finds no element to report. *)
Definition sampleHost : host :=
  Host unit sampleFetch (fun s => s)
       (fun _ => XElement "parsererror" [] []) sampleJSONParse.

Definition w0 : world sampleHost := @World sampleHost tt [].

Definition trackEntry (code : string) (label : option string) (base : option string)
  : value :=
  VObj ([("languageCode", VStr code)]
        ++ match label with
           | Some l => [("name", VObj [("simpleText", VStr l)])]
           | None => []
           end
        ++ match base with
           | Some b => [("baseUrl", VStr b)]
           | None => []
           end).

Definition playerResponseWith (entries : list value) : value :=
  VObj [("captions",
         VObj [("playerCaptionsTracklistRenderer",
                VObj [("captionTracks", VArr entries)])])].

(** A page with three tracks: [en] can be fetched, [fr] fails on every
    candidate, [de] has no URL. *)
Definition threeTrackPage : page :=
  Page (Some "abc")
       (playerResponseWith
          [trackEntry "en" (Some "English") (Some enUrl);
           trackEntry "fr" None (Some frUrl);
           trackEntry "de" (Some "Deutsch") None])
       [] [].

(** A page whose tracks all fail. *)
Definition failingPage : page :=
  Page (Some "abc")
       (playerResponseWith
          [trackEntry "fr" None (Some frUrl); trackEntry "de" None None])
       [] [].

(** A page whose player response lists no track. *)
Definition noTrackPage : page :=
  Page (Some "abc") (playerResponseWith []) [] [].

(** A page that only carries the metadata in its scripts: the first
    script holds a literal that does not parse, the second a good one. *)
Definition scriptOnlyPage : page :=
  Page (Some "abc") VUndefined
       [(1200%N, MessageEvent true (VObj [("__YT_TR__", VBool true);
                                          ("payload", VObj [("late", VBool true)])]))]
       ["var ytInitialPlayerResponse = {broken};";
        EmptyString;
        "var ytInitialPlayerResponse = {};"].

Definition enTrack : captionTrack :=
  CaptionTrack (VStr "en") (VStr "English") (VStr enUrl) (VStr EmptyString) false.
Definition frTrack : captionTrack :=
  CaptionTrack (VStr "fr") (VStr EmptyString) (VStr frUrl) (VStr EmptyString) false.
Definition deTrack : captionTrack :=
  CaptionTrack (VStr "de") (VStr "Deutsch") VNull (VStr EmptyString) false.

(** A script text whose object has a closing brace inside a string:
    [var ytInitialPlayerResponse = {"x":{"a":"}"}};] *)
Definition braceInStringScript : string :=
  "var ytInitialPlayerResponse = {" ++ quoted "x" ++ ":{" ++ quoted "a" ++ ":"
    ++ quoted "}" ++ "}};".

(** A nested object without braces in strings:
    [ytInitialPlayerResponse = {"a":{"b":{}},"c":"d"}; var x = {};] *)
Definition nestedScript : string :=
  "ytInitialPlayerResponse = {" ++ quoted "a" ++ ":{" ++ quoted "b" ++ ":{}},"
    ++ quoted "c" ++ ":" ++ quoted "d" ++ "}; var x = {};".

(** A body that is not WebVTT but has an arrow in it, and a host that
    serves it for every URL. *)
Definition arrowBody : string := "{ events: [ a --> b ] }".

Definition arrowHost : host :=
  Host unit (fun n _ => (Response true (Returns arrowBody), n)) (fun s => s)
       (fun _ => XElement "parsererror" [] []) sampleJSONParse.




(** * Properties *)

(** ** Facts about strings *)

Ltac by_bits c :=
  destruct c as [[] [] [] [] [] [] [] []]; try discriminate; try reflexivity.

Lemma allChars_app p a b : allChars p (a ++ b) = allChars p a && allChars p b.
Proof.
  induction a as [|c a IH]; [reflexivity|].
  cbn [append allChars]. now rewrite IH, andb_assoc.
Qed.

Lemma allChars_impl (p q : ascii -> bool) s :
  (forall c, p c = true -> q c = true) ->
  allChars p s = true -> allChars q s = true.
Proof.
  intros Hpq. induction s as [|c s IH]; [reflexivity|].
  cbn [allChars]. intros H. apply andb_true_iff in H as [Hc Hs].
  now rewrite (Hpq c Hc), IH.
Qed.

Lemma append_empty_r s : s ++ EmptyString = s.
Proof. induction s as [|c s IH]; [reflexivity|]. cbn. now rewrite IH. Qed.

Lemma append_assoc (a b c : string) : (a ++ b) ++ c = a ++ b ++ c.
Proof. induction a as [|x a IH]; [reflexivity|]. cbn. now rewrite IH. Qed.

Lemma length_append (a b : string) : length (a ++ b) = length a + length b.
Proof. induction a as [|x a IH]; [reflexivity|]. cbn. now rewrite IH. Qed.

Lemma prefix_head_ne a s1 b s2 : a <> b -> prefix (String a s1) (String b s2) = false.
Proof. intros H. cbn. destruct (ascii_dec a b); [contradiction|reflexivity]. Qed.

Lemma prefix_head_eq a s1 s2 : prefix (String a s1) (String a s2) = prefix s1 s2.
Proof. cbn. destruct (ascii_dec a a); [reflexivity|contradiction]. Qed.

Lemma prefix_empty s : prefix EmptyString s = true.
Proof. now destruct s. Qed.

(** A character that does not occur is not found. *)
Lemma indexOfAux_absent c s :
  forall i, allChars (fun d => negb (Ascii.eqb d c)) s = true ->
            indexOfAux (String c EmptyString) s i = None.
Proof.
  induction s as [|d s IH]; intros i H; [reflexivity|].
  cbn [allChars] in H. apply andb_true_iff in H as [Hd Hs].
  apply negb_true_iff, Ascii.eqb_neq in Hd.
  cbn [indexOfAux]. rewrite prefix_head_ne by congruence. now apply IH.
Qed.

Lemma replaceFirst_absent c rep s :
  allChars (fun d => negb (Ascii.eqb d c)) s = true ->
  replaceFirst s (String c EmptyString) rep = s.
Proof.
  intros H. unfold replaceFirst, indexOf. cbn [Nat.min drop].
  now rewrite indexOfAux_absent.
Qed.



Lemma trimEnd_idempotent s : trimEnd (trimEnd s) = trimEnd s.
Proof.
  induction s as [|c s IH]; [reflexivity|].
  cbn [trimEnd]. destruct (isWhiteSpace c && isEmpty (trimEnd s)) eqn:E; [reflexivity|].
  cbn [trimEnd]. now rewrite IH, E.
Qed.

Lemma trimStart_head_solid c s :
  isWhiteSpace c = false -> trimStart (String c s) = String c s.
Proof. intros H. cbn. now rewrite H. Qed.

Lemma trimEnd_head_solid c s :
  isWhiteSpace c = false -> trimEnd (String c s) = String c (trimEnd s).
Proof. intros H. cbn. now rewrite H. Qed.

(** What [trimStart] returns is empty or begins with a solid character. *)
Lemma trimStart_shape s :
  trimStart s = EmptyString
  \/ exists c r, trimStart s = String c r /\ isWhiteSpace c = false.
Proof.
  induction s as [|c s IH]; [now left|].
  cbn. destruct (isWhiteSpace c) eqn:E; [exact IH|].
  right. now exists c, s.
Qed.

Lemma trim_idempotent s : trim (trim s) = trim s.
Proof.
  unfold trim. destruct (trimStart_shape s) as [->|(c & r & -> & Hc)]; [reflexivity|].
  rewrite (trimEnd_head_solid c r Hc), (trimStart_head_solid _ _ Hc).
  rewrite <- (trimEnd_head_solid c r Hc). apply trimEnd_idempotent.
Qed.

(** A string that begins with a solid character is not blank. *)
Lemma trim_head_solid c s :
  isWhiteSpace c = false -> trim (String c s) = String c (trimEnd s).
Proof.
  intros H. unfold trim. now rewrite trimStart_head_solid, trimEnd_head_solid.
Qed.

(** Splitting at a character. *)
Lemma splitAux_absent c s :
  allChars (fun d => negb (Ascii.eqb d c)) s = true ->
  splitAux (String c EmptyString) s 0 = (s, []).
Proof.
  induction s as [|d s IH]; [reflexivity|].
  cbn [allChars]. intros H. apply andb_true_iff in H as [Hd Hs].
  apply negb_true_iff, Ascii.eqb_neq in Hd.
  cbn [splitAux]. rewrite prefix_head_ne by congruence. now rewrite IH.
Qed.

Lemma split_absent c s :
  allChars (fun d => negb (Ascii.eqb d c)) s = true ->
  split s (String c EmptyString) = [s].
Proof. intros H. unfold split. now rewrite splitAux_absent. Qed.

Lemma splitAux_first c a b :
  allChars (fun d => negb (Ascii.eqb d c)) a = true ->
  splitAux (String c EmptyString) (a ++ String c b) 0
  = (a, split b (String c EmptyString)).
Proof.
  induction a as [|d a IH].
  - intros _. cbn [append splitAux]. rewrite prefix_head_eq, prefix_empty.
    cbn [length Nat.sub]. unfold split. now destruct (splitAux (String c EmptyString) b 0).
  - cbn [allChars]. intros H. apply andb_true_iff in H as [Hd Ha].
    apply negb_true_iff, Ascii.eqb_neq in Hd.
    cbn [append splitAux]. rewrite prefix_head_ne by congruence. now rewrite IH.
Qed.

Lemma split_first c a b :
  allChars (fun d => negb (Ascii.eqb d c)) a = true ->
  split (a ++ String c b) (String c EmptyString)
  = a :: split b (String c EmptyString).
Proof. intros H. unfold split at 1. now rewrite splitAux_first. Qed.

(** The extractor's loop closes at or after the index it starts from. *)
Lemma scanBraces_from s :
  forall i depth j, scanBraces s i depth = Some j -> i <= j.
Proof.
  induction s as [|ch s IH]; intros i depth j H; [discriminate|].
  cbn [scanBraces] in H.
  destruct (Ascii.eqb ch openBrace); [apply IH in H; lia|].
  destruct (Ascii.eqb ch closeBrace).
  - destruct ((depth - 1 =? 0)%Z); [injection H as <-; lia|apply IH in H; lia].
  - apply IH in H. lia.
Qed.

(** ** The brace-balancing extractor *)

Example braceInStringScript_extracted :
  extractJSONFromScriptText braceInStringScript "ytInitialPlayerResponse"
  = Some ("{" ++ quoted "x" ++ ":{" ++ quoted "a" ++ ":" ++ quoted "}" ++ "}").
Proof. reflexivity. Qed.

Example braceInStringScript_literal :
  objectLiteralAfter braceInStringScript "ytInitialPlayerResponse"
  = Some ("{" ++ quoted "x" ++ ":{" ++ quoted "a" ++ ":" ++ quoted "}" ++ "}}").
Proof. reflexivity. Qed.

Lemma scanBraces_closeAware (s : string) :
  forall i depth inStr esc,
    stringsBraceFree s depth inStr esc = true ->
    scanBraces s i depth = closeAware s i depth inStr esc.
Proof.
  induction s as [|ch s IH]; intros i depth inStr esc H; [reflexivity|].
  cbn [scanBraces closeAware stringsBraceFree] in *.
  destruct inStr.
  - destruct (Ascii.eqb ch openBrace); [discriminate|].
    destruct (Ascii.eqb ch closeBrace); [discriminate|].
    cbn [orb] in H.
    destruct esc; [now apply IH|].
    destruct (Ascii.eqb ch backslash); [now apply IH|].
    destruct (Ascii.eqb ch dquote); now apply IH.
  - destruct (Ascii.eqb ch dquote) eqn:Eq.
    + apply Ascii.eqb_eq in Eq; subst ch. cbn. now apply IH.
    + destruct (Ascii.eqb ch openBrace); [now apply IH|].
      destruct (Ascii.eqb ch closeBrace).
      * destruct ((depth - 1 =? 0)%Z); [reflexivity | now apply IH].
      * now apply IH.
Qed.

(** C2 (as stated, refuted): on a literal with a closing brace inside a
    string the extractor stops one brace early, so what it returns is not
    the object literal that follows the variable name. *)
Lemma extractJSON_brace_in_string_cut :
  extractJSONFromScriptText braceInStringScript "ytInitialPlayerResponse"
  <> objectLiteralAfter braceInStringScript "ytInitialPlayerResponse".
Proof. vm_compute. discriminate. Qed.

(** C2 (amended): when no string literal of the object contains a brace
    character, the extractor returns exactly the object literal that
    follows the variable name, closed at the matching outer brace,
    whatever the nesting of braces inside it. *)
Theorem extractJSON_balanced (text varName : string) :
  literalStringsBraceFree text varName = true ->
  extractJSONFromScriptText text varName = objectLiteralAfter text varName.
Proof.
  unfold literalStringsBraceFree, extractJSONFromScriptText, objectLiteralAfter.
  destruct (indexOf varName text 0) as [idx|]; [|reflexivity].
  destruct (indexOf "{" text idx) as [braceStart|]; [|reflexivity].
  intros H. now rewrite (scanBraces_closeAware _ braceStart 0%Z false false H).
Qed.

Lemma extractJSON_balanced_witness :
  extractJSONFromScriptText nestedScript "ytInitialPlayerResponse"
  = objectLiteralAfter nestedScript "ytInitialPlayerResponse".
Proof. apply extractJSON_balanced. reflexivity. Defined.
(** ** Cue times *)

Ltac digit_cases c H :=
  destruct c as [[] [] [] [] [] [] [] []];
  try (vm_compute in H; discriminate H).
















Lemma allBelow_spec n p :
  allBelow n p = true -> forall v, (0 <= v < Z.of_N n)%Z -> p v = true.
Proof.
  unfold allBelow. induction n as [|n IH] using N.peano_ind; intros H v Hv; [lia|].
  rewrite N.peano_rect_succ in H. apply andb_true_iff in H as [Hn Hp].
  destruct (Z.eq_dec v (Z.of_N n)) as [->|Hne]; [exact Hp|].
  apply IH; [exact Hn|lia].
Qed.



(** Every whole number of seconds below 3600 reads back from its
    print, and the sums of whole minutes and seconds, and of whole
    hours, minutes and seconds, are exact. *)
Lemma bareExact_table : allBelow 3600 bareExact = true.
Proof. vm_compute. reflexivity. Qed.









(** ** The three parsers *)

Lemma cueLine_bracketed start txt : bracketed (cueLine start txt).
Proof. unfold cueLine. cbn [append]. eexists. reflexivity. Qed.

Lemma bindC_finished {A B} (c : completion A) (k : A -> completion B) :
  c <> Unfinished -> (forall a, k a <> Unfinished) -> bindC c k <> Unfinished.
Proof. intros Hc Hk. destruct c; cbn; [apply Hk|discriminate|congruence]. Qed.

Lemma mapC_finished {A B} (f : A -> completion B) (l : list A) :
  (forall a, f a <> Unfinished) -> mapC f l <> Unfinished.
Proof.
  intros Hf. induction l as [|a l IH]; [discriminate|].
  cbn [mapC]. specialize (Hf a). destruct (f a); cbn [bindC]; try congruence.
  destruct (mapC f l); cbn [bindC]; congruence.
Qed.

Lemma mapC_Forall {A B} (P : B -> Prop) (f : A -> completion B) (l : list A) :
  (forall a b, f a = Normal b -> P b) ->
  forall bs, mapC f l = Normal bs -> Forall P bs.
Proof.
  intros Hf. induction l as [|a l IH]; intros bs H.
  - injection H as <-. constructor.
  - cbn [mapC] in H. destruct (f a) as [b| |] eqn:Ea; cbn [bindC] in H; try discriminate.
    destruct (mapC f l) as [bs'| |]; cbn [bindC] in H; try discriminate.
    injection H as <-. constructor; [now apply (Hf a)|now apply IH].
Qed.

Lemma mapC_Forall2 {A B} (f : A -> completion B) (l : list A) :
  forall bs, mapC f l = Normal bs -> Forall2 (fun a b => f a = Normal b) l bs.
Proof.
  induction l as [|a l IH]; intros bs H.
  - injection H as <-. constructor.
  - cbn [mapC] in H. destruct (f a) as [b| |] eqn:Ea; cbn [bindC] in H; try discriminate.
    destruct (mapC f l) as [bs'| |]; cbn [bindC] in H; try discriminate.
    injection H as <-. constructor; [exact Ea|now apply IH].
Qed.

Lemma mapC_length {A B} (f : A -> completion B) (l : list A) :
  forall bs, mapC f l = Normal bs -> List.length bs = List.length l.
Proof.
  induction l as [|a l IH]; intros bs H.
  - now injection H as <-.
  - cbn [mapC] in H. destruct (f a) as [b| |]; cbn [bindC] in H; try discriminate.
    destruct (mapC f l) as [bs'| |]; cbn [bindC] in H; try discriminate.
    injection H as <-. cbn. now rewrite (IH bs').
Qed.

Lemma getProp_finished v key : getProp v key <> Unfinished.
Proof. destruct v; discriminate. Qed.

Lemma asString_finished v : asString v <> Unfinished.
Proof. unfold asString. destruct (convertible v); discriminate. Qed.

Lemma asNumber_finished v : asNumber v <> Unfinished.
Proof. unfold asNumber. destruct (convertible v); discriminate. Qed.

Lemma pieceText_finished v : pieceText v <> Unfinished.
Proof. destruct v; try discriminate; apply asString_finished. Qed.

Lemma split_head s sep : exists p ps, split s sep = p :: ps.
Proof. unfold split. destruct (splitAux sep s 0) as [p ps]. now exists p, ps. Qed.

Lemma lineAt_in_range lines i :
  i < List.length lines -> exists l, lineAt lines i = Normal l.
Proof.
  intros H. unfold lineAt. destruct (nth_error lines i) as [l|] eqn:E.
  - now exists l.
  - apply nth_error_None in E. lia.
Qed.

Section ParserFacts.

Variable h : host.

(** With more fuel than lines left, the inner loop returns, at an index
    that is not before the one it started from. *)
Lemma cueTextLoop_total fuel lines :
  forall i cueText,
    List.length lines - i < fuel ->
    exists i' cueText',
      cueTextLoop fuel lines i cueText = Normal (i', cueText') /\ i <= i'.
Proof.
  induction fuel as [|fuel IH]; intros i cueText Hfuel; [lia|].
  cbn [cueTextLoop]. destruct (Nat.ltb i (List.length lines)) eqn:Hlt.
  - apply Nat.ltb_lt in Hlt.
    destruct (lineAt_in_range lines i Hlt) as [l ->]. cbn [bindC].
    destruct (isEmpty (trim l)).
    + exists i, cueText. split; [reflexivity|lia].
    + destruct (IH (S i) (cueText ++ (if isEmpty cueText then EmptyString
                                       else String LF EmptyString) ++ l))
        as (i' & t' & -> & Hle); [lia|].
      exists i', t'. split; [reflexivity|lia].
  - exists i, cueText. split; [reflexivity|lia].
Qed.

(** With more fuel than lines left, the outer loop returns the cues it
    was given followed by cue lines. *)
Lemma parseVTTLoop_total fuel lines :
  forall i cues,
    List.length lines - i < fuel ->
    exists more,
      parseVTTLoop h fuel lines i cues = Normal (cues ++ more)%list
      /\ Forall bracketed more.
Proof.
  induction fuel as [|fuel IH]; intros i cues Hfuel; [lia|].
  cbn [parseVTTLoop]. destruct (Nat.ltb i (List.length lines)) eqn:Hlt.
  - apply Nat.ltb_lt in Hlt.
    destruct (lineAt_in_range lines i Hlt) as [l ->]. cbn [bindC].
    destruct (includes (trim l) "-->").
    + destruct (split_head (trim l) "-->") as (p & ps & ->). cbn [nth_error bindC].
      destruct (cueTextLoop_total fuel lines (S i) EmptyString)
        as (i' & t' & -> & Hle); [lia|].
      cbn [bindC].
      destruct (IH i' (cues ++ [cueLine (vttTimeToSeconds p)
                                  (trim (collapseNewlines (decodeHtmlEntities h t')))])%list)
        as (more & -> & Hmore); [lia|].
      eexists. rewrite <- app_assoc. split; [reflexivity|].
      constructor; [apply cueLine_bracketed|exact Hmore].
    + apply IH. lia.
  - exists []. rewrite app_nil_r. split; [reflexivity|constructor].
Qed.

Lemma parseVTT_total text :
  exists cues, parseVTT h text = Normal cues /\ Forall bracketed cues.
Proof.
  unfold parseVTT.
  destruct (parseVTTLoop_total (S (List.length (vttLines text))) (vttLines text) 0 [])
    as (more & -> & H); [lia|].
  now exists more.
Qed.

Lemma segmentText_finished s : segmentText s <> Unfinished.
Proof.
  unfold segmentText. apply bindC_finished; [apply getProp_finished|]. intros u.
  destruct (truthy u); [discriminate|].
  apply bindC_finished; [apply getProp_finished|]. intros t.
  destruct (truthy t); [discriminate|].
  apply bindC_finished; [apply getProp_finished|]. discriminate.
Qed.

Lemma arrayMap_finished {B} v (f : value -> completion B) :
  (forall a, f a <> Unfinished) -> arrayMap v f <> Unfinished.
Proof. intros Hf. destruct v; cbn; try discriminate. now apply mapC_finished. Qed.

Lemma eventStart_finished ev : eventStart ev <> Unfinished.
Proof.
  unfold eventStart. apply bindC_finished; [apply getProp_finished|]. intros a.
  destruct (negb (isUndefined a)).
  - apply bindC_finished; [apply asNumber_finished|discriminate].
  - apply bindC_finished; [apply getProp_finished|]. intros b.
    destruct (truthy b); [|discriminate].
    apply bindC_finished; [apply asNumber_finished|discriminate].
Qed.

Lemma eventSegments_finished ev : eventSegments ev <> Unfinished.
Proof.
  unfold eventSegments. apply bindC_finished; [apply getProp_finished|]. intros a.
  destruct (truthy a); [discriminate|].
  apply bindC_finished; [apply getProp_finished|]. discriminate.
Qed.

Lemma eventCue_finished ev : eventCue h ev <> Unfinished.
Proof.
  unfold eventCue. apply bindC_finished; [apply eventStart_finished|]. intros start.
  apply bindC_finished; [apply eventSegments_finished|]. intros segs.
  apply bindC_finished; [apply arrayMap_finished, segmentText_finished|]. intros pieces.
  apply bindC_finished; [apply mapC_finished, pieceText_finished|]. discriminate.
Qed.

Lemma eventCue_bracketed ev c : eventCue h ev = Normal c -> bracketed c.
Proof.
  unfold eventCue. intros H.
  destruct (eventStart ev); cbn [bindC] in H; try discriminate.
  destruct (eventSegments ev); cbn [bindC] in H; try discriminate.
  destruct (arrayMap _ segmentText); cbn [bindC] in H; try discriminate.
  destruct (mapC pieceText _); cbn [bindC] in H; try discriminate.
  injection H as <-. apply cueLine_bracketed.
Qed.

Lemma parseJSON3Body_finished text : parseJSON3Body h text <> Unfinished.
Proof.
  unfold parseJSON3Body. destruct (JSON_parse h text) as [obj|e]; cbn [ofHost bindC];
    [|discriminate].
  destruct (getProp obj "events") as [ev| |] eqn:E; cbn [bindC];
    try discriminate; [|now apply getProp_finished in E].
  destruct (negb (truthy ev) || negb (isArray ev)); [discriminate|].
  apply arrayMap_finished, eventCue_finished.
Qed.

Lemma parseJSON3_total text :
  parseJSON3 h text
  = Normal match parseJSON3Body h text with Normal cues => cues | _ => [] end.
Proof.
  unfold parseJSON3. pose proof (parseJSON3Body_finished text) as H.
  destruct (parseJSON3Body h text); cbn; congruence.
Qed.

Lemma parseJSON3_bracketed text cues :
  parseJSON3 h text = Normal cues -> Forall bracketed cues.
Proof.
  rewrite parseJSON3_total. intros H. injection H as <-.
  unfold parseJSON3Body. destruct (JSON_parse h text) as [obj|e]; cbn [ofHost bindC];
    [|constructor].
  destruct (getProp obj "events") as [ev| |]; cbn [bindC]; try constructor.
  destruct (negb (truthy ev) || negb (isArray ev)); [constructor|].
  destruct ev; cbn [arrayMap]; try constructor.
  destruct (mapC (eventCue h) elems) as [cs| |] eqn:E; try constructor.
  revert E. apply mapC_Forall. apply eventCue_bracketed.
Qed.

Lemma parseXMLTextNodes_total text :
  parseXMLTextNodes h text
  = Normal match parseXMLTextNodesBody h text with Normal cues => cues | _ => [] end.
Proof. reflexivity. Qed.

Lemma parseXMLTextNodes_bracketed text cues :
  parseXMLTextNodes h text = Normal cues -> Forall bracketed cues.
Proof.
  cbn. intros H. injection H as <-. apply Forall_map, Forall_forall.
  intros n _. apply cueLine_bracketed.
Qed.

Lemma parseXMLTextNodes_cues text :
  exists cues, parseXMLTextNodes h text = Normal cues /\ Forall bracketed cues.
Proof.
  eexists. split; [apply parseXMLTextNodes_total|].
  now apply (parseXMLTextNodes_bracketed text), parseXMLTextNodes_total.
Qed.

Lemma parseJSON3_cues text :
  exists cues, parseJSON3 h text = Normal cues /\ Forall bracketed cues.
Proof.
  eexists. split; [apply parseJSON3_total|].
  now apply (parseJSON3_bracketed text), parseJSON3_total.
Qed.

(** C6: on every input string each of the three parsers returns a list
    of cues: [parseVTT] has no failing step and its loops end within the
    fuel given; the other two return what their guarded body returns,
    and the empty list when that body throws. *)
Theorem parsers_total (text : string) :
  (exists cues, parseVTT h text = Normal cues)
  /\ parseXMLTextNodes h text
     = Normal match parseXMLTextNodesBody h text with Normal cues => cues | _ => [] end
  /\ parseJSON3 h text
     = Normal match parseJSON3Body h text with Normal cues => cues | _ => [] end.
Proof.
  split; [|split].
  - destruct (parseVTT_total text) as (cues & H & _). now exists cues.
  - apply parseXMLTextNodes_total.
  - apply parseJSON3_total.
Qed.

End ParserFacts.

(** ** The track fetcher *)

Lemma join_bracketed sep c cs :
  bracketed c -> bracketed (join sep (c :: cs)).
Proof.
  intros [r ->]. unfold join. cbn [concat].
  destruct cs; [now exists r|]. cbn [append]. eexists. reflexivity.
Qed.

Lemma usable_bracketed txt : bracketed txt -> usable txt = true.
Proof.
  intros [r ->]. unfold usable. now rewrite (trim_head_solid "["%char r eq_refl).
Qed.

Lemma isEmpty_length s : isEmpty s = Nat.eqb (length s) 0.
Proof. now destruct s. Qed.

Lemma usable_trimmed s : isEmpty (trim s) = false -> usable (trim s) = true.
Proof.
  intros H. unfold usable. now rewrite trim_idempotent, <- isEmpty_length, H.
Qed.

Lemma not_blank_not_empty s : isBlank s = false -> isEmpty s = false.
Proof. destruct s; [discriminate|reflexivity]. Qed.

Lemma asString_throws v e : asString v = Throw e -> isTypeError e.
Proof.
  unfold asString. destruct (convertible v); [discriminate|].
  intros [= <-]. eexists. reflexivity.
Qed.

(** The candidates are four, or building them throws a type error. *)
Lemma candidates_cases t :
  (exists cs, candidates t = Normal cs /\ List.length cs = 4)
  \/ (exists e, candidates t = Throw e /\ isTypeError e).
Proof.
  unfold candidates.
  destruct (urlIncludes (url t) "?") as [q|e|] eqn:E; cbn [bindC].
  - destruct (asString (url t)) as [u|e|] eqn:Eu; cbn [bindC].
    + left. eexists. split; reflexivity.
    + right. exists e. split; [reflexivity|]. now apply asString_throws in Eu.
    + now apply asString_finished in Eu.
  - right. exists e. split; [reflexivity|].
    destruct (url t); cbn in E; try discriminate E;
      injection E as <-; eexists; reflexivity.
  - destruct (url t); discriminate E.
Qed.

Section FetcherFacts.

Variable h : host.

Lemma firstCues_total steps text :
  Forall (fun st : bool * (string -> completion (list string)) =>
            exists cues, snd st text = Normal cues /\ Forall bracketed cues) steps ->
  exists cues, firstCues steps text = Normal cues /\ Forall bracketed cues.
Proof.
  induction 1 as [|[sniffed parser] steps (cs & Hp & Hb) _ IH]; [now exists []|].
  cbn [firstCues]. destruct sniffed; [|exact IH].
  cbn [snd] in Hp. rewrite Hp. cbn [bindC].
  destruct cs; [exact IH|]. eexists. now split.
Qed.

Lemma sniffedCues_total text :
  exists cues, sniffedCues h text = Normal cues /\ Forall bracketed cues.
Proof.
  unfold sniffedCues. apply firstCues_total.
  repeat constructor; cbn [snd].
  - apply parseVTT_total.
  - apply parseXMLTextNodes_cues.
  - apply parseJSON3_cues.
Qed.

(** A turn of the loop on a body either goes on or returns a usable
    text. *)
Lemma candidateBody_total text :
  exists r, candidateBody h text = Normal r
            /\ forall txt, r = Some txt -> usable txt = true.
Proof.
  unfold candidateBody.
  destruct (sniffedCues_total text) as (cues & -> & Hb). cbn [bindC].
  destruct cues as [|c cues].
  - destruct (parseXMLTextNodes_cues h text) as ([|x xs] & -> & Hx); cbn [bindC].
    + destruct ((0 <? Z.of_nat (length (rawText h text)))%Z
                && (Z.of_nat (length (rawText h text)) <? rawCap)%Z) eqn:E.
      * eexists. split; [reflexivity|]. intros txt [= <-].
        apply andb_true_iff in E as [E _]. apply Z.ltb_lt in E.
        unfold rawText in *. apply usable_trimmed.
        destruct (trim _); [cbn in E; lia|reflexivity].
      * eexists. split; [reflexivity|]. discriminate.
    + eexists. split; [reflexivity|]. intros txt [= <-].
      apply usable_bracketed.
      refine (join_bracketed (String LF EmptyString) x xs _). now inversion Hx.
  - eexists. split; [reflexivity|]. intros txt [= <-].
    apply usable_bracketed.
    refine (join_bracketed (String LF EmptyString) c cues _). now inversion Hb.
Qed.

(** One turn of the candidate loop, spelled out. *)
Lemma tryCandidate_eq c (w : world h) :
  tryCandidate h c w
  = let w' := World (snd (fetch h (net w) c)) (requests w ++ [c]) in
    match fst (fetch h (net w) c) with
    | Response true (Returns text) =>
        if isEmpty text || Nat.eqb (length (trim text)) 0 then (Normal None, w')
        else match candidateBody h text with
             | Normal r => (Normal r, w')
             | Throw _ => (Normal None, w')
             | Unfinished => (Unfinished, w')
             end
    | _ => (Normal None, w')
    end.
Proof.
  unfold tryCandidate, tryM, bind, fetchM, liftC, ret.
  destruct (fetch h (net w) c) as [o n]. cbn [fst snd].
  destruct o as [e|[|] [text|e]]; cbn [negb ofHost]; try reflexivity.
  destruct (isEmpty text || Nat.eqb (length (trim text)) 0); [reflexivity|].
  now destruct (candidateBody h text).
Qed.

(** Every turn ends, has requested exactly its candidate, and returns
    only usable text. *)
Lemma tryCandidate_total c (w : world h) :
  exists r,
    tryCandidate h c w
    = (Normal r, World (snd (fetch h (net w) c)) (requests w ++ [c]))
    /\ forall txt, r = Some txt -> usable txt = true.
Proof.
  rewrite tryCandidate_eq. cbv zeta.
  destruct (fst (fetch h (net w) c)) as [e|[|] [text|e]];
    try (exists None; split; [reflexivity|discriminate]).
  destruct (isEmpty text || Nat.eqb (length (trim text)) 0);
    [exists None; split; [reflexivity|discriminate]|].
  destruct (candidateBody_total text) as (r & -> & Hr). now exists r.
Qed.

(** A turn on a body whose detected format yields cues returns them. *)
Lemma tryCandidate_cues c (w : world h) n2 text cues :
  fetch h (net w) c = (Response true (Returns text), n2) ->
  isBlank text = false ->
  sniffedCues h text = Normal cues -> cues <> [] ->
  tryCandidate h c w = (Normal (Some (join nl cues)), World n2 (requests w ++ [c])).
Proof.
  intros Hf Hb Hs Hne. rewrite tryCandidate_eq, Hf. cbn [fst snd].
  rewrite (not_blank_not_empty _ Hb). unfold isBlank in Hb.
  rewrite <- isEmpty_length, Hb. cbn [orb].
  unfold candidateBody. rewrite Hs. cbn [bindC].
  destruct cues; [contradiction|reflexivity].
Qed.

Lemma allPass_requests cs :
  forall (w w' : world h), allPass h cs w = Some w' -> requests w' = (requests w ++ cs)%list.
Proof.
  induction cs as [|c cs IH]; intros w w' H.
  - injection H as <-. now rewrite app_nil_r.
  - cbn [allPass] in H. destruct (tryCandidate_total c w) as (r & E & _).
    rewrite E in H. destruct r; [discriminate|].
    rewrite (IH _ _ H). cbn [requests]. now rewrite <- app_assoc.
Qed.

(** The loop after the candidates that passed. *)
Lemma candidatesLoop_after t pre :
  forall c post (w w1 : world h),
    allPass h pre w = Some w1 ->
    candidatesLoop h t (pre ++ c :: post) w = candidatesLoop h t (c :: post) w1.
Proof.
  induction pre as [|p pre IH]; intros c post w w1 H.
  - now injection H as <-.
  - cbn [allPass] in H. cbn [app candidatesLoop]. unfold bind at 1.
    destruct (tryCandidate h p w) as [[[r|]| |] w2]; try discriminate.
    now apply IH.
Qed.

(** The loop either fails after all candidates passed, or returns what
    the first candidate that does not pass returns. *)
Lemma candidatesLoop_cases t cs :
  forall (w : world h),
    (exists w', candidatesLoop h t cs w = (Throw (TrackFetchFailed (lang t)), w')
                /\ allPass h cs w = Some w')
    \/ (exists pre c post w1 txt w',
           cs = (pre ++ c :: post)%list /\ allPass h pre w = Some w1
           /\ tryCandidate h c w1 = (Normal (Some txt), w')
           /\ candidatesLoop h t cs w = (Normal txt, w')).
Proof.
  induction cs as [|c cs IH]; intros w.
  - left. exists w. now split.
  - destruct (tryCandidate_total c w) as (r & E & _).
    cbn [candidatesLoop allPass]. unfold bind. rewrite E.
    destruct r as [txt|].
    + right. exists [], c, cs, w, txt. eexists.
      split; [reflexivity|]. split; [reflexivity|]. split; [exact E|reflexivity].
    + destruct (IH (World (snd (fetch h (net w) c)) (requests w ++ [c])))
        as [(w' & Hl & Hp)|(pre & c' & post & w1 & txt & w' & -> & Hp & Ht & Hl)].
      * left. exists w'. now split.
      * right. exists (c :: pre), c', post, w1, txt, w'.
        cbn [allPass app]. rewrite E. now repeat split.
Qed.

Lemma candidates_string t u :
  url t = VStr u ->
  let sep := if includes u "?" then "&" else "?" in
  candidates t
  = Normal [u ++ sep ++ "fmt=vtt"; u ++ sep ++ "fmt=json3"; u ++ sep ++ "fmt=srv3"; u].
Proof. intros H. unfold candidates. rewrite H. reflexivity. Qed.

Lemma fetchCaptionText_string t u (w : world h) :
  url t = VStr u -> u <> EmptyString ->
  let sep := if includes u "?" then "&" else "?" in
  fetchCaptionText h t w
  = candidatesLoop h t
      [u ++ sep ++ "fmt=vtt"; u ++ sep ++ "fmt=json3"; u ++ sep ++ "fmt=srv3"; u] w.
Proof.
  intros H Hu. unfold fetchCaptionText. rewrite (candidates_string t u H), H.
  destruct u; [contradiction|reflexivity].
Qed.


(** C3: the candidates of a track with a base URL are the URL with
    [fmt=vtt], [fmt=json3], [fmt=srv3] appended and the bare URL, in
    this order. When the candidates before one have all been requested
    without result and its body, read in the format detected, yields a
    cue, the fetcher returns these cues and has requested no candidate
    after it. Whenever the fetcher returns, it does so at the first
    candidate with a result, having requested the candidates up to this
    one and none after; when it fails, it has requested all four. *)
Theorem fetchCaptionText_candidate_order (t : captionTrack) (u : string) (w : world h) :
  url t = VStr u -> u <> EmptyString ->
  let sep := if includes u "?" then "&" else "?" in
  let cs := [u ++ sep ++ "fmt=vtt"; u ++ sep ++ "fmt=json3"; u ++ sep ++ "fmt=srv3"; u] in
  candidates t = Normal cs
  /\ (forall pre c post w1 n2 body cues,
         cs = (pre ++ c :: post)%list ->
         allPass h pre w = Some w1 ->
         fetch h (net w1) c = (Response true (Returns body), n2) ->
         isBlank body = false ->
         sniffedCues h body = Normal cues -> cues <> [] ->
         fetchCaptionText h t w
         = (Normal (join nl cues), World n2 (requests w ++ pre ++ [c])))
  /\ (forall txt w',
         fetchCaptionText h t w = (Normal txt, w') ->
         exists pre c post w1,
           cs = (pre ++ c :: post)%list /\ allPass h pre w = Some w1
           /\ tryCandidate h c w1 = (Normal (Some txt), w')
           /\ requests w' = (requests w ++ pre ++ [c])%list)
  /\ (forall e w',
         fetchCaptionText h t w = (Throw e, w') ->
         e = TrackFetchFailed (lang t) /\ allPass h cs w = Some w'
         /\ requests w' = (requests w ++ cs)%list).
Proof.
  intros Hurl Hu sep cs. split; [exact (candidates_string t u Hurl)|].
  rewrite (fetchCaptionText_string t u w Hurl Hu). fold sep. fold cs.
  split; [|split].
  - intros pre c post w1 n2 body cues Hcs Hpass Hf Hb Hs Hne.
    rewrite Hcs, (candidatesLoop_after t pre c post w w1 Hpass).
    cbn [candidatesLoop]. unfold bind.
    rewrite (tryCandidate_cues c w1 n2 body cues Hf Hb Hs Hne).
    unfold ret. now rewrite (allPass_requests _ _ _ Hpass), <- app_assoc.
  - intros txt w' H.
    destruct (candidatesLoop_cases t cs w)
      as [(w2 & Hl & _)|(pre & c & post & w1 & txt' & w2 & Hcs & Hp & Ht & Hl)];
      rewrite Hl in H; [discriminate|].
    injection H as <- <-. exists pre, c, post, w1. repeat split; try assumption.
    destruct (tryCandidate_total c w1) as (r & E & _). rewrite E in Ht.
    injection Ht as _ <-. cbn [requests].
    now rewrite (allPass_requests _ _ _ Hp), <- app_assoc.
  - intros e w' H.
    destruct (candidatesLoop_cases t cs w)
      as [(w2 & Hl & Hp)|(pre & c & post & w1 & txt' & w2 & Hcs & Hp & Ht & Hl)];
      rewrite Hl in H; [|discriminate].
    injection H as <- <-. repeat split; [assumption|].
    now apply allPass_requests.
Qed.


(** The fetcher never runs out of fuel, and what it returns is usable. *)
Lemma fetchCaptionText_total t (w : world h) :
  exists r w', fetchCaptionText h t w = (r, w') /\ r <> Unfinished
               /\ forall txt, r = Normal txt -> usable txt = true.
Proof.
  unfold fetchCaptionText. destruct (negb (truthy (url t))).
  - eexists _, _. split; [reflexivity|]. split; discriminate.
  - unfold bind, liftC.
    assert (candidates t <> Unfinished) as Hc.
    { destruct (candidates_cases t) as [(cs & -> & _)|(e & -> & _)]; discriminate. }
    destruct (candidates t) as [cs| |]; try congruence.
    + destruct (candidatesLoop_cases t cs w)
        as [(w' & -> & _)|(pre & c & post & w1 & txt & w' & _ & _ & Ht & ->)].
      * eexists _, _. split; [reflexivity|]. split; discriminate.
      * eexists _, _. split; [reflexivity|]. split; [discriminate|].
        intros txt' [= <-]. destruct (tryCandidate_total c w1) as (r & E & Hu).
        rewrite E in Ht. injection Ht as -> _. now apply Hu.
    + eexists _, _. split; [reflexivity|]. split; discriminate.
Qed.

End FetcherFacts.

Lemma fetchCaptionText_candidate_order_witness :
  fetchCaptionText sampleHost enTrack w0
  = (Normal (join nl ["[1.5s] hi"]),
     @World sampleHost tt
       (requests w0 ++ [enUrl ++ "&fmt=vtt"] ++ [enUrl ++ "&fmt=json3"])).
Proof.
  refine (proj1 (proj2 (fetchCaptionText_candidate_order sampleHost enTrack enUrl w0
                          eq_refl _))
            [enUrl ++ "&fmt=vtt"] (enUrl ++ "&fmt=json3") [enUrl ++ "&fmt=srv3"; enUrl]
            (@World sampleHost tt [enUrl ++ "&fmt=vtt"]) tt helloJson3 ["[1.5s] hi"]
            eq_refl eq_refl eq_refl eq_refl eq_refl _); discriminate.
Defined.


(** ** Events without text *)

Lemma mapC_map {A B} (f : A -> completion B) (g : A -> B) (l : list A) :
  (forall a, In a l -> f a = Normal (g a)) -> mapC f l = Normal (map g l).
Proof.
  induction l as [|a l IH]; intros H; [reflexivity|].
  cbn [mapC map]. rewrite (H a (or_introl eq_refl)). cbn [bindC].
  rewrite IH by (intros b Hb; apply H; now right). reflexivity.
Qed.



Section Json3Facts.

Variable h : host.

Hypothesis decode_empty : htmlTextContent h EmptyString = EmptyString.






End Json3Facts.



(** ** The aggregator *)

Lemma getProp_throws v key e : getProp v key = Throw e -> isTypeError e.
Proof.
  destruct v; cbn; intros H; try discriminate H;
    injection H as <-; eexists; reflexivity.
Qed.

Lemma optProp_throws v key e : optProp v key = Throw e -> isTypeError e.
Proof.
  destruct v; cbn; intros H; try discriminate H;
    injection H as <-; eexists; reflexivity.
Qed.

Lemma optProp_finished v key : optProp v key <> Unfinished.
Proof. destruct v; discriminate. Qed.

Lemma mapC_throws {A B} (P : exn -> Prop) (f : A -> completion B) (l : list A) :
  (forall a e, f a = Throw e -> P e) -> forall e, mapC f l = Throw e -> P e.
Proof.
  intros Hf. induction l as [|a l IH]; intros e H; [discriminate|].
  cbn [mapC] in H. destruct (f a) as [b|e'|] eqn:Ea; cbn [bindC] in H; try discriminate.
  - destruct (mapC f l) as [bs|e'|]; cbn [bindC] in H; try discriminate.
    injection H as <-. now apply IH.
  - injection H as <-. now apply (Hf a).
Qed.

Lemma toTrack_throws t e : toTrack t = Throw e -> isTypeError e.
Proof.
  destruct t as [| | | | | |props]; cbn; intros H; try discriminate H;
    try (injection H as <-; eexists; reflexivity).
  destruct (optProp (lookup "name" props) "simpleText") as [st|e'|] eqn:E;
    cbn [bindC] in H; try discriminate H.
  - destruct (truthy (lookup "baseUrl" props)); discriminate H.
  - injection H as <-. now apply optProp_throws in E.
Qed.

Lemma toTrack_finished t : toTrack t <> Unfinished.
Proof.
  destruct t as [| | | | | |props]; cbn; intros H; try discriminate H.
  pose proof (optProp_finished (lookup "name" props) "simpleText").
  destruct (optProp (lookup "name" props) "simpleText"); cbn [bindC] in H;
    try congruence.
  destruct (truthy (lookup "baseUrl" props)); discriminate H.
Qed.

Lemma logLabel_throws t e : logLabel t = Throw e -> isTypeError e.
Proof.
  unfold logLabel. destruct (asString (lang t)) as [l|e'|] eqn:El; cbn [bindC];
    [|intros [= <-]; now apply asString_throws in El|discriminate].
  destruct (truthy (name t)); cbn [bindC]; [|discriminate].
  destruct (asString (name t)) as [n|e'|] eqn:En; cbn [bindC];
    [discriminate|intros [= <-]; now apply asString_throws in En|discriminate].
Qed.

Lemma logLabel_finished t : logLabel t <> Unfinished.
Proof.
  unfold logLabel. apply bindC_finished; [apply asString_finished|]. intros l.
  apply bindC_finished; [|discriminate].
  destruct (truthy (name t)); [apply asString_finished|discriminate].
Qed.

(** A track whose label could be made: its language converts, and its
    name when it is truthy. *)
Lemma logLabel_normal t l :
  logLabel t = Normal l ->
  convertible (lang t) = true
  /\ (truthy (name t) = true -> convertible (name t) = true).
Proof.
  unfold logLabel, asString. destruct (convertible (lang t)); [|discriminate].
  cbn [bindC]. destruct (truthy (name t)); [|now split].
  destruct (convertible (name t)); [now split|discriminate].
Qed.

Lemma builtTracks_normal ct ts :
  builtTracks ct = Normal ts -> tracksMap ct = Normal ts /\ Forall labelled ts.
Proof.
  unfold builtTracks. destruct (tracksMap ct) as [tracks| |]; cbn [bindC]; try discriminate.
  destruct (mapC logLabel tracks) as [labels| |] eqn:E; cbn [bindC]; try discriminate.
  intros [= <-]. split; [reflexivity|].
  apply mapC_Forall2 in E. induction E as [|t l ts ls Ht _ IH]; constructor; [|exact IH].
  now apply (logLabel_normal t l).
Qed.

Lemma builtTracks_throws ct e : builtTracks ct = Throw e -> isTypeError e.
Proof.
  unfold builtTracks. destruct (tracksMap ct) as [tracks|e'|] eqn:Et; cbn [bindC].
  - destruct (mapC logLabel tracks) as [labels|e'|] eqn:E; cbn [bindC]; try discriminate.
    intros [= <-]. revert E. apply mapC_throws. apply logLabel_throws.
  - intros [= <-]. destruct ct; cbn in Et;
      try (injection Et as <-; eexists; reflexivity).
    revert Et. apply mapC_throws. apply toTrack_throws.
  - discriminate.
Qed.

Lemma builtTracks_finished ct : builtTracks ct <> Unfinished.
Proof.
  unfold builtTracks. apply bindC_finished.
  - destruct ct; cbn; try discriminate. apply mapC_finished, toTrack_finished.
  - intros tracks. apply bindC_finished; [apply mapC_finished, logLabel_finished|discriminate].
Qed.

Section AggregatorFacts.

Variable h : host.

(** What [getPlayerResponse] throws is [MetadataNotFound]. *)
Lemma getPlayerResponse_cases pg :
  getPlayerResponse h pg
  = if truthy (ytInitialPlayerResponse pg) then Normal (ytInitialPlayerResponse pg)
    else if truthy (relay (messageEvents pg)) then Normal (relay (messageEvents pg))
    else match scanScripts h (scripts pg) with
         | Some parsed => Normal parsed
         | None => Throw MetadataNotFound
         end.
Proof.
  unfold getPlayerResponse.
  destruct (truthy (ytInitialPlayerResponse pg)); [reflexivity|].
  destruct (truthy (relay (messageEvents pg))); [reflexivity|].
  now destruct (scanScripts h (scripts pg)).
Qed.

Lemma listedTracks_eq pg pr :
  getPlayerResponse h pg = Normal pr ->
  fetchCaptionList h pg
  = (captionTracks <- listedTracks pr ;;
     empty <- (if negb (truthy captionTracks) then Normal true
               else lengthIsZero captionTracks) ;;
     if empty then Throw NoCaptionTracks else builtTracks captionTracks)%completion.
Proof.
  intros H. unfold fetchCaptionList, listedTracks. rewrite H. cbn [bindC].
  destruct (optProp pr "captions"); cbn [bindC]; try reflexivity.
  destruct (optProp _ "playerCaptionsTracklistRenderer"); cbn [bindC]; try reflexivity.
  destruct (optProp _ "captionTracks"); cbn [bindC]; reflexivity.
Qed.

Lemma listedTracks_throws pr e : listedTracks pr = Throw e -> isTypeError e.
Proof.
  unfold listedTracks.
  destruct (optProp pr "captions") as [c|e1|] eqn:E1; cbn [bindC];
    [|intros [= <-]; now apply optProp_throws in E1|discriminate].
  destruct (optProp c _) as [r|e2|] eqn:E2; cbn [bindC];
    [|intros [= <-]; now apply optProp_throws in E2|discriminate].
  destruct (optProp r _) as [l|e3|] eqn:E3; cbn [bindC];
    [discriminate|intros [= <-]; now apply optProp_throws in E3|discriminate].
Qed.

(** The list builder never returns an empty list. *)
Lemma fetchCaptionList_nonempty pg ts : fetchCaptionList h pg = Normal ts -> ts <> [].
Proof.
  intros H Hts. subst ts.
  destruct (getPlayerResponse h pg) as [pr| |] eqn:Epr;
    [|unfold fetchCaptionList in H; rewrite Epr in H; discriminate..].
  rewrite (listedTracks_eq pg pr Epr) in H.
  destruct (listedTracks pr) as [ct| |]; cbn [bindC] in H; try discriminate.
  destruct (if negb (truthy ct) then Normal true else lengthIsZero ct)
    as [[|]| |] eqn:Eempty; cbn [bindC] in H; try discriminate.
  apply builtTracks_normal in H as [H _].
  destruct ct as [| | | | |l|]; try discriminate H.
  cbn [tracksMap] in H. apply mapC_length in H.
  destruct l; [|discriminate H]. vm_compute in Eempty. discriminate.
Qed.

(** The list the builder returns is the page's array of tracks, entry by
    entry. *)
Lemma fetchCaptionList_normal pg ts :
  fetchCaptionList h pg = Normal ts ->
  exists pr entries,
    getPlayerResponse h pg = Normal pr
    /\ listedTracks pr = Normal (VArr entries)
    /\ mapC toTrack entries = Normal ts.
Proof.
  intros H. destruct (getPlayerResponse h pg) as [pr| |] eqn:Epr;
    [|unfold fetchCaptionList in H; rewrite Epr in H; discriminate..].
  rewrite (listedTracks_eq pg pr Epr) in H.
  destruct (listedTracks pr) as [ct| |] eqn:El; cbn [bindC] in H; try discriminate.
  destruct (if negb (truthy ct) then Normal true else lengthIsZero ct)
    as [[|]| |]; cbn [bindC] in H; try discriminate.
  apply builtTracks_normal in H as [H _].
  destruct ct as [| | | | |l|]; try discriminate H.
  exists pr, l. now repeat split.
Qed.

(** What the list builder throws is never [NoCaptionsFound]. *)
Lemma fetchCaptionList_throws pg e :
  fetchCaptionList h pg = Throw e ->
  e = MetadataNotFound \/ e = NoCaptionTracks \/ isTypeError e.
Proof.
  intros H. destruct (getPlayerResponse h pg) as [pr|e'|] eqn:Epr.
  - rewrite (listedTracks_eq pg pr Epr) in H.
    destruct (listedTracks pr) as [ct|e1|] eqn:El; cbn [bindC] in H;
      [|injection H as <-; right; right; now apply listedTracks_throws in El|discriminate].
    assert (forall c : completion bool,
               (forall e0, c = Throw e0 -> isTypeError e0) ->
               (empty <- c ;;
                if empty then Throw NoCaptionTracks else builtTracks ct)%completion = Throw e ->
               e = MetadataNotFound \/ e = NoCaptionTracks \/ isTypeError e) as Hrest.
    { intros c Hc Hrun. destruct c as [[|]|e0|]; cbn [bindC] in Hrun; try discriminate.
      - injection Hrun as <-. now right; left.
      - right; right. now apply builtTracks_throws in Hrun.
      - injection Hrun as <-. right; right. now apply Hc. }
    destruct (negb (truthy ct)); [apply (Hrest (Normal true)); [discriminate|exact H]|].
    apply (Hrest (lengthIsZero ct)); [|exact H].
    intros e0 He0. unfold lengthIsZero in He0.
    destruct (getProp ct "length") eqn:Eg; cbn [bindC] in He0; try discriminate.
    injection He0 as <-. now apply getProp_throws in Eg.
  - unfold fetchCaptionList in H. rewrite Epr in H. cbn [bindC] in H. injection H as <-.
    rewrite getPlayerResponse_cases in Epr.
    destruct (truthy _); [discriminate|]. destruct (truthy _); [discriminate|].
    destruct (scanScripts _ _); [discriminate|]. injection Epr as <-. now left.
  - unfold fetchCaptionList in H. rewrite Epr in H. discriminate.
Qed.

(** The loop over the tracks pushes the successes, in order, and ends in
    the world reached after the last track. *)
Lemma fetchTracks_outcomes ts :
  forall fetched (w : world h),
    fetchTracks h ts fetched w
    = (Normal (fetched ++ successes (fst (trackOutcomes h ts w)))%list,
       snd (trackOutcomes h ts w)).
Proof.
  induction ts as [|t ts IH]; intros fetched w.
  - cbn. now rewrite app_nil_r.
  - cbn [fetchTracks trackOutcomes]. unfold bind at 1, tryM, bind at 1.
    destruct (fetchCaptionText_total h t w) as (r & w1 & E & Hfin & Hus). rewrite E.
    destruct r as [txt|e|]; [| |now contradiction Hfin].
    + rewrite (Hus txt eq_refl). unfold ret. rewrite IH.
      destruct (trackOutcomes h ts w1) as [rs w2]. cbn [fst snd successes].
      now rewrite <- app_assoc.
    + unfold ret. rewrite IH.
      destruct (trackOutcomes h ts w1) as [rs w2]. reflexivity.
Qed.

Lemma fetchCaptionList_labelled pg ts :
  fetchCaptionList h pg = Normal ts -> Forall labelled ts.
Proof.
  intros H. destruct (getPlayerResponse h pg) as [pr| |] eqn:Epr;
    [|unfold fetchCaptionList in H; rewrite Epr in H; discriminate..].
  rewrite (listedTracks_eq pg pr Epr) in H.
  destruct (listedTracks pr) as [ct| |]; cbn [bindC] in H; try discriminate.
  destruct (if negb (truthy ct) then Normal true else lengthIsZero ct)
    as [[|]| |]; cbn [bindC] in H; try discriminate.
  now apply builtTracks_normal in H.
Qed.

(** The successes are tracks of the list. *)
Lemma successes_tracks ts :
  forall (w : world h) f,
    In f (successes (fst (trackOutcomes h ts w))) -> In (track f) ts.
Proof.
  induction ts as [|t ts IH]; intros w f H; [contradiction|].
  cbn [trackOutcomes] in H.
  destruct (fetchCaptionText h t w) as [r w1].
  specialize (IH w1 f). destruct (trackOutcomes h ts w1) as [rs w2].
  cbn [fst successes] in H, IH.
  destruct r as [txt|e|]; [|right; now apply IH..].
  destruct H as [<-|Hin]; [now left|right; now apply IH].
Qed.

Lemma sectionOf_labelled f : labelled (track f) -> sectionOf f = Normal (section_ f).
Proof.
  intros [Hl Hn]. unfold sectionOf, asString. rewrite Hl. cbn [bindC].
  destruct (truthy (name (track f))); [|reflexivity]. now rewrite Hn.
Qed.

(** The sections of the successes of a list of labelled tracks. *)
Lemma sections_normal ts (w : world h) :
  Forall labelled ts ->
  mapC sectionOf (successes (fst (trackOutcomes h ts w)))
  = Normal (map section_ (successes (fst (trackOutcomes h ts w)))).
Proof.
  intros Hts. apply mapC_map. intros f Hf. apply sectionOf_labelled.
  rewrite Forall_forall in Hts. apply Hts. now apply (successes_tracks ts w).
Qed.

(** The aggregator, spelled out. *)
Lemma getBestTranscript_eq pg (w : world h) :
  getBestTranscript h pg w
  = match searchParamV pg with
    | None => (Throw NoVideoId, w)
    | Some vid =>
        if isEmpty vid then (Throw NoVideoId, w)
        else match fetchCaptionList h pg with
             | Normal ts =>
                 match successes (fst (trackOutcomes h ts w)) with
                 | [] => (Throw NoCaptionsFetched, snd (trackOutcomes h ts w))
                 | fetched =>
                     (Normal (AggregateResult vid ts
                                (join blankLine (map section_ fetched))),
                      snd (trackOutcomes h ts w))
                 end
             | Throw e => (Throw e, w)
             | Unfinished => (Unfinished, w)
             end
    end.
Proof.
  unfold getBestTranscript. destruct (searchParamV pg) as [vid|]; [|reflexivity].
  destruct (isEmpty vid); [reflexivity|].
  unfold bind at 1, liftC.
  destruct (fetchCaptionList h pg) as [ts|e|] eqn:El; try reflexivity.
  pose proof (fetchCaptionList_nonempty pg ts El) as Hne.
  pose proof (sections_normal ts w (fetchCaptionList_labelled pg ts El)) as Hsec.
  destruct ts as [|t ts]; [contradiction|].
  unfold bind at 1. rewrite fetchTracks_outcomes. cbn [app].
  destruct (successes (fst (trackOutcomes h (t :: ts) w))) as [|f fs]; [reflexivity|].
  unfold bind, liftC. now rewrite Hsec.
Qed.

(** A run of the aggregator that returns. *)
Lemma getBestTranscript_normal pg (w w' : world h) r :
  getBestTranscript h pg w = (Normal r, w') ->
  searchParamV pg = Some (videoId r)
  /\ fetchCaptionList h pg = Normal (tracks r)
  /\ combined r
     = join blankLine (map section_ (successes (fst (trackOutcomes h (tracks r) w))))
  /\ w' = snd (trackOutcomes h (tracks r) w).
Proof.
  rewrite getBestTranscript_eq. destruct (searchParamV pg) as [vid|]; [|discriminate].
  destruct (isEmpty vid); [discriminate|].
  destruct (fetchCaptionList h pg) as [ts| |]; try discriminate.
  destruct (successes (fst (trackOutcomes h ts w))) as [|f fs] eqn:E;
    [discriminate|].
  intros [= <- <-]. cbn [videoId tracks combined]. now rewrite E.
Qed.


Lemma trackOutcomes_tracks ts :
  forall (w : world h), map fst (fst (trackOutcomes h ts w)) = ts.
Proof.
  induction ts as [|t ts IH]; intros w; [reflexivity|].
  cbn [trackOutcomes]. destruct (fetchCaptionText h t w) as [r w1].
  specialize (IH w1). destruct (trackOutcomes h ts w1) as [rs w2].
  cbn [fst map] in *. now rewrite IH.
Qed.

Lemma successes_none os : forallb failed os = true -> successes os = [].
Proof.
  induction os as [|[t r] os IH]; [reflexivity|].
  cbn [forallb]. intros H. apply andb_true_iff in H as [Hr Hos].
  destruct r; try discriminate. cbn [successes]. now apply IH.
Qed.

(** C1: when the aggregator returns, [tracks] is the whole list of the
    list builder, one track per entry of the page's array and in its
    order, failed tracks included, and [combined] is made of one section
    per track whose fetch returned, failed tracks giving none, in the
    order of the list, joined by a blank line. A section is its header
    line, a line break and the text; the header is
    [--- Track: {lang} ({name}) ---], and for an empty name the segment
    in parentheses is left out (the space on each side of it stays). *)
Theorem combined_sections (pg : page) (w w' : world h) (r : aggregateResult) :
  getBestTranscript h pg w = (Normal r, w') ->
  let outcomes := fst (trackOutcomes h (tracks r) w) in
  fetchCaptionList h pg = Normal (tracks r)
  /\ (exists pr entries,
         getPlayerResponse h pg = Normal pr
         /\ listedTracks pr = Normal (VArr entries)
         /\ Forall2 (fun e t => toTrack e = Normal t) entries (tracks r))
  /\ map fst outcomes = tracks r
  /\ combined r = join (nl ++ nl) (map section_ (successes outcomes))
  /\ (forall f, section_ f = header (track f) ++ nl ++ text f)
  /\ (forall t, truthy (name t) = true ->
                header t
                = "--- Track: " ++ ToString (lang t) ++ " (" ++ ToString (name t) ++ ") ---")
  /\ (forall t, name t = VStr EmptyString ->
                header t = "--- Track: " ++ ToString (lang t) ++ "  ---").
Proof.
  intros H outcomes. destruct (getBestTranscript_normal pg w w' r H) as (_ & Hl & Hc & _).
  split; [exact Hl|]. split.
  { destruct (fetchCaptionList_normal pg _ Hl) as (pr & entries & Hpr & He & Hm).
    exists pr, entries. repeat split; try assumption. now apply mapC_Forall2. }
  split; [apply trackOutcomes_tracks|]. split; [exact Hc|].
  split; [|split].
  - intros f. unfold section_, header. now rewrite !append_assoc.
  - intros t Ht. unfold header. rewrite Ht. now rewrite !append_assoc.
  - intros t Ht. unfold header. now rewrite Ht.
Qed.

(** C4 (amended): when the fetch of every listed track fails, every
    track has been attempted and the aggregator fails with
    [NoCaptionsFetched]; when the player response lists no track, the
    aggregator fails before any fetch with the [NoCaptionTracks] error
    of the list builder; and it never fails with [NoCaptionsFound]. *)
Theorem getBestTranscript_failures (pg : page) (w : world h) (vid : string) :
  searchParamV pg = Some vid -> vid <> EmptyString ->
  (forall ts,
      fetchCaptionList h pg = Normal ts ->
      forallb failed (fst (trackOutcomes h ts w)) = true ->
      getBestTranscript h pg w = (Throw NoCaptionsFetched, snd (trackOutcomes h ts w))
      /\ map fst (fst (trackOutcomes h ts w)) = ts)
  /\ (forall pr,
         getPlayerResponse h pg = Normal pr ->
         listedTracks pr = Normal (VArr []) ->
         getBestTranscript h pg w = (Throw NoCaptionTracks, w))
  /\ fst (getBestTranscript h pg w) <> Throw NoCaptionsFound.
Proof.
  intros Hv Hvid. rewrite getBestTranscript_eq, Hv.
  destruct vid as [|c vid]; [contradiction|]. cbn [isEmpty].
  split; [|split].
  - intros ts Hl Hfail. split; [|apply trackOutcomes_tracks].
    now rewrite Hl, (successes_none _ Hfail).
  - intros pr Hpr Hlisted.
    rewrite (listedTracks_eq pg pr Hpr), Hlisted. reflexivity.
  - destruct (fetchCaptionList h pg) as [ts|e|] eqn:El; cbn [fst]; [| |discriminate].
    + destruct (successes _); discriminate.
    + destruct (fetchCaptionList_throws pg e El) as [->|[->|[m ->]]]; discriminate.
Qed.


End AggregatorFacts.

(** C4 (as stated, refuted): on a page whose player response lists no
    track, the aggregator does not fail with [NoCaptionsFound]. *)
Lemma empty_track_list_not_NoCaptionsFound :
  listedTracks (ytInitialPlayerResponse noTrackPage) = Normal (VArr [])
  /\ getBestTranscript sampleHost noTrackPage w0 = (Throw NoCaptionTracks, w0)
  /\ fst (getBestTranscript sampleHost noTrackPage w0) <> Throw NoCaptionsFound.
Proof. split; [reflexivity|]. split; [reflexivity|]. vm_compute. discriminate. Qed.

Lemma combined_sections_witness :
  combined
    (AggregateResult "abc" [enTrack; frTrack; deTrack]
       ("--- Track: en (English) ---" ++ nl ++ "[1.5s] hi"))
  = join (nl ++ nl)
      (map section_
         (successes (fst (trackOutcomes sampleHost [enTrack; frTrack; deTrack] w0)))).
Proof.
  exact (proj1 (proj2 (proj2 (proj2
           (combined_sections sampleHost threeTrackPage w0
              (snd (getBestTranscript sampleHost threeTrackPage w0))
              (AggregateResult "abc" [enTrack; frTrack; deTrack]
                 ("--- Track: en (English) ---" ++ nl ++ "[1.5s] hi"))
              eq_refl))))).
Defined.

Lemma getBestTranscript_failures_witness :
  getBestTranscript sampleHost failingPage w0
  = (Throw NoCaptionsFetched,
     snd (trackOutcomes sampleHost
            [frTrack; CaptionTrack (VStr "de") (VStr EmptyString) VNull
                        (VStr EmptyString) false] w0)).
Proof.
  assert ("abc" <> EmptyString) as Hne by discriminate.
  exact (proj1 (proj1 (getBestTranscript_failures sampleHost failingPage w0 "abc"
                         eq_refl Hne)
                  [frTrack; CaptionTrack (VStr "de") (VStr EmptyString) VNull
                              (VStr EmptyString) false]
                  eq_refl eq_refl)).
Defined.


(** ** Facts on searching and on the scan of the scripts *)

Lemma take_drop s : forall n, take n s ++ drop n s = s.
Proof.
  induction s as [|c s IH]; intros [|n]; try reflexivity.
  cbn. now rewrite IH.
Qed.

Lemma length_take s : forall n, n <= length s -> length (take n s) = n.
Proof.
  induction s as [|c s IH]; intros [|n] H; cbn in *; try reflexivity; try lia.
  rewrite IH; lia.
Qed.

Lemma indexOfAux_found sub s :
  forall i j, indexOfAux sub s i = Some j ->
              exists k, j = i + k /\ prefix sub (drop k s) = true.
Proof.
  induction s as [|c s IH]; intros i j H; cbn [indexOfAux] in H.
  - destruct (prefix sub EmptyString) eqn:E; [|discriminate].
    injection H as <-. exists 0. now rewrite Nat.add_0_r.
  - destruct (prefix sub (String c s)) eqn:E.
    + injection H as <-. exists 0. now rewrite Nat.add_0_r.
    + apply IH in H as (k & -> & Hk). exists (S k). split; [lia|exact Hk].
Qed.

Lemma drop_drop s : forall a b, drop a (drop b s) = drop (b + a) s.
Proof.
  induction s as [|c s IH]; intros a [|b]; cbn; try reflexivity.
  - now destruct a.
  - apply IH.
Qed.

Lemma indexOf_found sub s from j :
  indexOf sub s from = Some j -> from <= j \/ length s <= j.
Proof.
  unfold indexOf. intros H. apply indexOfAux_found in H as (k & -> & _). lia.
Qed.

Lemma indexOf_prefix sub s from j :
  indexOf sub s from = Some j -> prefix sub (drop j s) = true.
Proof.
  unfold indexOf. intros H. apply indexOfAux_found in H as (k & -> & Hk).
  now rewrite drop_drop in Hk.
Qed.

Lemma prefix_char c s :
  prefix (String c EmptyString) s = true -> exists r, s = String c r.
Proof.
  destruct s as [|d s]; [discriminate|]. cbn.
  destruct (ascii_dec c d) as [->|]; [|discriminate]. now exists s.
Qed.

Lemma indexOf_empty_text sub from :
  indexOf (String openBrace sub) EmptyString from = None.
Proof. unfold indexOf. cbn [length]. now rewrite Nat.min_0_r. Qed.

(** A text from which a literal is extracted has the name, is not
    empty, and neither is the literal. *)
Lemma extractJSON_found text varName j :
  extractJSONFromScriptText text varName = Some j ->
  includes text varName = true /\ isEmpty text = false /\ isEmpty j = false.
Proof.
  unfold extractJSONFromScriptText, includes.
  destruct (indexOf varName text 0) as [idx|]; [|discriminate].
  destruct (indexOf "{" text idx) as [b|] eqn:Eb; [|discriminate].
  destruct (scanBraces (drop b text) b 0) as [e|] eqn:Es; [|discriminate].
  intros [= <-]. split; [reflexivity|]. split.
  - destruct text; [|reflexivity].
    change "{" with (String openBrace EmptyString) in Eb.
    now rewrite indexOf_empty_text in Eb.
  - apply scanBraces_from in Es as Hle.
    destruct (prefix_char _ _ (indexOf_prefix _ _ _ _ Eb)) as [rest Hrest].
    unfold slice. rewrite Hrest.
    replace (e + 1 - b) with (S (e - b)) by lia. reflexivity.
Qed.

Section ScanFacts.

Variable h : host.

(** The three guards of the loop are implied by the extraction: a turn
    depends on the extracted literal and on its parse alone. *)
Lemma scanScripts_step s rest :
  scanScripts h (s :: rest)
  = match extractJSONFromScriptText s "ytInitialPlayerResponse" with
    | Some jsonStr =>
        match JSON_parse h jsonStr with
        | Returns parsed => Some parsed
        | Throws _ => scanScripts h rest
        end
    | None => scanScripts h rest
    end.
Proof.
  cbn [scanScripts].
  destruct (extractJSONFromScriptText s "ytInitialPlayerResponse") as [j|] eqn:E.
  - destruct (extractJSON_found _ _ _ E) as (-> & -> & ->). reflexivity.
  - destruct (isEmpty s); [reflexivity|]. now destruct (includes s _).
Qed.

End ScanFacts.

(** ** The player metadata resolver *)

Section ResolverFacts.

Variable h : host.

Lemma relay_none_accepted events :
  forallb (fun de : N * messageEvent => negb (accepted (snd de))) events = true ->
  relay events = VNull.
Proof.
  induction events as [|[delay e] events IH]; [reflexivity|].
  cbn [forallb snd relay]. intros H. apply andb_true_iff in H as [He Hrest].
  apply negb_true_iff in He. rewrite He.
  destruct (relayTimeoutMs <=? delay)%N; [reflexivity|now apply IH].
Qed.

Lemma accepted_marked e : accepted e = true <-> marked e.
Proof.
  unfold accepted, marked. split.
  - intros H. apply andb_true_iff in H as [H Hm]. apply andb_true_iff in H as [Hw _].
    split; [exact Hw|].
    destruct (getProp (data e) "__YT_TR__") as [v| |]; try discriminate Hm.
    destruct v as [| |[|]| | | |]; try discriminate Hm. reflexivity.
  - intros [-> Hm]. rewrite Hm.
    destruct (data e); try discriminate Hm; try reflexivity; cbn in Hm;
      destruct (String.eqb _ _); discriminate Hm.
Qed.

Lemma not_accepted_unmarked e : accepted e = false -> ~ marked e.
Proof. intros H Hm. apply accepted_marked in Hm. congruence. Qed.

(** The relay goes past the messages that are passed over. *)
Lemma relay_skip pre rest : Forall passedOver pre -> relay (pre ++ rest) = relay rest.
Proof.
  induction 1 as [|[d e] pre [Hd Hm] _ IH]; [reflexivity|].
  cbn [app relay fst snd] in *. apply N.leb_gt in Hd.
  unfold relayTimeoutMs. rewrite Hd.
  destruct (accepted e) eqn:Ea; [|exact IH].
  now apply accepted_marked in Ea.
Qed.

Lemma relayed_relay events v : relayed events v -> relay events = v.
Proof.
  intros (Hv & pre & d & e & post & -> & Hpre & Hd & Hm & Hp).
  rewrite (relay_skip pre _ Hpre). cbn [relay]. apply N.leb_gt in Hd.
  unfold relayTimeoutMs. rewrite Hd.
  apply accepted_marked in Hm. rewrite Hm.
  unfold relayedPayload, orElse. now rewrite Hp, Hv.
Qed.

Lemma relay_relayed events :
  truthy (relay events) = true -> relayed events (relay events).
Proof.
  induction events as [|[d e] events IH]; [discriminate|].
  cbn [relay]. destruct (relayTimeoutMs <=? d)%N eqn:Ed; [discriminate|].
  apply N.leb_gt in Ed. destruct (accepted e) eqn:Ea.
  - intros Ht. split; [exact Ht|]. exists [], d, e, events.
    apply accepted_marked in Ea.
    refine (conj eq_refl (conj (Forall_nil _) (conj Ed (conj Ea _)))).
    unfold relayedPayload, orElse in *.
    destruct (getProp (data e) "payload") as [v| |]; try discriminate Ht.
    destruct (truthy v); [reflexivity|discriminate Ht].
  - intros Ht. destruct (IH Ht) as (Hv & pre & d' & e' & post & -> & Hpre & Hd & Hm & Hp).
    split; [exact Hv|]. exists ((d, e) :: pre), d', e', post.
    refine (conj eq_refl (conj _ (conj Hd (conj Hm Hp)))).
    constructor; [|exact Hpre]. split; [exact Ed|now apply not_accepted_unmarked].
Qed.

Lemma relay_nothing events :
  truthy (relay events) = false -> forall p, ~ relayed events p.
Proof.
  intros Hf p Hp. pose proof (relayed_relay events p Hp) as E.
  destruct Hp as [Ht _]. congruence.
Qed.

Lemma scanScripts_scanned texts v :
  scanScripts h texts = Some v <-> scanned h texts v.
Proof.
  unfold scanned. split.
  - induction texts as [|s rest IH]; [discriminate|].
    rewrite scanScripts_step.
    destruct (extractJSONFromScriptText s "ytInitialPlayerResponse") as [j|] eqn:E.
    + destruct (JSON_parse h j) as [p|e] eqn:Ep.
      * intros [= ->]. exists [], s, rest, j. now repeat split.
      * intros H. destruct (IH H) as (pre & s' & post & j' & -> & Hpre & He & Hp).
        exists (s :: pre), s', post, j'. repeat split; try assumption.
        constructor; [|exact Hpre]. intros j0 Hj0. rewrite E in Hj0.
        injection Hj0 as <-. now exists e.
    + intros H. destruct (IH H) as (pre & s' & post & j' & -> & Hpre & He & Hp).
      exists (s :: pre), s', post, j'. repeat split; try assumption.
      constructor; [|exact Hpre]. intros j0 Hj0. rewrite E in Hj0. discriminate Hj0.
  - intros (pre & s & post & j & -> & Hpre & He & Hp).
    induction Hpre as [|s' pre Hs' _ IH]; cbn [app]; rewrite scanScripts_step.
    + now rewrite He, Hp.
    + destruct (extractJSONFromScriptText s' "ytInitialPlayerResponse") as [j'|] eqn:E';
        [|exact IH].
      destruct (Hs' j' E') as [e ->]. exact IH.
Qed.

Lemma scanScripts_none texts :
  scanScripts h texts = None <-> Forall (unparsable h) texts.
Proof.
  split.
  - induction texts as [|s rest IH]; [constructor|].
    rewrite scanScripts_step. intros H.
    destruct (extractJSONFromScriptText s "ytInitialPlayerResponse") as [j|] eqn:E.
    + destruct (JSON_parse h j) as [p|e] eqn:Ep; [discriminate|].
      constructor; [|now apply IH]. intros j0 Hj0. rewrite E in Hj0.
      injection Hj0 as <-. now exists e.
    + constructor; [|now apply IH]. intros j0 Hj0. rewrite E in Hj0. discriminate.
  - induction 1 as [|s rest Hs _ IH]; [reflexivity|].
    rewrite scanScripts_step.
    destruct (extractJSONFromScriptText s "ytInitialPlayerResponse") as [j|] eqn:E;
      [|exact IH].
    destruct (Hs j E) as [e ->]. exact IH.
Qed.

(** With nothing read directly and nothing relayed, the scan decides. *)
Lemma scan_decides pg :
  truthy (ytInitialPlayerResponse pg) = false ->
  truthy (relay (messageEvents pg)) = false ->
  (forall v, getPlayerResponse h pg = Normal v <-> scanned h (scripts pg) v)
  /\ (forall e, getPlayerResponse h pg = Throw e ->
                Forall (unparsable h) (scripts pg)).
Proof.
  intros Hd Hr. rewrite getPlayerResponse_cases, Hd, Hr. split.
  - intros v. rewrite <- scanScripts_scanned.
    destruct (scanScripts h (scripts pg)); split; congruence.
  - intros e H. apply scanScripts_none.
    destruct (scanScripts h (scripts pg)); [discriminate|reflexivity].
Qed.

(** C5: the resolver returns a value in one of three ways, tried in
    this order: the global seen by the content script when it is truthy;
    else the payload that the relay hands over, that of the first
    message from the window with the marker, arrived before the 1000 ms
    timer and truthy; else the parse of the literal of the first script
    text from which one is extracted and parsed, a literal that does not
    parse being passed over. It throws exactly when all three give
    nothing, and then the error reads
    [getPlayerResponse error: ytInitialPlayerResponse not found]. When no
    message comes, when the timer fires before a marked message, or when
    the payload of the marked message is falsy, the relay gives nothing
    and no error: the scan of the scripts decides. *)
Theorem getPlayerResponse_tiers (pg : page) :
  (forall v,
      getPlayerResponse h pg = Normal v
      <-> (truthy (ytInitialPlayerResponse pg) = true /\ v = ytInitialPlayerResponse pg)
          \/ (truthy (ytInitialPlayerResponse pg) = false
              /\ relayed (messageEvents pg) v)
          \/ (truthy (ytInitialPlayerResponse pg) = false
              /\ (forall p, ~ relayed (messageEvents pg) p)
              /\ scanned h (scripts pg) v))
  /\ (forall e,
         getPlayerResponse h pg = Throw e
         <-> e = Error "getPlayerResponse error: ytInitialPlayerResponse not found"
             /\ truthy (ytInitialPlayerResponse pg) = false
             /\ (forall p, ~ relayed (messageEvents pg) p)
             /\ Forall (unparsable h) (scripts pg))
  /\ (truthy (ytInitialPlayerResponse pg) = false ->
      (messageEvents pg = []
       \/ (exists pre d e post,
              messageEvents pg = (pre ++ (d, e) :: post)%list
              /\ Forall passedOver pre /\ (1000 <= d)%N)
       \/ (exists pre d e post v,
              messageEvents pg = (pre ++ (d, e) :: post)%list
              /\ Forall passedOver pre /\ (d < 1000)%N /\ marked e
              /\ getProp (data e) "payload" = Normal v /\ truthy v = false)) ->
      (forall v, getPlayerResponse h pg = Normal v <-> scanned h (scripts pg) v)
      /\ (forall e, getPlayerResponse h pg = Throw e ->
                    Forall (unparsable h) (scripts pg))).
Proof.
  pose proof (getPlayerResponse_cases h pg) as Hc.
  split; [|split].
  - intros v. rewrite Hc.
    destruct (truthy (ytInitialPlayerResponse pg)) eqn:Hd.
    { split.
      - intros [= <-]. now left.
      - intros [[_ ->]|[[Hf _]|[Hf _]]]; [reflexivity|discriminate Hf..]. }
    destruct (truthy (relay (messageEvents pg))) eqn:Hr.
    { split.
      - intros [= <-]. right; left. split; [reflexivity|now apply relay_relayed].
      - intros [[Hf _]|[[_ Hv]|[_ [Hn _]]]]; [discriminate Hf| |].
        + now rewrite (relayed_relay _ _ Hv).
        + now destruct (Hn _ (relay_relayed _ Hr)). }
    split.
    + intros H. right; right. split; [reflexivity|].
      split; [now apply relay_nothing|]. apply scanScripts_scanned.
      destruct (scanScripts h (scripts pg)); [congruence|discriminate].
    + intros [[Hf _]|[[_ Hv]|[_ [_ Hs]]]]; [discriminate Hf| |].
      * now destruct (relay_nothing _ Hr _ Hv).
      * apply scanScripts_scanned in Hs. now rewrite Hs.
  - intros e. rewrite Hc.
    destruct (truthy (ytInitialPlayerResponse pg)) eqn:Hd.
    { split; [discriminate|]. intros (_ & Hf & _). discriminate Hf. }
    destruct (truthy (relay (messageEvents pg))) eqn:Hr.
    { split; [discriminate|]. intros (_ & _ & Hn & _).
      now destruct (Hn _ (relay_relayed _ Hr)). }
    split.
    + intros H. destruct (scanScripts h (scripts pg)) eqn:Es; [discriminate|].
      injection H as <-. split; [reflexivity|]. split; [reflexivity|].
      split; [now apply relay_nothing|now apply scanScripts_none].
    + intros (-> & _ & _ & Hs). apply scanScripts_none in Hs. now rewrite Hs.
  - intros Hd Hways. apply scan_decides; [exact Hd|].
    destruct Hways as [->|[(pre & d & e & post & -> & Hpre & Hd')
                          |(pre & d & e & post & v & -> & Hpre & Hd' & Hm & Hp & Hv)]].
    + reflexivity.
    + rewrite (relay_skip pre _ Hpre). cbn [relay]. apply N.leb_le in Hd'.
      unfold relayTimeoutMs. now rewrite Hd'.
    + rewrite (relay_skip pre _ Hpre). cbn [relay]. apply N.leb_gt in Hd'.
      unfold relayTimeoutMs. rewrite Hd'. apply accepted_marked in Hm. rewrite Hm.
      unfold relayedPayload, orElse. now rewrite Hp, Hv.
Qed.

End ResolverFacts.

Lemma getPlayerResponse_tiers_witness :
  (forall v, getPlayerResponse sampleHost scriptOnlyPage = Normal v
             <-> scanned sampleHost (scripts scriptOnlyPage) v)
  /\ (forall e, getPlayerResponse sampleHost scriptOnlyPage = Throw e ->
                Forall (unparsable sampleHost) (scripts scriptOnlyPage)).
Proof.
  apply (proj2 (proj2 (getPlayerResponse_tiers sampleHost scriptOnlyPage)));
    [reflexivity|].
  right; left.
  exists [], 1200%N,
    (MessageEvent true (VObj [("__YT_TR__", VBool true);
                              ("payload", VObj [("late", VBool true)])])), [].
  split; [reflexivity|]. split; [constructor|]. now apply N.leb_le.
Defined.

(** ** The message listener *)

Section ListenerFacts.

Variable h : host.

Lemma strictEqualsString_true v s : strictEqualsString v s = true -> v = VStr s.
Proof.
  destruct v; try discriminate. cbn. intros H. apply String.eqb_eq in H. now subst.
Qed.

(** C10: a message that is [null], or whose [action] is not
    [getTranscript], makes the listener start no aggregation, request
    nothing, send no response and return [undefined], so the channel is
    not kept open. *)
Theorem messageListener_other_action (pg : page) (msg : value) (w : world h) :
  (forall a, getProp msg "action" = Normal a -> a <> VStr "getTranscript") ->
  messageListener h pg msg w = ListenerRun VUndefined false None w.
Proof.
  intros H. unfold messageListener.
  destruct (getProp msg "action") as [a| |] eqn:E; try now rewrite andb_false_r.
  destruct (strictEqualsString a "getTranscript") eqn:Ea; [|now rewrite andb_false_r].
  apply strictEqualsString_true in Ea. now destruct (H a eq_refl).
Qed.

(** A request is answered: the listener runs the aggregator and returns
    [true]. *)
Lemma messageListener_request (pg : page) (msg : value) (w : world h) :
  getProp msg "action" = Normal (VStr "getTranscript") ->
  returned (messageListener h pg msg w) = VBool true
  /\ started (messageListener h pg msg w) = true
  /\ after (messageListener h pg msg w) = snd (getBestTranscript h pg w).
Proof.
  intros H. unfold messageListener. rewrite H.
  assert (truthy msg = true) as ->.
  { destruct msg; cbn in H; try discriminate H; reflexivity. }
  cbn [andb strictEqualsString]. rewrite String.eqb_refl.
  now destruct (getBestTranscript h pg w) as [[r|e|] w'].
Qed.

(** The listener returns [true] only for a request. *)
Lemma messageListener_true_only_request (pg : page) (msg : value) (w : world h) :
  returned (messageListener h pg msg w) = VBool true ->
  getProp msg "action" = Normal (VStr "getTranscript").
Proof.
  unfold messageListener. destruct (getProp msg "action") as [a| |] eqn:E;
    try (rewrite andb_false_r; discriminate).
  destruct (strictEqualsString a "getTranscript") eqn:Ea;
    [|rewrite andb_false_r; discriminate].
  apply strictEqualsString_true in Ea. now subst.
Qed.

End ListenerFacts.

Lemma messageListener_other_action_witness :
  messageListener sampleHost threeTrackPage (VObj [("action", VStr "ping")]) w0
  = ListenerRun VUndefined false None w0
  /\ messageListener sampleHost threeTrackPage VNull w0 = ListenerRun VUndefined false None w0.
Proof.
  split; apply messageListener_other_action.
  - intros a [= <-]. discriminate.
  - intros a [=].
Defined.

(** ** The script on the sample inputs *)

Example parseVTT_hello :
  parseVTT sampleHost helloVtt = Normal ["[1.5s] Hello world"; "[3723.5s] Bye"].
Proof. vm_compute. reflexivity. Qed.

Example parseJSON3_hello : parseJSON3 sampleHost helloJson3 = Normal ["[1.5s] hi"].
Proof. vm_compute. reflexivity. Qed.

Example parseJSON3_malformed : parseJSON3 sampleHost "{events" = Normal [].
Proof. vm_compute. reflexivity. Qed.

(** Numbers are printed with the fewest digits that read back. *)
Example Number_toString_samples :
  map (fun s => Number_toString (parseFloat s))
      ["1.50"; "3723.5"; "0"; "100"; "0.1"; "1e21"; "123456789012345680000";
       "0.000001"; "0.0000001"; "0.30000000000000004"; "-12.25"; "x"]
  = ["1.5"; "3723.5"; "0"; "100"; "0.1"; "1e+21"; "123456789012345680000";
     "0.000001"; "1e-7"; "0.30000000000000004"; "-12.25"; "NaN"].
Proof. vm_compute. reflexivity. Qed.

Example parseFloat_samples :
  map parseFloat ["03.500"; " 12px"; "-1.5e3"; ".5"; "1e400"]
  = [3.5; 12; -1500; 0.5; infinity]%float.
Proof. vm_compute. reflexivity. Qed.

Example vttTimeToSeconds_comma : vttTimeToSeconds "00:01:02,250 " = 62.25%float.
Proof. vm_compute. reflexivity. Qed.

(** The run on the page with three tracks: one section, for [en], and
    all three tracks listed; the requests are the two for [en] and the
    four for [fr]. *)
Example getBestTranscript_threeTrackPage :
  getBestTranscript sampleHost threeTrackPage w0
  = (Normal (AggregateResult "abc" [enTrack; frTrack; deTrack]
               ("--- Track: en (English) ---" ++ nl ++ "[1.5s] hi")),
     @World sampleHost tt
       [enUrl ++ "&fmt=vtt"; enUrl ++ "&fmt=json3";
        frUrl ++ "&fmt=vtt"; frUrl ++ "&fmt=json3"; frUrl ++ "&fmt=srv3"; frUrl]).
Proof. vm_compute. reflexivity. Qed.

Example getPlayerResponse_scriptOnlyPage :
  getPlayerResponse sampleHost scriptOnlyPage = Normal (VObj []).
Proof. vm_compute. reflexivity. Qed.

Example messageListener_request_sample :
  sent (messageListener sampleHost noTrackPage (VObj [("action", VStr "getTranscript")]) w0)
  = Some (ResponseFailure "No caption tracks found in player response").
Proof. vm_compute. reflexivity. Qed.

(** * Further properties *)

(** ** What the extractor returns *)

(** The loop, started inside an object, stops at the brace that brings
    the depth to zero, and not before. *)
Lemma scanBraces_shape s :
  forall i d e,
    (1 <= d)%Z -> scanBraces s i d = Some e ->
    exists body r,
      s = body ++ String closeBrace r /\ e = i + length body
      /\ (d + Z.of_nat (countChar openBrace body)
          = Z.of_nat (countChar closeBrace body) + 1)%Z
      /\ forall k, (Z.of_nat (countChar closeBrace (take k body))
                    < d + Z.of_nat (countChar openBrace (take k body)))%Z.
Proof.
  induction s as [|ch s IH]; intros i d e Hd H; [discriminate|].
  cbn [scanBraces] in H.
  destruct (Ascii.eqb ch openBrace) eqn:Eo.
  - apply Ascii.eqb_eq in Eo. subst ch.
    apply IH in H as (body & r & -> & -> & Hc & Hp); [|lia].
    exists (String openBrace body), r. cbn [append length countChar].
    change (Ascii.eqb openBrace openBrace) with true. cbv iota.
    change (Ascii.eqb openBrace closeBrace) with false. cbv iota.
    repeat split; try lia.
    intros [|k]; cbn [take countChar]; [lia|].
    change (Ascii.eqb openBrace openBrace) with true. cbv iota.
    change (Ascii.eqb openBrace closeBrace) with false. cbv iota.
    specialize (Hp k). lia.
  - destruct (Ascii.eqb ch closeBrace) eqn:Ec.
    + apply Ascii.eqb_eq in Ec. subst ch.
      destruct ((d - 1 =? 0)%Z) eqn:Ez.
      * injection H as <-. apply Z.eqb_eq in Ez.
        exists EmptyString, s. cbn. repeat split; try lia.
        intros k. destruct k; cbn; lia.
      * apply Z.eqb_neq in Ez.
        apply IH in H as (body & r & -> & -> & Hc & Hp); [|lia].
        exists (String closeBrace body), r. cbn [append length countChar].
        change (Ascii.eqb closeBrace closeBrace) with true. cbv iota.
        change (Ascii.eqb closeBrace openBrace) with false. cbv iota.
        repeat split; try lia.
        intros [|k]; cbn [take countChar]; [lia|].
        change (Ascii.eqb closeBrace closeBrace) with true. cbv iota.
        change (Ascii.eqb closeBrace openBrace) with false. cbv iota.
        specialize (Hp k). lia.
    + apply IH in H as (body & r & -> & -> & Hc & Hp); [|lia].
      exists (String ch body), r. cbn [append length countChar]. rewrite ?Eo, ?Ec. cbv iota.
      repeat split; try lia.
      intros [|k]; cbn [take countChar]; [lia|]. rewrite ?Eo, ?Ec. cbv iota.
      specialize (Hp k). lia.
Qed.

Lemma countChar_app c a b : countChar c (a ++ b) = countChar c a + countChar c b.
Proof.
  induction a as [|d a IH]; [reflexivity|]. cbn. rewrite IH. lia.
Qed.

Lemma take_app_le a b : forall k, k <= length a -> take k (a ++ b) = take k a.
Proof.
  induction a as [|c a IH]; intros [|k] H; cbn in *; try reflexivity; try lia.
  rewrite IH; [reflexivity|lia].
Qed.

Lemma take_app_length a b : take (length a) (a ++ b) = a.
Proof. induction a as [|c a IH]; [now destruct b|]. cbn. now rewrite IH. Qed.

(** X1: whatever the extractor returns is a piece of the text that lies
    at or after the first occurrence of the variable name, begins with
    an opening brace and ends with a closing brace, has as many opening
    as closing braces, and has no shorter beginning with that property:
    in every proper non-empty beginning the opening braces outnumber the
    closing ones. *)
Theorem extractJSON_result_shape (text varName j : string) :
  extractJSONFromScriptText text varName = Some j ->
  exists pre body post idx,
    text = pre ++ j ++ post
    /\ indexOf varName text 0 = Some idx /\ idx <= length pre
    /\ j = String openBrace (body ++ String closeBrace EmptyString)
    /\ countChar openBrace j = countChar closeBrace j
    /\ forall k, 0 < k < length j ->
                 countChar closeBrace (take k j) < countChar openBrace (take k j).
Proof.
  unfold extractJSONFromScriptText.
  destruct (indexOf varName text 0) as [idx|] eqn:Ei; [|discriminate].
  destruct (indexOf "{" text idx) as [b|] eqn:Eb; [|discriminate].
  destruct (scanBraces (drop b text) b 0) as [e|] eqn:Es; [|discriminate].
  intros [= <-].
  destruct (prefix_char _ _ (indexOf_prefix _ _ _ _ Eb)) as [rest Hrest].
  rewrite Hrest in Es. cbn [scanBraces] in Es.
  change (Ascii.eqb "{" openBrace) with true in Es. cbv iota in Es.
  apply scanBraces_shape in Es as (body & r & Hr & He & Hc & Hp); [|lia].
  assert (b < length text) as Hb.
  { assert (length (drop b text) = length text - b) as Hl.
    { clear. revert b. induction text as [|c t IH]; intros [|b]; cbn; try reflexivity.
      apply IH. }
    rewrite Hrest in Hl. cbn in Hl. lia. }
  assert (slice text b (e + 1)
          = String openBrace (body ++ String closeBrace EmptyString)) as Hj.
  { unfold slice. rewrite Hrest, He.
    replace (S b + length body + 1 - b) with (S (S (length body))) by lia.
    change (take (S (S (length body))) (String "{" rest))
      with (String "{" (take (S (length body)) rest)).
    f_equal. rewrite Hr.
    replace (S (length body)) with (length (body ++ String closeBrace EmptyString))
      by (rewrite length_append; cbn; lia).
    change (String closeBrace r) with (String closeBrace EmptyString ++ r).
    rewrite <- append_assoc. now rewrite take_app_length. }
  exists (take b text), body, r, idx. rewrite Hj.
  split.
  { rewrite <- (take_drop text b) at 1. f_equal. rewrite Hrest, Hr.
    cbn [append]. f_equal. rewrite append_assoc. reflexivity. }
  split; [reflexivity|]. split.
  { rewrite length_take by lia.
    destruct (indexOf_found _ _ _ _ Eb) as [H|H]; lia. }
  split; [reflexivity|]. split.
  { cbn [countChar]. rewrite !countChar_app. cbn [countChar].
    change (Ascii.eqb openBrace openBrace) with true. cbv iota.
    change (Ascii.eqb openBrace closeBrace) with false. cbv iota.
    change (Ascii.eqb closeBrace closeBrace) with true. cbv iota.
    change (Ascii.eqb closeBrace openBrace) with false. cbv iota. lia. }
  intros k Hk. cbn [length] in Hk. rewrite length_append in Hk. cbn [length] in Hk.
  destruct k as [|k]; [lia|]. cbn [take countChar].
  change (Ascii.eqb openBrace openBrace) with true. cbv iota.
  change (Ascii.eqb openBrace closeBrace) with false. cbv iota.
  rewrite take_app_le by lia. specialize (Hp k). lia.
Qed.

Lemma extractJSON_result_shape_witness :
  exists pre body post idx,
    nestedScript = pre ++ String openBrace (body ++ String closeBrace EmptyString) ++ post
    /\ indexOf "ytInitialPlayerResponse" nestedScript 0 = Some idx
    /\ idx <= length pre.
Proof.
  destruct (extractJSON_result_shape nestedScript "ytInitialPlayerResponse" _ eq_refl)
    as (pre & body & post & idx & Ht & Hi & Hl & Hj & _).
  exists pre, body, post, idx. rewrite <- Hj. now split.
Defined.

(** ** What [parseVTT] makes of a text in blocks *)

Lemma nth_error_middle {A} (pre : list A) x rest :
  nth_error (pre ++ x :: rest)%list (List.length pre) = Some x.
Proof. induction pre as [|p pre IH]; [reflexivity|exact IH]. Qed.

Lemma lineAt_middle pre x rest :
  lineAt (pre ++ x :: rest)%list (List.length pre) = Normal x.
Proof. unfold lineAt. now rewrite nth_error_middle. Qed.

Lemma ltb_middle {A} (pre : list A) x rest :
  Nat.ltb (List.length pre) (List.length (pre ++ x :: rest)%list) = true.
Proof. apply Nat.ltb_lt. rewrite length_app. cbn. lia. Qed.

Lemma ltb_end {A} (pre : list A) :
  Nat.ltb (List.length pre) (List.length (pre ++ [])%list) = false.
Proof. apply Nat.ltb_ge. rewrite app_nil_r. lia. Qed.

Lemma snoc_app {A} (pre : list A) x rest :
  (pre ++ x :: rest = (pre ++ [x]) ++ rest)%list.
Proof. now rewrite <- app_assoc. Qed.

Lemma length_snoc {A} (pre : list A) x : List.length (pre ++ [x])%list = S (List.length pre).
Proof. rewrite length_app. cbn. lia. Qed.

Lemma blank_noArrow l : isBlank l = true -> noArrow l = true.
Proof.
  unfold isBlank, noArrow. destruct (trim l); [reflexivity|discriminate].
Qed.

Lemma not_blank_solid l : isBlank l = false -> isEmpty l = false.
Proof. destruct l; [discriminate|reflexivity]. Qed.

(** The inner loop takes the lines up to the first blank one, or up to
    the end. *)
Lemma cueTextLoop_lines ts :
  forall pre rest fuel acc,
    forallb (fun l => negb (isBlank l)) ts = true ->
    match rest with [] => true | g :: _ => isBlank g end = true ->
    List.length ts < fuel ->
    cueTextLoop fuel (pre ++ ts ++ rest)%list (List.length pre) acc
    = Normal (List.length pre + List.length ts,
              fold_left (fun acc l => acc ++ (if isEmpty acc then EmptyString
                                              else String LF EmptyString) ++ l) ts acc).
Proof.
  induction ts as [|t ts IH]; intros pre rest fuel acc Hts Hrest Hfuel;
    (destruct fuel as [|fuel]; [cbn in Hfuel; lia|]); cbn [cueTextLoop app fold_left].
  - destruct rest as [|g rest].
    + rewrite ltb_end. now rewrite Nat.add_0_r.
    + rewrite ltb_middle, lineAt_middle. cbn [bindC].
      unfold isBlank in Hrest. rewrite Hrest. now rewrite Nat.add_0_r.
  - cbn [forallb] in Hts. apply andb_true_iff in Hts as [Ht Hts].
    apply negb_true_iff in Ht. unfold isBlank in Ht.
    rewrite ltb_middle, lineAt_middle. cbn [bindC]. rewrite Ht.
    rewrite (snoc_app pre t), <- (length_snoc pre t).
    rewrite IH by (try assumption; cbn in Hfuel; lia).
    rewrite length_snoc. cbn [List.length]. f_equal. f_equal. lia.
Qed.

(** The outer loop passes over lines without an arrow. *)
Lemma parseVTTLoop_skip h sk :
  forall pre rest fuel cues,
    forallb noArrow sk = true ->
    List.length sk <= fuel ->
    parseVTTLoop h fuel (pre ++ sk ++ rest)%list (List.length pre) cues
    = parseVTTLoop h (fuel - List.length sk) (pre ++ sk ++ rest)%list
        (List.length pre + List.length sk) cues.
Proof.
  induction sk as [|s sk IH]; intros pre rest fuel cues Hsk Hfuel.
  - cbn. now rewrite Nat.sub_0_r, Nat.add_0_r.
  - destruct fuel as [|fuel]; [cbn in Hfuel; lia|].
    cbn [forallb] in Hsk. apply andb_true_iff in Hsk as [Hs Hsk].
    unfold noArrow in Hs. apply negb_true_iff in Hs.
    cbn [parseVTTLoop app]. rewrite ltb_middle, lineAt_middle. cbn [bindC]. rewrite Hs.
    rewrite (snoc_app pre s), <- (length_snoc pre s).
    rewrite IH by (try assumption; cbn in Hfuel; lia).
    rewrite length_snoc. cbn [List.length]. f_equal; lia.
Qed.

Lemma gather_from acc ts :
  isEmpty acc = false ->
  forallb (fun l => negb (isBlank l)) ts = true ->
  fold_left (fun acc l => acc ++ (if isEmpty acc then EmptyString
                                  else String LF EmptyString) ++ l) ts acc
  = join (String LF EmptyString) (acc :: ts).
Proof.
  revert acc. induction ts as [|t ts IH]; intros acc Hacc Hts; [reflexivity|].
  cbn [forallb] in Hts. apply andb_true_iff in Hts as [Ht Hts].
  cbn [fold_left]. rewrite Hacc. rewrite IH; [|now destruct acc|exact Hts].
  unfold join. cbn [concat]. destruct ts as [|u us].
  - reflexivity.
  - now rewrite !append_assoc.
Qed.

Lemma gatherText_join ts :
  forallb (fun l => negb (isBlank l)) ts = true ->
  gatherText ts = join (String LF EmptyString) ts.
Proof.
  unfold gatherText. destruct ts as [|t ts]; [reflexivity|]. intros H.
  cbn [fold_left isEmpty append]. apply gather_from.
  - cbn [forallb] in H. apply andb_true_iff in H as [Ht _].
    apply negb_true_iff in Ht. now apply not_blank_solid.
  - cbn [forallb] in H. now apply andb_true_iff in H as [_ H].
Qed.

Lemma gap_noArrow b : wellFormedBlock b = true -> forallb noArrow (gap b) = true.
Proof.
  unfold wellFormedBlock. intros H. apply andb_true_iff in H as [_ H].
  destruct (gap b) as [|g gs]; [reflexivity|].
  apply andb_true_iff in H as [Hg Hgs]. cbn [forallb].
  now rewrite (blank_noArrow g Hg).
Qed.

Lemma cueTextLoop_at lines i ts pre rest fuel acc :
  lines = (pre ++ ts ++ rest)%list -> i = List.length pre ->
  forallb (fun l => negb (isBlank l)) ts = true ->
  match rest with [] => true | g :: _ => isBlank g end = true ->
  List.length ts < fuel ->
  cueTextLoop fuel lines i acc
  = Normal (i + List.length ts,
            fold_left (fun acc l => acc ++ (if isEmpty acc then EmptyString
                                            else String LF EmptyString) ++ l) ts acc).
Proof. intros -> ->. apply cueTextLoop_lines. Qed.

Lemma parseVTTLoop_skip_at h lines i sk pre rest fuel cues :
  lines = (pre ++ sk ++ rest)%list -> i = List.length pre ->
  forallb noArrow sk = true ->
  List.length sk <= fuel ->
  parseVTTLoop h fuel lines i cues
  = parseVTTLoop h (fuel - List.length sk) lines (i + List.length sk) cues.
Proof. intros -> ->. apply parseVTTLoop_skip. Qed.

Lemma parseVTTLoop_blocks h blocks :
  forall lines i pre fuel cues,
    lines = (pre ++ flat_map blockLines blocks)%list -> i = List.length pre ->
    forallb wellFormedBlock blocks = true ->
    separated blocks = true ->
    List.length (flat_map blockLines blocks) < fuel ->
    parseVTTLoop h fuel lines i cues = Normal (cues ++ map (blockCue h) blocks)%list.
Proof.
  induction blocks as [|b bs IH]; intros lines i pre fuel cues Hl Hi Hwf Hsep Hfuel;
    (destruct fuel as [|fuel]; [cbn in Hfuel; lia|]).
  - subst. cbn [flat_map parseVTTLoop map]. rewrite ltb_end. now rewrite app_nil_r.
  - cbn [forallb] in Hwf. apply andb_true_iff in Hwf as [Hb Hbs].
    pose proof (gap_noArrow b Hb) as Hgap.
    unfold wellFormedBlock in Hb.
    apply andb_true_iff in Hb as [Hb Hg]. apply andb_true_iff in Hb as [Harrow Htext].
    cbn [flat_map] in Hl, Hfuel. unfold blockLines at 1 in Hfuel.
    unfold blockLines at 1 in Hl. cbn [app] in Hl.
    rewrite !length_app in Hfuel. cbn [List.length] in Hfuel. rewrite !length_app in Hfuel.
    cbn [parseVTTLoop].
    assert (Nat.ltb i (List.length lines) = true) as -> by (subst; apply ltb_middle).
    assert (lineAt lines i = Normal (timeLine b)) as -> by (subst; apply lineAt_middle).
    cbn [bindC]. rewrite Harrow.
    destruct (split_head (trim (timeLine b)) "-->") as (p & ps & Hsplit).
    rewrite Hsplit. cbn [nth_error bindC].
    rewrite (cueTextLoop_at lines (S i) (textLines b) (pre ++ [timeLine b])
               (gap b ++ flat_map blockLines bs));
      [|rewrite Hl, <- !app_assoc; reflexivity|now rewrite length_snoc, Hi|exact Htext| |lia].
    2:{ destruct (gap b) as [|g gs] eqn:Eg.
        - cbn [app]. destruct bs as [|b' bs']; [reflexivity|].
          cbn [separated] in Hsep. rewrite Eg in Hsep. discriminate Hsep.
        - cbn [app]. now apply andb_true_iff in Hg as [Hg _]. }
    cbn [bindC].
    rewrite (parseVTTLoop_skip_at h lines _ (gap b)
               ((pre ++ [timeLine b]) ++ textLines b) (flat_map blockLines bs));
      [|rewrite Hl, <- !app_assoc; reflexivity
       |rewrite !length_app; cbn [List.length]; lia|exact Hgap|lia].
    rewrite (IH lines _ (((pre ++ [timeLine b]) ++ textLines b) ++ gap b)%list);
      [|rewrite Hl, <- !app_assoc; reflexivity
       |rewrite !length_app; cbn [List.length]; lia|exact Hbs| |lia].
    2:{ destruct bs as [|b' bs']; [reflexivity|]. cbn in Hsep.
        now apply andb_true_iff in Hsep as [_ Hsep]. }
    rewrite <- app_assoc. cbn [map app]. unfold blockCue at 2.
    rewrite Hsplit. cbn [hd].
    fold (gatherText (textLines b)). now rewrite gatherText_join.
Qed.

(** X2: a text whose lines are some lines without an arrow followed by
    blocks, each a line with an arrow, then lines that are not blank,
    then (between two blocks always) a blank line and further lines
    without an arrow, is parsed into one cue per block, in order: the
    start time read from what stands before the arrow, and the text
    lines of the block joined, decoded and put on one line. *)
Theorem parseVTT_blocks (h : host) (text : string)
    (header : list string) (blocks : list vttBlock) :
  forallb noArrow header = true ->
  forallb wellFormedBlock blocks = true ->
  separated blocks = true ->
  vttLines text = (header ++ flat_map blockLines blocks)%list ->
  parseVTT h text = Normal (map (blockCue h) blocks).
Proof.
  intros Hh Hwf Hsep Hlines. unfold parseVTT.
  rewrite (parseVTTLoop_skip_at h _ 0 header [] (flat_map blockLines blocks));
    [|exact Hlines|reflexivity|exact Hh|rewrite Hlines, length_app; lia].
  apply (parseVTTLoop_blocks h blocks _ _ header); try assumption; [reflexivity|].
  rewrite Hlines, length_app. lia.
Qed.

Lemma parseVTT_blocks_witness :
  parseVTT sampleHost helloVtt
  = Normal (map (blockCue sampleHost)
              [VttBlock "00:00:01.500 --> 00:00:03.000" ["Hello"; "world"] [EmptyString];
               VttBlock "01:02:03.500 --> 01:02:05.000" ["Bye"] []]).
Proof.
  apply (parseVTT_blocks sampleHost helloVtt ["WEBVTT"; EmptyString]); reflexivity.
Defined.

(** ** Bounds on what [parseVTT] returns *)

Lemma arrowLines_skipn_le lines :
  forall i j, i <= j ->
    List.length (arrowLines (skipn j lines)) <= List.length (arrowLines (skipn i lines)).
Proof.
  induction lines as [|l lines IH]; intros i j Hij.
  - now rewrite !skipn_nil.
  - destruct i as [|i].
    + destruct j as [|j]; [lia|]. cbn [skipn].
      specialize (IH 0 j (Nat.le_0_l j)). cbn [skipn] in IH.
      unfold arrowLines in *. cbn [filter].
      destruct (includes (trim l) "-->"); cbn [List.length]; lia.
    + destruct j as [|j]; [lia|]. cbn [skipn]. apply IH. lia.
Qed.

Lemma arrowLines_skipn_arrow lines :
  forall i l, nth_error lines i = Some l -> includes (trim l) "-->" = true ->
    List.length (arrowLines (skipn i lines))
    = S (List.length (arrowLines (skipn (S i) lines))).
Proof.
  induction lines as [|x lines IH]; intros i l Hn Hl.
  - now destruct i.
  - destruct i as [|i].
    + injection Hn as ->. cbn [skipn]. unfold arrowLines. cbn [filter]. now rewrite Hl.
    + apply (IH i l Hn Hl).
Qed.

Lemma cueTextLoop_index fuel lines :
  forall i acc i' txt, cueTextLoop fuel lines i acc = Normal (i', txt) -> i <= i'.
Proof.
  induction fuel as [|fuel IH]; intros i acc i' txt H; [discriminate|].
  cbn [cueTextLoop] in H. destruct (Nat.ltb i (List.length lines)).
  - destruct (lineAt lines i) as [l| |]; cbn [bindC] in H; try discriminate.
    destruct (isEmpty (trim l)).
    + injection H as <- _. lia.
    + apply IH in H. lia.
  - injection H as <- _. lia.
Qed.

Lemma parseVTTLoop_count h fuel lines :
  forall i cues out,
    parseVTTLoop h fuel lines i cues = Normal out ->
    List.length out <= List.length cues + List.length (arrowLines (skipn i lines)).
Proof.
  induction fuel as [|fuel IH]; intros i cues out H; [discriminate|].
  cbn [parseVTTLoop] in H. destruct (Nat.ltb i (List.length lines)).
  - unfold lineAt in H. destruct (nth_error lines i) as [l|] eqn:En;
      cbn [bindC] in H; [|discriminate].
    destruct (includes (trim l) "-->") eqn:Ea.
    + destruct (nth_error (split (trim l) "-->") 0); cbn [bindC] in H; [|discriminate].
      destruct (cueTextLoop fuel lines (S i) EmptyString) as [[i' txt]| |] eqn:Ec;
        cbn [bindC] in H; try discriminate.
      apply cueTextLoop_index in Ec. apply IH in H. rewrite length_app in H.
      cbn [List.length] in H.
      rewrite (arrowLines_skipn_arrow lines i l En Ea).
      pose proof (arrowLines_skipn_le lines (S i) i' Ec). lia.
    + apply IH in H. pose proof (arrowLines_skipn_le lines i (S i)). lia.
  - injection H as <-. lia.
Qed.

(** The lines before the first one with an arrow. *)
Lemma first_arrow lines :
  arrowLines lines <> [] ->
  exists pre l rest,
    lines = (pre ++ l :: rest)%list /\ forallb noArrow pre = true
    /\ includes (trim l) "-->" = true.
Proof.
  induction lines as [|x lines IH]; [intros H; now contradiction H|].
  unfold arrowLines in *. cbn [filter].
  destruct (includes (trim x) "-->") eqn:E.
  - intros _. now exists [], x, lines.
  - intros H. destruct (IH H) as (pre & l & rest & -> & Hpre & Hl).
    exists (x :: pre), l, rest. cbn [forallb]. unfold noArrow at 1. rewrite E.
    now repeat split.
Qed.

(** The first line with an arrow always gives a cue. *)
Lemma parseVTT_first_arrow h text :
  arrowLines (vttLines text) <> [] ->
  exists c cs, parseVTT h text = Normal (c :: cs).
Proof.
  intros H. destruct (first_arrow _ H) as (pre & l & rest & Hl & Hpre & Harrow).
  unfold parseVTT.
  rewrite (parseVTTLoop_skip_at h _ 0 pre [] (l :: rest));
    [|exact Hl|reflexivity|exact Hpre|rewrite Hl, length_app; lia].
  remember (S (List.length rest)) as f eqn:Ef.
  assert (S (List.length (vttLines text)) - List.length pre = S f) as ->
    by (rewrite Hl, length_app; cbn [List.length]; lia).
  cbn [Nat.add].
  cbn [parseVTTLoop].
  assert (Nat.ltb (List.length pre) (List.length (vttLines text)) = true) as ->
    by (rewrite Hl; apply ltb_middle).
  assert (lineAt (vttLines text) (List.length pre) = Normal l) as ->
    by (rewrite Hl; apply lineAt_middle).
  cbn [bindC]. rewrite Harrow.
  destruct (split_head (trim l) "-->") as (p & ps & ->). cbn [nth_error bindC].
  destruct (cueTextLoop_total f (vttLines text)
              (S (List.length pre)) EmptyString) as (i' & t' & -> & Hle).
  { rewrite Hl, length_app. cbn [List.length]. lia. }
  cbn [bindC app].
  destruct (parseVTTLoop_total h f (vttLines text) i'
              [cueLine (vttTimeToSeconds p)
                 (trim (collapseNewlines (decodeHtmlEntities h t')))])
    as (more & -> & _).
  { rewrite Hl, length_app. cbn [List.length]. lia. }
  cbn [app]. now eexists _, _.
Qed.

(** X3: on every text [parseVTT] returns cues, at most one per line
    that has an arrow, and each cue begins with a bracket; it returns
    no cue exactly when no line has an arrow. *)
Theorem parseVTT_cue_bound (h : host) (text : string) :
  exists cues,
    parseVTT h text = Normal cues
    /\ List.length cues <= List.length (arrowLines (vttLines text))
    /\ Forall bracketed cues
    /\ (cues = [] <-> arrowLines (vttLines text) = []).
Proof.
  destruct (parseVTT_total h text) as (cues & H & Hb). exists cues.
  split; [exact H|].
  assert (List.length cues <= List.length (arrowLines (vttLines text))) as Hle.
  { unfold parseVTT in H. apply parseVTTLoop_count in H. exact H. }
  split; [exact Hle|]. split; [exact Hb|]. split.
  - intros ->. destruct (arrowLines (vttLines text)) as [|a l] eqn:E; [reflexivity|].
    destruct (parseVTT_first_arrow h text) as (c & cs & Hc); [now rewrite E|].
    rewrite Hc in H. discriminate H.
  - intros E. rewrite E in Hle. destruct cues; [reflexivity|cbn in Hle; lia].
Qed.

Lemma removeAll_app c a b : removeAll c (a ++ b) = removeAll c a ++ removeAll c b.
Proof.
  induction a as [|d a IH]; [reflexivity|]. cbn [append removeAll].
  destruct (Ascii.eqb c d); [exact IH|]. cbn [append]. now rewrite IH.
Qed.

Lemma removeAll_idempotent c s : removeAll c (removeAll c s) = removeAll c s.
Proof.
  induction s as [|d s IH]; [reflexivity|]. cbn [removeAll].
  destruct (Ascii.eqb c d) eqn:E; [exact IH|]. cbn [removeAll]. now rewrite E, IH.
Qed.

(** X4: [parseVTT] does not see carriage returns: a line ending of
    carriage return and line feed is read as a line feed alone, and a
    text stripped of its carriage returns gives the same cues. *)
Theorem parseVTT_line_endings (h : host) (a b : string) :
  parseVTT h (a ++ String CR (String LF b)) = parseVTT h (a ++ String LF b)
  /\ parseVTT h (removeAll CR a) = parseVTT h a.
Proof.
  unfold parseVTT, vttLines. split.
  - rewrite !removeAll_app. cbn [removeAll].
    change (Ascii.eqb CR CR) with true. cbv iota. reflexivity.
  - now rewrite removeAll_idempotent.
Qed.

(** ** What [parseJSON3] returns *)

Lemma mapC_throws_at {A B} (f : A -> completion B) (l : list A) :
  (forall a, f a <> Unfinished) ->
  (exists a, In a l /\ exists e, f a = Throw e) ->
  exists e, mapC f l = Throw e.
Proof.
  intros Hfin. induction l as [|a l IH]; intros (x & Hin & e & He); [contradiction|].
  cbn [mapC]. destruct Hin as [->|Hin].
  - rewrite He. now exists e.
  - specialize (Hfin a). destruct (f a) as [b|e'|]; cbn [bindC];
      [|now exists e'|contradiction].
    destruct IH as [e' ->]; [now exists x; split; [|exists e]|]. now exists e'.
Qed.

Lemma eventSegments_object props :
  eventSegments (VObj props)
  = Normal (orElse (lookup "segs" props) (orElse (lookup "a" props) (VArr []))).
Proof.
  unfold eventSegments, orElse. cbn [getProp bindC].
  now destruct (truthy (lookup "segs" props)).
Qed.

Lemma orElse_array_truthy a b : truthy (orElse a (orElse b (VArr []))) = true.
Proof.
  unfold orElse. destruct (truthy a) eqn:Ea; [exact Ea|].
  now destruct (truthy b) eqn:Eb.
Qed.

Section Json3Shape.

Variable h : host.

Lemma eventCue_malformed ev :
  malformedEvent ev = true -> exists e, eventCue h ev = Throw e.
Proof.
  destruct ev as [| | | | | |props]; try discriminate;
    try (intros _; eexists; reflexivity).
  cbn [malformedEvent]. intros H. unfold eventCue.
  pose proof (eventStart_finished (VObj props)) as Hs.
  destruct (eventStart (VObj props)) as [start|e|]; cbn [bindC];
    [|now exists e|contradiction].
  rewrite eventSegments_object. cbn [bindC].
  pose proof (orElse_array_truthy (lookup "segs" props) (lookup "a" props)) as Ht.
  destruct (orElse (lookup "segs" props) (orElse (lookup "a" props) (VArr [])))
    as [| | | | |segs|]; try discriminate Ht; try (eexists; reflexivity).
  cbn [arrayMap].
  destruct (mapC_throws_at segmentText segs segmentText_finished) as [e ->];
    [|now exists e].
  apply existsb_exists in H as (s & Hin & Hs'). exists s. split; [exact Hin|].
  destruct s; try discriminate Hs'; eexists; reflexivity.
Qed.

(** X5: [parseJSON3] returns all or nothing: on every text it returns
    either no cue, or one cue per element of the array [events] of the
    parsed text, in order, each the cue the callback makes of its
    event. *)
Theorem parseJSON3_all_or_nothing (text : string) :
  exists cues,
    parseJSON3 h text = Normal cues
    /\ (cues = []
        \/ exists obj events,
             JSON_parse h text = Returns obj
             /\ getProp obj "events" = Normal (VArr events)
             /\ Forall2 (fun ev c => eventCue h ev = Normal c) events cues).
Proof.
  eexists. split; [apply parseJSON3_total|].
  unfold parseJSON3Body. destruct (JSON_parse h text) as [obj|e] eqn:Ep;
    cbn [ofHost bindC]; [|now left].
  destruct (getProp obj "events") as [ev| |] eqn:Eg; cbn [bindC]; try (now left).
  destruct (negb (truthy ev) || negb (isArray ev)); [now left|].
  destruct ev as [| | | | |events|]; cbn [arrayMap]; try (now left).
  destruct (mapC (eventCue h) events) as [cues| |] eqn:Em; try (now left).
  right. exists obj, events. split; [reflexivity|]. split; [exact Eg|].
  now apply mapC_Forall2.
Qed.

(** X6: one malformed event spoils the whole text: when an element of
    [events] is [null] or [undefined], or has segments that are not an
    array, or has a segment that is [null] or [undefined], [parseJSON3]
    returns no cue at all, whatever the other events hold. *)
Theorem parseJSON3_malformed_event (text : string) (obj : value) (events : list value) :
  JSON_parse h text = Returns obj ->
  getProp obj "events" = Normal (VArr events) ->
  existsb malformedEvent events = true ->
  parseJSON3 h text = Normal [].
Proof.
  intros Hp Hg Hbad. rewrite parseJSON3_total. unfold parseJSON3Body.
  rewrite Hp. cbn [ofHost bindC]. rewrite Hg. cbn [bindC truthy isArray negb orb arrayMap].
  apply existsb_exists in Hbad as (ev & Hin & Hev).
  destruct (mapC_throws_at (eventCue h) events (eventCue_finished h)) as [e ->];
    [|reflexivity].
  exists ev. split; [exact Hin|]. now apply eventCue_malformed.
Qed.

Lemma segmentText_utf8 s p :
  getProp s "utf8" = Normal (VStr p) -> isEmpty p = false ->
  segmentText s = Normal (VStr p).
Proof.
  intros Hg Hp. unfold segmentText. rewrite Hg. cbn [bindC truthy]. now rewrite Hp.
Qed.

Lemma mapC_Forall2_intro {A B} (f : A -> completion B) (l : list A) (bs : list B) :
  Forall2 (fun a b => f a = Normal b) l bs -> mapC f l = Normal bs.
Proof.
  induction 1 as [|a b l bs Hab _ IH]; [reflexivity|].
  cbn [mapC]. rewrite Hab. cbn [bindC]. now rewrite IH.
Qed.

(** X7: the cue of an event with a numeric [tStartMs] and an array
    [segs] whose segments carry non-empty [utf8] strings: the start is
    [tStartMs] divided by 1000, and the text is the strings put together
    without separator, white space runs turned into one space, trimmed
    and then decoded. *)
Theorem eventCue_utf8 (ev : value) (ms : float) (segs : list value) (pieces : list string) :
  getProp ev "tStartMs" = Normal (VNum ms) ->
  getProp ev "segs" = Normal (VArr segs) ->
  Forall2 (fun s p => getProp s "utf8" = Normal (VStr p) /\ isEmpty p = false)
          segs pieces ->
  eventCue h ev
  = Normal (cueLine (ms / 1000)
              (decodeHtmlEntities h
                 (trim (collapseWhiteSpace (join EmptyString pieces))))).
Proof.
  intros Hs Hg Hsegs. unfold eventCue, eventStart, eventSegments.
  rewrite Hs, Hg. unfold asNumber.
  cbn [bindC isUndefined negb truthy convertible ToNumber arrayMap].
  rewrite (mapC_Forall2_intro segmentText segs (map VStr pieces)).
  - cbn [bindC]. rewrite (mapC_map pieceText ToString) by (intros p Hp;
      apply in_map_iff in Hp as (x & <- & _); reflexivity).
    cbn [bindC]. rewrite map_map. cbn [ToString]. now rewrite map_id.
  - clear Hs Hg. induction Hsegs as [|s p segs pieces [Hu Hp] _ IH]; cbn [map];
      constructor; [|exact IH].
    now apply segmentText_utf8.
Qed.

End Json3Shape.

Lemma parseJSON3_malformed_event_witness :
  parseJSON3
    (Host unit sampleFetch (fun s => s) (fun _ => XElement "parsererror" [] [])
       (fun _ => Returns (VObj [("events", VArr (silentEvents ++ [VNull]))])))
    "{}"
  = Normal [].
Proof.
  apply (parseJSON3_malformed_event _ "{}"
           (VObj [("events", VArr (silentEvents ++ [VNull]))])
           (silentEvents ++ [VNull])); reflexivity.
Defined.

Lemma eventCue_utf8_witness :
  eventCue sampleHost
    (VObj [("tStartMs", VNum 1500);
           ("segs", VArr [VObj [("utf8", VStr "hi")]; VObj [("utf8", VStr " there")]])])
  = Normal (cueLine (1500 / 1000)
              (decodeHtmlEntities sampleHost
                 (trim (collapseWhiteSpace (join EmptyString ["hi"; " there"]))))).
Proof.
  apply (eventCue_utf8 sampleHost _ 1500
           [VObj [("utf8", VStr "hi")]; VObj [("utf8", VStr " there")]]
           ["hi"; " there"]); [reflexivity|reflexivity|].
  repeat constructor.
Defined.

(** ** Cue times off the beaten path *)

Lemma indexOfAux_first c a b :
  forall i, allChars (fun d => negb (Ascii.eqb d c)) a = true ->
            indexOfAux (String c EmptyString) (a ++ String c b) i = Some (i + length a).
Proof.
  induction a as [|d a IH]; intros i H.
  - cbn [append indexOfAux]. rewrite prefix_head_eq, prefix_empty. cbn. now rewrite Nat.add_0_r.
  - cbn [allChars] in H. apply andb_true_iff in H as [Hd Ha].
    apply negb_true_iff, Ascii.eqb_neq in Hd.
    cbn [append indexOfAux]. rewrite prefix_head_ne by congruence.
    rewrite IH by exact Ha. cbn [length]. f_equal. lia.
Qed.

Lemma drop_app_length a b : drop (length a) (a ++ b) = b.
Proof. induction a as [|c a IH]; [reflexivity|exact IH]. Qed.

Lemma replaceFirst_first c rep a b :
  allChars (fun d => negb (Ascii.eqb d c)) a = true ->
  replaceFirst (a ++ String c b) (String c EmptyString) rep = a ++ rep ++ b.
Proof.
  intros H. unfold replaceFirst, indexOf. cbn [Nat.min drop].
  rewrite indexOfAux_first by exact H. cbn [Nat.add length].
  rewrite take_app_length.
  assert (drop (length a + 1) (a ++ String c b) = b) as ->; [|reflexivity].
  change (String c b) with (String c EmptyString ++ b).
  rewrite <- (append_assoc a (String c EmptyString) b).
  replace (length a + 1) with (length (a ++ String c EmptyString))
    by (rewrite length_append; reflexivity).
  apply drop_app_length.
Qed.

(** A string has no [c], or a first one. *)
Lemma first_occurrence c s :
  allChars (fun d => negb (Ascii.eqb d c)) s = true
  \/ exists a b, s = a ++ String c b
                 /\ allChars (fun d => negb (Ascii.eqb d c)) a = true.
Proof.
  induction s as [|d s IH]; [now left|].
  destruct (Ascii.eqb d c) eqn:E.
  - apply Ascii.eqb_eq in E. subst d. right. now exists EmptyString, s.
  - destruct IH as [H|(a & b & -> & Ha)].
    + left. cbn [allChars]. now rewrite E, H.
    + right. exists (String d a), b. split; [reflexivity|].
      cbn [allChars]. now rewrite E, Ha.
Qed.

Lemma white_not_comma c : isWhiteSpace c = true -> negb (Ascii.eqb c ",") = true.
Proof. intros H. digit_cases c H; reflexivity. Qed.

Lemma trimStart_white_app ws s :
  allChars isWhiteSpace ws = true -> trimStart (ws ++ s) = trimStart s.
Proof.
  induction ws as [|c ws IH]; [reflexivity|].
  cbn [allChars append trimStart]. intros H. apply andb_true_iff in H as [-> Hws].
  now apply IH.
Qed.

Lemma trimEnd_white ws : allChars isWhiteSpace ws = true -> trimEnd ws = EmptyString.
Proof.
  induction ws as [|c ws IH]; [reflexivity|].
  cbn [allChars trimEnd]. intros H. apply andb_true_iff in H as [-> Hws].
  now rewrite IH.
Qed.

Lemma trimEnd_app_white s ws :
  allChars isWhiteSpace ws = true -> trimEnd (s ++ ws) = trimEnd s.
Proof.
  intros H. induction s as [|c s IH]; [now apply trimEnd_white|].
  cbn [append trimEnd]. now rewrite IH.
Qed.

Lemma trimStart_app_white s ws :
  allChars isWhiteSpace ws = true ->
  trimEnd (trimStart (s ++ ws)) = trimEnd (trimStart s).
Proof.
  intros H. induction s as [|c s IH].
  - cbn [append]. rewrite <- (append_empty_r ws), trimStart_white_app by exact H.
    reflexivity.
  - cbn [append trimStart]. destruct (isWhiteSpace c); [exact IH|].
    change (String c (s ++ ws)) with (String c s ++ ws). now apply trimEnd_app_white.
Qed.

(** White space on either side does not count for [trim]. *)
Lemma trim_padding ws1 s ws2 :
  allChars isWhiteSpace ws1 = true -> allChars isWhiteSpace ws2 = true ->
  trim (ws1 ++ s ++ ws2) = trim s.
Proof.
  intros H1 H2. unfold trim. rewrite trimStart_white_app by exact H1.
  now apply trimStart_app_white.
Qed.

Lemma replaceFirst_padding ws1 s ws2 :
  allChars isWhiteSpace ws1 = true -> allChars isWhiteSpace ws2 = true ->
  replaceFirst (ws1 ++ s ++ ws2) "," "." = ws1 ++ replaceFirst s "," "." ++ ws2.
Proof.
  intros H1 H2.
  pose proof (allChars_impl _ _ _ white_not_comma H1) as C1.
  pose proof (allChars_impl _ _ _ white_not_comma H2) as C2.
  destruct (first_occurrence "," s) as [Hs|(a & b & -> & Ha)].
  - rewrite !replaceFirst_absent; try assumption; [reflexivity|].
    rewrite !allChars_app. now rewrite C1, Hs, C2.
  - rewrite (replaceFirst_first "," "." a b Ha).
    change (String "," b) with ("," ++ b).
    rewrite !append_assoc. rewrite <- (append_assoc ws1 a).
    change ("," ++ b ++ ws2) with (String ","%char (b ++ ws2)).
    rewrite replaceFirst_first by (rewrite allChars_app; now rewrite C1, Ha).
    now rewrite !append_assoc.
Qed.

(** X8: white space before and after a time does not change what
    [vttTimeToSeconds] makes of it, so the blank that the time line of
    a cue leaves before its arrow is harmless. *)
Theorem vttTimeToSeconds_padding (ws1 ts ws2 : string) :
  allChars isWhiteSpace ws1 = true -> allChars isWhiteSpace ws2 = true ->
  vttTimeToSeconds (ws1 ++ ts ++ ws2) = vttTimeToSeconds ts.
Proof.
  intros H1 H2. unfold vttTimeToSeconds.
  now rewrite replaceFirst_padding, trim_padding by assumption.
Qed.

Lemma vttTimeToSeconds_padding_witness :
  vttTimeToSeconds (" " ++ "00:00:01.500" ++ " ") = vttTimeToSeconds "00:00:01.500".
Proof. apply vttTimeToSeconds_padding; reflexivity. Defined.

(** X9: the first comma of a time is read as a decimal point: a time
    whose only comma separates [a] from [b] is worth the time [a.b]. *)
Theorem vttTimeToSeconds_decimal_comma (a b : string) :
  allChars (fun d => negb (Ascii.eqb d ",")) a = true ->
  allChars (fun d => negb (Ascii.eqb d ",")) b = true ->
  vttTimeToSeconds (a ++ "," ++ b) = vttTimeToSeconds (a ++ "." ++ b).
Proof.
  intros Ha Hb. unfold vttTimeToSeconds.
  change ("," ++ b) with (String ","%char b).
  rewrite (replaceFirst_first "," "." a b Ha).
  rewrite (replaceFirst_absent "," "." (a ++ "." ++ b)); [reflexivity|].
  rewrite allChars_app. cbn [append allChars]. now rewrite Ha, Hb.
Qed.

Lemma vttTimeToSeconds_decimal_comma_witness :
  vttTimeToSeconds ("00:01:02" ++ "," ++ "250") = vttTimeToSeconds ("00:01:02" ++ "." ++ "250").
Proof. apply vttTimeToSeconds_decimal_comma; reflexivity. Defined.

Lemma allChars_take p s : forall n, allChars p s = true -> allChars p (take n s) = true.
Proof.
  induction s as [|c s IH]; intros [|n] H; try reflexivity.
  cbn [allChars take] in *. apply andb_true_iff in H as [-> Hs]. now apply IH.
Qed.

Lemma allChars_drop p s : forall n, allChars p s = true -> allChars p (drop n s) = true.
Proof.
  induction s as [|c s IH]; intros [|n] H; try reflexivity; try exact H.
  cbn [allChars drop] in *. apply andb_true_iff in H as [_ Hs]. now apply IH.
Qed.

Lemma allChars_trimStart p s : allChars p s = true -> allChars p (trimStart s) = true.
Proof.
  induction s as [|c s IH]; [reflexivity|]. intros H. cbn [trimStart].
  destruct (isWhiteSpace c); [|exact H].
  cbn [allChars] in H. apply andb_true_iff in H as [_ Hs]. now apply IH.
Qed.

Lemma allChars_trimEnd p s : allChars p s = true -> allChars p (trimEnd s) = true.
Proof.
  induction s as [|c s IH]; [reflexivity|]. intros H. cbn [trimEnd].
  cbn [allChars] in H. apply andb_true_iff in H as [Hc Hs].
  destruct (isWhiteSpace c && isEmpty (trimEnd s)); [reflexivity|].
  cbn [allChars]. now rewrite Hc, IH.
Qed.

Lemma allChars_replaceFirst p s pat rep :
  allChars p s = true -> allChars p rep = true ->
  allChars p (replaceFirst s pat rep) = true.
Proof.
  intros Hs Hr. unfold replaceFirst. destruct (indexOf pat s 0) as [i|]; [|exact Hs].
  rewrite !allChars_app. now rewrite allChars_take, Hr, allChars_drop.
Qed.

Lemma orZero_number x : is_nan (orZero x) = false.
Proof.
  unfold orZero. destruct (is_zero x); [reflexivity|].
  destruct (is_nan x) eqn:E; [reflexivity|exact E].
Qed.

Lemma Number_toString_NaN x : is_nan x = true -> Number_toString x = "NaN".
Proof. intros H. unfold Number_toString, Prim2SF. now rewrite H. Qed.

Lemma Number_toString_zero x :
  is_nan x = false -> is_zero x = true -> Number_toString x = "0".
Proof. intros Hn Hz. unfold Number_toString, Prim2SF. now rewrite Hn, Hz. Qed.

Lemma ofDecimal_whole v : (0 <= v)%Z -> ofDecimal v 0 = ofZ v.
Proof.
  intros Hv. unfold ofDecimal. destruct (v <=? 0)%Z eqn:E.
  - apply Z.leb_le in E. now replace v with 0%Z by lia.
  - cbn [Z.leb Z.compare Z.pow]. now rewrite Z.mul_1_r.
Qed.

(** X10: a time without colon is never worth NaN. With [x] the number
    [parseFloat] reads at the beginning of the time, the result is [x]
    printed and read again, with zero for NaN and for a zero; it is zero
    when [x] is NaN or a zero, and [x] itself when [x] is an infinity
    or a whole number from 0 to 3599. *)
Theorem vttTimeToSeconds_bare (ts : string) :
  allChars (fun d => negb (Ascii.eqb d ":")) ts = true ->
  let x := parseFloat (trim (replaceFirst ts "," ".")) in
  vttTimeToSeconds ts = orZero (parseFloat (Number_toString x))
  /\ is_nan (vttTimeToSeconds ts) = false
  /\ (is_nan x = true -> vttTimeToSeconds ts = zero)
  /\ (is_zero x = true -> vttTimeToSeconds ts = zero)
  /\ (x = infinity \/ x = neg_infinity -> vttTimeToSeconds ts = x)
  /\ (forall v, (0 <= v < 3600)%Z -> x = ofZ v -> vttTimeToSeconds ts = x).
Proof.
  intros H x.
  assert (vttTimeToSeconds ts = orZero (parseFloat (Number_toString x))) as E.
  { unfold vttTimeToSeconds. rewrite split_absent; [reflexivity|].
    unfold trim. apply allChars_trimEnd, allChars_trimStart.
    now apply allChars_replaceFirst. }
  rewrite E. split; [reflexivity|]. split; [apply orZero_number|].
  split; [|split; [|split]].
  - intros Hn. now rewrite (Number_toString_NaN _ Hn).
  - intros Hz. destruct (is_nan x) eqn:Hn.
    + now rewrite (Number_toString_NaN _ Hn).
    + now rewrite (Number_toString_zero _ Hn Hz).
  - intros [-> | ->]; vm_compute; reflexivity.
  - intros v Hv ->.
    assert (bareExact v = true) as T
      by (apply (allBelow_spec _ _ bareExact_table); cbn; lia).
    unfold bareExact in T. apply Leibniz.eqb_spec in T.
    now rewrite (ofDecimal_whole v) in T by lia.
Qed.

Lemma vttTimeToSeconds_bare_witness :
  vttTimeToSeconds "soon" = zero
  /\ vttTimeToSeconds " 90 s" = ofZ 90
  /\ vttTimeToSeconds "-Infinity" = neg_infinity.
Proof.
  split; [|split].
  - pose proof (vttTimeToSeconds_bare "soon" eq_refl) as (_ & _ & Hn & _).
    apply Hn. reflexivity.
  - pose proof (vttTimeToSeconds_bare " 90 s" eq_refl) as (_ & _ & _ & _ & _ & Hw).
    exact (Hw 90%Z ltac:(lia) eq_refl).
  - pose proof (vttTimeToSeconds_bare "-Infinity" eq_refl) as (_ & _ & _ & _ & Hi & _).
    apply Hi. right. reflexivity.
Defined.

(** ** The tracks of the list builder *)

Lemma orElse_truthyOr a d : truthyOr d (orElse a d).
Proof. unfold truthyOr, orElse. destruct (truthy a) eqn:E; [now left|now right]. Qed.

Lemma toTrack_normalised t tr : toTrack t = Normal tr -> normalisedTrack tr.
Proof.
  unfold toTrack. intros H.
  destruct (getProp t "languageCode") as [lc| |]; cbn [bindC] in H; try discriminate.
  destruct (getProp t "name") as [nm| |]; cbn [bindC] in H; try discriminate.
  destruct (optProp nm "simpleText") as [st| |]; cbn [bindC] in H; try discriminate.
  destruct (getProp t "baseUrl") as [bu| |]; cbn [bindC] in H; try discriminate.
  destruct (truthy bu) eqn:Eb; cbn [bindC] in H.
  - destruct (getProp t "kind") as [k| |]; cbn [bindC] in H; try discriminate.
    destruct (getProp t "isTranslatable") as [tr'| |]; cbn [bindC] in H; try discriminate.
    injection H as <-. unfold normalisedTrack. cbn [url name kind].
    split; [now left|]. split; apply orElse_truthyOr.
  - destruct (getProp t "url") as [u| |]; cbn [bindC] in H; try discriminate.
    destruct (getProp t "kind") as [k| |]; cbn [bindC] in H; try discriminate.
    destruct (getProp t "isTranslatable") as [tr'| |]; cbn [bindC] in H; try discriminate.
    injection H as <-. unfold normalisedTrack. cbn [url name kind].
    split; [|split]; apply orElse_truthyOr.
Qed.

(** X11: the tracks the list builder returns are never none, and each
    is in normal form: its [url] is truthy or [null], its [name] and
    its [kind] are truthy or the empty string; so no later reader meets
    an [undefined] there. *)
Theorem fetchCaptionList_tracks (h : host) (pg : page) (ts : list captionTrack) :
  fetchCaptionList h pg = Normal ts ->
  ts <> [] /\ Forall normalisedTrack ts.
Proof.
  intros H. split; [now apply (fetchCaptionList_nonempty h pg)|].
  destruct (fetchCaptionList_normal h pg ts H) as (pr & entries & _ & _ & Hm).
  revert Hm. apply mapC_Forall. apply toTrack_normalised.
Qed.

Lemma fetchCaptionList_tracks_witness :
  [enTrack; frTrack; deTrack] <> []
  /\ Forall normalisedTrack [enTrack; frTrack; deTrack].
Proof.
  exact (fetchCaptionList_tracks sampleHost threeTrackPage [enTrack; frTrack; deTrack]
           eq_refl).
Defined.

(** X19: the callback that builds a track throws on an entry that is
    [null] or [undefined], and on no other: an entry of any other shape
    gives a track. *)
Theorem toTrack_throws_iff (t : value) :
  (exists e, toTrack t = Throw e) <-> t = VNull \/ t = VUndefined.
Proof.
  split.
  - intros [e He]. destruct t as [| | | | | |props]; auto; try discriminate He.
    exfalso. unfold toTrack in He. cbn [getProp bindC] in He.
    pose proof (optProp_finished (lookup "name" props) "simpleText") as Hfin.
    destruct (optProp (lookup "name" props) "simpleText") as [st|e'|] eqn:Est;
      cbn [bindC] in He; [| |contradiction].
    + destruct (truthy (lookup "baseUrl" props)); discriminate He.
    + destruct (lookup "name" props); discriminate Est.
  - intros [->| ->]; eexists; reflexivity.
Qed.

(** ** Every run of the track fetcher *)

Section FetcherRuns.

Variable h : host.

Lemma candidateBody_shape text txt :
  candidateBody h text = Normal (Some txt) ->
  (exists cues,
      cues <> [] /\ Forall bracketed cues /\ txt = join nl cues
      /\ (sniffedCues h text = Normal cues
          \/ (sniffedCues h text = Normal [] /\ parseXMLTextNodes h text = Normal cues)))
  \/ (txt = rawText h text
      /\ sniffedCues h text = Normal []
      /\ parseXMLTextNodes h text = Normal []
      /\ (0 < Z.of_nat (length txt) < rawCap)%Z).
Proof.
  unfold candidateBody.
  destruct (sniffedCues_total h text) as (cues & Hs & Hb). rewrite Hs. cbn [bindC].
  destruct cues as [|c cues].
  - destruct (parseXMLTextNodes_cues h text) as ([|x xs] & Hx & Hxb); rewrite Hx;
      cbn [bindC].
    + destruct ((0 <? Z.of_nat (length (rawText h text)))%Z
                && (Z.of_nat (length (rawText h text)) <? rawCap)%Z) eqn:E;
        [|discriminate].
      intros [= <-]. right. apply andb_true_iff in E as [E1 E2].
      apply Z.ltb_lt in E1, E2. now repeat split.
    + intros [= <-]. left. exists (x :: xs).
      split; [discriminate|]. split; [exact Hxb|]. split; [reflexivity|].
      right. now split.
  - intros [= <-]. left. exists (c :: cues).
    split; [discriminate|]. split; [exact Hb|]. split; [reflexivity|]. now left.
Qed.

Lemma tryCandidate_body c (w w' : world h) txt :
  tryCandidate h c w = (Normal (Some txt), w') ->
  exists body n2,
    fetch h (net w) c = (Response true (Returns body), n2)
    /\ w' = World n2 (requests w ++ [c])
    /\ isBlank body = false
    /\ candidateBody h body = Normal (Some txt).
Proof.
  rewrite tryCandidate_eq. cbv zeta.
  destruct (fetch h (net w) c) as [o n2]. cbn [fst snd].
  destruct o as [e|[|] [text|e]]; try discriminate.
  destruct (isEmpty text || Nat.eqb (length (trim text)) 0) eqn:Eb; [discriminate|].
  destruct (candidateBody h text) as [r| |] eqn:E; try discriminate.
  intros [= -> <-]. exists text, n2.
  apply orb_false_iff in Eb as [_ Eb]. unfold isBlank.
  now rewrite isEmpty_length, Eb.
Qed.

(** A run of the track fetcher adds at most four requests, and at least
    one when it returns. *)
Lemma fetchCaptionText_requests (t : captionTrack) (w : world h) :
  exists more,
    requests (snd (fetchCaptionText h t w)) = (requests w ++ more)%list
    /\ List.length more <= 4
    /\ (forall txt, fst (fetchCaptionText h t w) = Normal txt -> 1 <= List.length more).
Proof.
  unfold fetchCaptionText. destruct (negb (truthy (url t))).
  { exists []. rewrite app_nil_r. cbn. repeat split; [lia|discriminate]. }
  unfold bind, liftC.
  destruct (candidates_cases t) as [(cs & Hc & Hlen)|(e & Hc & He)]; rewrite Hc.
  2:{ exists []. rewrite app_nil_r. cbn. repeat split; [lia|discriminate]. }
  destruct (candidatesLoop_cases h t cs w)
    as [(w' & Hl & Hp)|(pre & c & post & w1 & txt & w' & Hcs & Hp & Ht & Hl)];
    rewrite Hl; cbn [fst snd].
  - exists cs. rewrite (allPass_requests h cs w w' Hp).
    repeat split; [lia|discriminate].
  - exists (pre ++ [c])%list.
    destruct (tryCandidate_total h c w1) as (r & E & _). rewrite E in Ht.
    injection Ht as _ <-. cbn [requests].
    rewrite (allPass_requests h pre w w1 Hp), <- app_assoc.
    rewrite <- Hlen, Hcs, !length_app. cbn [List.length].
    repeat split; lia.
Qed.

(** X12: every run of the track fetcher ends, and it requests nothing
    but candidates of the track, from the first on, at most four of
    them. When it returns, the text is usable and at least one request
    was made; when it fails, either the [url] is falsy or has no
    [includes] and nothing was requested and nothing changed, or all
    four candidates were requested in vain. *)
Theorem fetchCaptionText_runs (t : captionTrack) (w : world h) :
  exists more,
    requests (snd (fetchCaptionText h t w)) = (requests w ++ more)%list
    /\ List.length more <= 4
    /\ (forall cs, candidates t = Normal cs -> exists post, cs = (more ++ post)%list)
    /\ match fst (fetchCaptionText h t w) with
       | Normal txt => usable txt = true /\ 1 <= List.length more
       | Throw e =>
           (e = NoTrackUrl (lang t) /\ truthy (url t) = false
            /\ snd (fetchCaptionText h t w) = w /\ more = [])
           \/ (isTypeError e /\ snd (fetchCaptionText h t w) = w /\ more = [])
           \/ (e = TrackFetchFailed (lang t) /\ candidates t = Normal more)
       | Unfinished => False
       end.
Proof.
  unfold fetchCaptionText. destruct (truthy (url t)) eqn:Eu; cbn [negb].
  2:{ exists []. rewrite app_nil_r. cbn [fst snd throw List.length].
      repeat split; [lia|intros cs _; now exists cs|]. left. now repeat split. }
  unfold bind, liftC.
  destruct (candidates_cases t) as [(cs & Hc & Hlen)|(e & Hc & He)]; rewrite Hc.
  2:{ exists []. rewrite app_nil_r. cbn [fst snd List.length].
      repeat split; [lia|intros cs [=]|]. right; left. now repeat split. }
  destruct (candidatesLoop_cases h t cs w)
    as [(w' & Hl & Hp)|(pre & c & post & w1 & txt & w' & Hcs & Hp & Ht & Hl)];
    rewrite Hl; cbn [fst snd].
  - exists cs. rewrite (allPass_requests h cs w w' Hp).
    repeat split; [lia|intros cs' [= <-]; exists []; now rewrite app_nil_r|].
    right; right. now split.
  - exists (pre ++ [c])%list.
    destruct (tryCandidate_total h c w1) as (r & E & Hu). rewrite E in Ht.
    injection Ht as -> <-. cbn [requests].
    rewrite (allPass_requests h pre w w1 Hp), <- app_assoc.
    assert (List.length (pre ++ [c]) <= 4) as Hle.
    { rewrite <- Hlen, Hcs, !length_app. cbn [List.length]. lia. }
    repeat split; try exact Hle.
    + intros cs' [= <-]. exists post. now rewrite Hcs, <- app_assoc.
    + now apply Hu.
    + rewrite length_app. cbn [List.length]. lia.
Qed.

(** X13: the text the track fetcher returns comes from the body of the
    response to one candidate of the track, fetched after the candidates
    before it passed, and that body is not blank. The text is either
    cue lines joined by line feeds, the cues being all those its
    detected format gave, or, when no detected format gave any, all
    those the XML parser gave; or, when no parser found a cue, the
    cleaned body, which is then not empty and shorter than 200000
    characters. *)
Theorem fetchCaptionText_text (t : captionTrack) (w w' : world h) (txt : string) :
  fetchCaptionText h t w = (Normal txt, w') ->
  exists pre c post w1 n2 body,
    candidates t = Normal (pre ++ c :: post)%list
    /\ allPass h pre w = Some w1
    /\ fetch h (net w1) c = (Response true (Returns body), n2)
    /\ w' = World n2 (requests w ++ pre ++ [c])
    /\ isBlank body = false
    /\ ((exists cues,
            cues <> [] /\ Forall bracketed cues /\ txt = join nl cues
            /\ (sniffedCues h body = Normal cues
                \/ (sniffedCues h body = Normal []
                    /\ parseXMLTextNodes h body = Normal cues)))
        \/ (txt = rawText h body
            /\ sniffedCues h body = Normal []
            /\ parseXMLTextNodes h body = Normal []
            /\ (0 < Z.of_nat (length txt) < rawCap)%Z)).
Proof.
  unfold fetchCaptionText. destruct (negb (truthy (url t))); [discriminate|].
  unfold bind, liftC. destruct (candidates t) as [cs| |]; try discriminate.
  destruct (candidatesLoop_cases h t cs w)
    as [(w2 & Hl & _)|(pre & c & post & w1 & txt' & w2 & Hcs & Hp & Ht & Hl)];
    rewrite Hl; [discriminate|].
  intros [= -> ->].
  destruct (tryCandidate_body c w1 w' txt Ht) as (body & n2 & Hf & Hw & Hb & Hc).
  exists pre, c, post, w1, n2, body.
  split; [now rewrite Hcs|]. split; [exact Hp|]. split; [exact Hf|].
  split; [now rewrite Hw, (allPass_requests h pre w w1 Hp), <- app_assoc|].
  split; [exact Hb|]. exact (candidateBody_shape body txt Hc).
Qed.

End FetcherRuns.

Lemma fetchCaptionText_text_witness :
  exists pre c post w1 n2 body,
    candidates enTrack = Normal (pre ++ c :: post)%list
    /\ allPass sampleHost pre w0 = Some w1
    /\ fetch sampleHost (net w1) c = (Response true (Returns body), n2)
    /\ snd (fetchCaptionText sampleHost enTrack w0)
       = World n2 (requests w0 ++ pre ++ [c])
    /\ isBlank body = false
    /\ ((exists cues,
            cues <> [] /\ Forall bracketed cues /\ "[1.5s] hi" = join nl cues
            /\ (sniffedCues sampleHost body = Normal cues
                \/ (sniffedCues sampleHost body = Normal []
                    /\ parseXMLTextNodes sampleHost body = Normal cues)))
        \/ ("[1.5s] hi" = rawText sampleHost body
            /\ sniffedCues sampleHost body = Normal []
            /\ parseXMLTextNodes sampleHost body = Normal []
            /\ (0 < Z.of_nat (length "[1.5s] hi") < rawCap)%Z)).
Proof.
  exact (fetchCaptionText_text sampleHost enTrack w0
           (snd (fetchCaptionText sampleHost enTrack w0)) "[1.5s] hi" eq_refl).
Defined.

(** ** A body with an arrow is read as WebVTT *)

Lemma prefix_app sub b : prefix sub (sub ++ b) = true.
Proof.
  induction sub as [|c sub IH]; [apply prefix_empty|].
  cbn [append]. now rewrite prefix_head_eq.
Qed.

Lemma prefix_split sub s : prefix sub s = true -> exists r, s = sub ++ r.
Proof.
  revert s. induction sub as [|c sub IH]; intros s H; [now exists s|].
  destruct s as [|d s]; [discriminate|]. cbn in H.
  destruct (ascii_dec c d) as [->|]; [|discriminate].
  destruct (IH s H) as [r ->]. now exists r.
Qed.

(** [s.includes(sub)] says that [sub] is a part of [s]. *)
Lemma includes_part s sub :
  includes s sub = true <-> exists a b, s = a ++ sub ++ b.
Proof.
  unfold includes, indexOf. cbn [Nat.min drop]. split.
  - destruct (indexOfAux sub s 0) as [j|] eqn:E; [|discriminate]. intros _.
    apply indexOfAux_found in E as (k & _ & Hk).
    destruct (prefix_split _ _ Hk) as [r Hr].
    exists (take k s), r. now rewrite <- Hr, take_drop.
  - intros (a & b & ->).
    assert (forall i, exists j, indexOfAux sub (a ++ sub ++ b) i = Some j) as H.
    { induction a as [|c a IH]; intros i.
      - cbn [append]. exists i.
        destruct (sub ++ b) eqn:E; cbn [indexOfAux]; rewrite <- E, prefix_app; reflexivity.
      - cbn [append indexOfAux]. destruct (prefix sub _); [now exists i|apply IH]. }
    now destruct (H 0) as [j ->].
Qed.

Lemma trimStart_keeps a c r :
  isWhiteSpace c = false -> exists a', trimStart (a ++ String c r) = a' ++ String c r.
Proof.
  intros Hc. induction a as [|d a IH].
  - exists EmptyString. now apply trimStart_head_solid.
  - cbn [append trimStart]. destruct (isWhiteSpace d); [exact IH|]. now exists (String d a).
Qed.

Lemma trimEnd_app_solid x y :
  isEmpty (trimEnd y) = false -> trimEnd (x ++ y) = x ++ trimEnd y.
Proof.
  intros H. induction x as [|d x IH]; [reflexivity|].
  cbn [append trimEnd]. rewrite IH.
  destruct (x ++ trimEnd y) eqn:E.
  - destruct x; [cbn in E; now rewrite E in H|discriminate E].
  - now rewrite andb_false_r.
Qed.

(** Trimming keeps an arrow. *)
Lemma trim_keeps_arrow a b : exists a' b', trim (a ++ "-->" ++ b) = a' ++ "-->" ++ b'.
Proof.
  unfold trim. cbn [append].
  destruct (trimStart_keeps a "-" (String "-" (String ">" b)) eq_refl) as [a' ->].
  exists a', (trimEnd b).
  change (String "-" (String "-" (String ">" b))) with ("--" ++ String ">" b).
  rewrite <- append_assoc, trimEnd_app_solid.
  - rewrite (trimEnd_head_solid ">" b eq_refl). now rewrite append_assoc.
  - now rewrite (trimEnd_head_solid ">" b eq_refl).
Qed.

(** A text with an arrow has a line with an arrow. *)
Lemma split_keeps_arrow n :
  forall a b, length a <= n ->
    exists line a' b',
      In line (split (a ++ "-->" ++ b) (String LF EmptyString))
      /\ line = a' ++ "-->" ++ b'.
Proof.
  induction n as [|n IH]; intros a b Hn.
  - destruct a; [|cbn in Hn; lia]. cbn [append].
    destruct (first_occurrence LF b) as [Hb|(b1 & b2 & -> & Hb1)].
    + exists ("-->" ++ b), EmptyString, b. split; [|reflexivity].
      rewrite split_absent; [now left|]. cbn [append allChars]. now rewrite Hb.
    + exists ("-->" ++ b1), EmptyString, b1. split; [|reflexivity].
      change (String "-" (String "-" (String ">" (b1 ++ String LF b2))))
        with (("-->" ++ b1) ++ String LF b2).
      rewrite split_first; [now left|]. cbn [append allChars]. now rewrite Hb1.
  - destruct (first_occurrence LF a) as [Ha|(a1 & a2 & -> & Ha1)].
    + destruct (first_occurrence LF b) as [Hb|(b1 & b2 & -> & Hb1)].
      * exists (a ++ "-->" ++ b), a, b. split; [|reflexivity].
        rewrite split_absent; [now left|].
        rewrite allChars_app. cbn [append allChars]. now rewrite Ha, Hb.
      * exists (a ++ "-->" ++ b1), a, b1. split; [|reflexivity].
        replace (a ++ "-->" ++ b1 ++ String LF b2)
          with ((a ++ "-->" ++ b1) ++ String LF b2)
          by (now rewrite !append_assoc).
        rewrite split_first; [now left|].
        rewrite allChars_app. cbn [append allChars]. now rewrite Ha, Hb1.
    + destruct (IH a2 b) as (line & a' & b' & Hin & Hline).
      { rewrite length_append in Hn. cbn [length] in Hn. lia. }
      exists line, a', b'. split; [|exact Hline].
      replace ((a1 ++ String LF a2) ++ "-->" ++ b)
        with (a1 ++ String LF (a2 ++ "-->" ++ b))
        by (now rewrite append_assoc).
      rewrite split_first by exact Ha1. now right.
Qed.

Lemma arrow_line text :
  includes text "-->" = true -> arrowLines (vttLines text) <> [].
Proof.
  intros H. apply includes_part in H as (a & b & ->).
  unfold vttLines. rewrite !removeAll_app.
  change (removeAll CR "-->") with "-->".
  destruct (split_keeps_arrow _ (removeAll CR a) (removeAll CR b) (le_n _))
    as (line & a' & b' & Hin & ->).
  assert (In (a' ++ "-->" ++ b')
             (arrowLines (split (removeAll CR a ++ "-->" ++ removeAll CR b)
                            (String LF EmptyString)))) as Hf.
  { unfold arrowLines. apply filter_In. split; [exact Hin|].
    apply includes_part. apply trim_keeps_arrow. }
  intros E. now rewrite E in Hf.
Qed.

Section ArrowBodies.

Variable h : host.

(** X17: a response body in which an arrow occurs anywhere, be it
    JSON or XML, is read as WebVTT: the turn of the candidate loop
    returns the cues of [parseVTT], of which there is at least one, and
    what the other parsers would make of the body plays no part. *)
Theorem arrow_body_read_as_VTT (c : string) (w : world h) (n2 : netState h)
    (text : string) :
  fetch h (net w) c = (Response true (Returns text), n2) ->
  includes text "-->" = true ->
  exists cue cues,
    parseVTT h text = Normal (cue :: cues)
    /\ tryCandidate h c w
       = (Normal (Some (join nl (cue :: cues))), World n2 (requests w ++ [c])).
Proof.
  intros Hf Hi.
  destruct (parseVTT_first_arrow h text (arrow_line text Hi)) as (cue & cues & Hp).
  exists cue, cues. split; [exact Hp|].
  assert (includes (trim text) "-->" = true) as Ht.
  { apply includes_part in Hi as (a & b & ->). apply includes_part, trim_keeps_arrow. }
  apply tryCandidate_cues with (text := text); try assumption; [| |discriminate].
  - unfold isBlank. destruct (trim text); [discriminate Ht|reflexivity].
  - unfold sniffedCues, sniffVTT. rewrite Ht, orb_true_r.
    cbn [firstCues]. rewrite Hp. reflexivity.
Qed.

End ArrowBodies.

Lemma arrow_body_read_as_VTT_witness :
  exists cue cues,
    parseVTT arrowHost arrowBody = Normal (cue :: cues)
    /\ tryCandidate arrowHost "u" (@World arrowHost tt [])
       = (Normal (Some (join nl (cue :: cues))), @World arrowHost tt ([] ++ ["u"])).
Proof.
  apply (arrow_body_read_as_VTT arrowHost "u" (@World arrowHost tt []) tt arrowBody);
    reflexivity.
Defined.

(** ** Every run of the aggregator *)

Section AggregatorRuns.

Variable h : host.

(** The tracks taken in turn make at most four requests each, and at
    least one when a track succeeds. *)
Lemma trackOutcomes_requests ts :
  forall w : world h,
    exists more,
      requests (snd (trackOutcomes h ts w)) = (requests w ++ more)%list
      /\ List.length more <= 4 * List.length ts
      /\ (successes (fst (trackOutcomes h ts w)) <> [] -> 1 <= List.length more).
Proof.
  induction ts as [|t ts IH]; intros w.
  - exists []. cbn. rewrite app_nil_r. repeat split; [lia|congruence].
  - cbn [trackOutcomes].
    destruct (fetchCaptionText_requests h t w) as (m1 & Hr1 & Hl1 & Hcase).
    destruct (fetchCaptionText h t w) as [r w1]. cbn [fst snd] in Hr1, Hcase.
    destruct (IH w1) as (m2 & Hr2 & Hl2 & Hs2).
    destruct (trackOutcomes h ts w1) as [rs w2]. cbn [fst snd] in *.
    exists (m1 ++ m2)%list. rewrite Hr2, Hr1, <- app_assoc, length_app.
    repeat split; [cbn [List.length]; lia|].
    destruct r as [txt|e|]; cbn [successes];
      [intros _; specialize (Hcase txt eq_refl); lia|intros H; specialize (Hs2 H); lia..].
Qed.

Lemma trackOutcomes_finished ts :
  forall w : world h,
    Forall (fun o => snd o <> Unfinished) (fst (trackOutcomes h ts w)).
Proof.
  induction ts as [|t ts IH]; intros w; [constructor|].
  cbn [trackOutcomes].
  destruct (fetchCaptionText_total h t w) as (r & w1 & E & Hfin & _). rewrite E.
  specialize (IH w1). destruct (trackOutcomes h ts w1) as [rs w2].
  cbn [fst] in *. now constructor.
Qed.

Lemma successes_none_failed (os : list (captionTrack * completion string)) :
  Forall (fun o => snd o <> Unfinished) os ->
  successes os = [] -> forallb failed os = true.
Proof.
  induction 1 as [|[t [txt|e|]] os Hfin _ IH]; cbn [successes forallb failed snd];
    [reflexivity|discriminate|exact IH|now contradiction Hfin].
Qed.

Lemma fetchCaptionList_finished pg : fetchCaptionList h pg <> Unfinished.
Proof.
  intros El. unfold fetchCaptionList in El.
  destruct (getPlayerResponse h pg) as [pr| |] eqn:Epr; cbn [bindC] in El.
  - destruct (optProp pr "captions") as [c| |] eqn:E1; cbn [bindC] in El;
      [|discriminate|now apply optProp_finished in E1].
    destruct (optProp c "playerCaptionsTracklistRenderer") as [r| |] eqn:E2;
      cbn [bindC] in El; [|discriminate|now apply optProp_finished in E2].
    destruct (optProp r "captionTracks") as [l| |] eqn:E3;
      cbn [bindC] in El; [|discriminate|now apply optProp_finished in E3].
    destruct (negb (truthy (orElse l (VArr [])))); [discriminate|].
    unfold lengthIsZero in El.
    destruct (getProp (orElse l (VArr [])) "length") as [n| |] eqn:E4;
      cbn [bindC] in El; [|discriminate|now apply getProp_finished in E4].
    destruct (match n with VNum x => is_zero x | _ => false end); [discriminate|].
    now apply builtTracks_finished in El.
  - discriminate.
  - rewrite getPlayerResponse_cases in Epr.
    destruct (truthy _); [discriminate|]. destruct (truthy _); [discriminate|].
    destruct (scanScripts _ _); discriminate.
Qed.

Lemma getBestTranscript_finished pg (w : world h) :
  fst (getBestTranscript h pg w) <> Unfinished.
Proof.
  rewrite getBestTranscript_eq. destruct (searchParamV pg) as [vid|]; [|discriminate].
  destruct (isEmpty vid); [discriminate|].
  pose proof (fetchCaptionList_finished pg) as Hfin.
  destruct (fetchCaptionList h pg) as [ts|e|]; try discriminate; [|contradiction].
  destruct (successes _); discriminate.
Qed.

Lemma join_sections_header f fs :
  startsWith (join blankLine (map section_ (f :: fs))) "--- Track: " = true.
Proof.
  unfold join, startsWith. cbn [map concat].
  destruct (map section_ fs); unfold section_; cbn [append];
    rewrite !prefix_head_eq; apply prefix_empty.
Qed.

(** X14: every run of the aggregator ends. When it returns, the video
    id is the non-empty [v] parameter of the page, [tracks] is the list
    of the list builder, [combined] begins with the header of a track,
    and between one and four requests per track were made. When it
    fails, either nothing was requested and nothing changed, the error
    being [NoVideoId], [MetadataNotFound], [NoCaptionTracks] or a type
    error of the engine, or every track was tried and the error is
    [NoCaptionsFetched]. *)
Theorem getBestTranscript_runs (pg : page) (w : world h) :
  exists more,
    requests (snd (getBestTranscript h pg w)) = (requests w ++ more)%list
    /\ match fst (getBestTranscript h pg w) with
       | Normal r =>
           searchParamV pg = Some (videoId r) /\ isEmpty (videoId r) = false
           /\ fetchCaptionList h pg = Normal (tracks r)
           /\ startsWith (combined r) "--- Track: " = true
           /\ 1 <= List.length more <= 4 * List.length (tracks r)
       | Throw e =>
           ((e = NoVideoId \/ e = MetadataNotFound \/ e = NoCaptionTracks
             \/ isTypeError e)
            /\ snd (getBestTranscript h pg w) = w /\ more = [])
           \/ (e = NoCaptionsFetched
               /\ exists ts, fetchCaptionList h pg = Normal ts
                             /\ forallb failed (fst (trackOutcomes h ts w)) = true
                             /\ List.length more <= 4 * List.length ts)
       | Unfinished => False
       end.
Proof.
  rewrite getBestTranscript_eq.
  destruct (searchParamV pg) as [vid|].
  2:{ exists []. rewrite app_nil_r. split; [reflexivity|]. left. now repeat split; try left. }
  destruct (isEmpty vid) eqn:Ev.
  { exists []. rewrite app_nil_r. split; [reflexivity|]. left. now repeat split; try left. }
  destruct (fetchCaptionList h pg) as [ts|e|] eqn:El.
  - destruct (trackOutcomes_requests ts w) as (more & Hr & Hl & Hs).
    exists more. split.
    { destruct (successes _); exact Hr. }
    destruct (successes (fst (trackOutcomes h ts w))) as [|f fs] eqn:Es;
      cbn [fst snd].
    + right. split; [reflexivity|]. exists ts. split; [reflexivity|].
      split; [|exact Hl].
      apply successes_none_failed; [apply trackOutcomes_finished|exact Es].
    + cbn [videoId tracks combined]. repeat split; try assumption.
      * apply join_sections_header.
      * apply Hs. discriminate.
  - exists []. rewrite app_nil_r. split; [reflexivity|]. left. cbn [fst snd].
    split; [|now split].
    destruct (fetchCaptionList_throws h pg e El) as [->|[->|H]]; auto.
  - now apply fetchCaptionList_finished in El.
Qed.

End AggregatorRuns.

(** ** Every request is answered *)

Lemma errorText_not_empty e : isEmpty (errorText e) = false.
Proof.
  unfold errorText. destruct (isEmpty (message e)) eqn:E; [|exact E].
  now destruct e.
Qed.

(** X15: the listener answers a request after the run of
    the aggregator: with success and the result when the aggregator
    returned, with failure and a non-empty error text when it threw; it
    returns [true] then; and it sends a response only for a request. *)
Theorem messageListener_answers (h : host) (pg : page) (msg : value) (w : world h) :
  (getProp msg "action" = Normal (VStr "getTranscript") ->
   returned (messageListener h pg msg w) = VBool true
   /\ after (messageListener h pg msg w) = snd (getBestTranscript h pg w)
   /\ ((exists r, fst (getBestTranscript h pg w) = Normal r
                  /\ sent (messageListener h pg msg w) = Some (ResponseSuccess r))
       \/ (exists e, fst (getBestTranscript h pg w) = Throw e
                     /\ sent (messageListener h pg msg w)
                        = Some (ResponseFailure (errorText e))
                     /\ isEmpty (errorText e) = false)))
  /\ (sent (messageListener h pg msg w) <> None ->
      getProp msg "action" = Normal (VStr "getTranscript")).
Proof.
  split.
  - intros H. unfold messageListener. rewrite H.
    assert (truthy msg = true) as ->.
    { destruct msg; cbn in H; try discriminate H; reflexivity. }
    cbn [andb strictEqualsString]. rewrite String.eqb_refl.
    pose proof (getBestTranscript_finished h pg w) as Hfin.
    destruct (getBestTranscript h pg w) as [[r|e|] w']; cbn [fst snd] in *;
      [| |contradiction].
    + repeat split. left. now exists r.
    + repeat split. right. exists e. repeat split. apply errorText_not_empty.
  - unfold messageListener. destruct (getProp msg "action") as [a| |] eqn:E;
      try (rewrite andb_false_r; intros H; now contradiction H).
    destruct (strictEqualsString a "getTranscript") eqn:Ea;
      [|rewrite andb_false_r; intros H; now contradiction H].
    apply strictEqualsString_true in Ea. now subst.
Qed.

(** ** The scan of the script elements *)

Section ScriptScan.

Variable h : host.

(** X16: the scan of the scripts returns a value exactly when some
    script has an extracted literal that parses, and then it returns
    the parse of the first such script: every script before it has no
    literal or one that does not parse. The guards on an empty script
    text, on the name and on an empty literal change nothing. *)
Theorem scanScripts_first (texts : list string) (parsed : value) :
  scanScripts h texts = Some parsed
  <-> exists pre s post jsonStr,
        texts = (pre ++ s :: post)%list
        /\ Forall (fun s' =>
                     forall j, extractJSONFromScriptText s' "ytInitialPlayerResponse" = Some j ->
                               exists e, JSON_parse h j = Throws e) pre
        /\ extractJSONFromScriptText s "ytInitialPlayerResponse" = Some jsonStr
        /\ JSON_parse h jsonStr = Returns parsed.
Proof.
  split.
  - induction texts as [|s rest IH]; [discriminate|].
    rewrite scanScripts_step.
    destruct (extractJSONFromScriptText s "ytInitialPlayerResponse") as [j|] eqn:E.
    + destruct (JSON_parse h j) as [p|e] eqn:Ep.
      * intros [= ->]. exists [], s, rest, j. now repeat split.
      * intros H. destruct (IH H) as (pre & s' & post & j' & -> & Hpre & He & Hp).
        exists (s :: pre), s', post, j'. repeat split; try assumption.
        constructor; [|exact Hpre]. intros j0 Hj0. rewrite E in Hj0.
        injection Hj0 as <-. now exists e.
    + intros H. destruct (IH H) as (pre & s' & post & j' & -> & Hpre & He & Hp).
      exists (s :: pre), s', post, j'. repeat split; try assumption.
      constructor; [|exact Hpre]. intros j0 Hj0. rewrite E in Hj0. discriminate Hj0.
  - intros (pre & s & post & j & -> & Hpre & He & Hp).
    induction Hpre as [|s' pre Hs' _ IH]; cbn [app]; rewrite scanScripts_step.
    + now rewrite He, Hp.
    + destruct (extractJSONFromScriptText s' "ytInitialPlayerResponse") as [j'|];
        [|exact IH].
      destruct (Hs' j' eq_refl) as [e ->]. exact IH.
Qed.

End ScriptScan.

(** ** What the relay resolves to *)

Lemma strictEqualsTrue_true v : strictEqualsTrue v = true -> v = VBool true.
Proof. destruct v as [| |[|]| | | |]; try discriminate. reflexivity. Qed.

Lemma orElse_truthy a : truthy (orElse a VNull) = true -> orElse a VNull = a.
Proof. unfold orElse. destruct (truthy a); [reflexivity|discriminate]. Qed.

(** X18: the relay resolves to [null] or to a truthy value, and a
    truthy value is the [payload] of the first message that has the
    page's own window as its source and whose data has [__YT_TR__]
    equal to [true]; this message and all before it arrived before the
    timer fired. *)
Theorem relay_outcome (events : list (N * messageEvent)) :
  truthyOr VNull (relay events)
  /\ (truthy (relay events) = true ->
      exists pre d e post,
        events = (pre ++ (d, e) :: post)%list
        /\ Forall (fun de : N * messageEvent =>
                     (fst de < relayTimeoutMs)%N /\ accepted (snd de) = false) pre
        /\ (d < relayTimeoutMs)%N
        /\ fromWindow e = true
        /\ getProp (data e) "__YT_TR__" = Normal (VBool true)
        /\ getProp (data e) "payload" = Normal (relay events)).
Proof.
  induction events as [|[d e] events [IHt IHp]].
  - split; [now right|discriminate].
  - cbn [relay]. destruct (relayTimeoutMs <=? d)%N eqn:Ed.
    + split; [now right|discriminate].
    + apply N.leb_gt in Ed. destruct (accepted e) eqn:Ea.
      * split.
        { unfold relayedPayload. destruct (getProp (data e) "payload");
            [apply orElse_truthyOr|now right..]. }
        intros Ht. exists [], d, e, events.
        unfold accepted in Ea. apply andb_true_iff in Ea as [Ea Hm].
        apply andb_true_iff in Ea as [Hw _].
        destruct (getProp (data e) "__YT_TR__") as [m| |]; try discriminate Hm.
        apply strictEqualsTrue_true in Hm. subst m.
        unfold relayedPayload in *.
        destruct (getProp (data e) "payload") as [v| |]; try discriminate Ht.
        rewrite (orElse_truthy v Ht).
        repeat split; try assumption. constructor.
      * split; [exact IHt|]. intros Ht.
        destruct (IHp Ht) as (pre & d' & e' & post & -> & Hpre & Hd & Hw & Hm & Hp).
        exists ((d, e) :: pre), d', e', post.
        repeat split; try assumption. constructor; [now split|exact Hpre].
Qed.

